(** * pgxtypefaster: the hstore text parser and binary codec

    A shallow embedding of [hstore.go], [hstore_compat.go] and [pgtype.go].

    - A Go [string] is a sequence of bytes: [list ascii].
    - A Go [[]byte] may be [nil]: [option (list ascii)], [None] being [nil].
    - A Go [map[string]V] may be [nil]: [option (gmap (list ascii) V)].
    - [int] and [int32] are [Z]; the conversions that wrap are written out.
    - A call either returns a value, returns a Go [error], or panics. *)

From Stdlib Require Import ZArith List Ascii Lia Bool.
From stdpp Require Import base option list gmap strings.

Open Scope Z_scope.

(** ** Bytes, strings and slices *)

Abbreviation gostring := (list ascii).
Abbreviation byteslice := (option (list ascii)).

(** [len(s)] *)
Definition len {A} (s : list A) : Z := Z.of_nat (length s).

(** [len(b)] for a slice that may be nil *)
Definition lenSlice (b : byteslice) : Z :=
  match b with None => 0 | Some l => len l end.

(** [string(b)]: a nil slice converts to the empty string *)
Definition stringOfSlice (b : byteslice) : gostring :=
  match b with None => [] | Some l => l end.

(** [append(buf, xs...)]: appending nothing to a nil slice leaves it nil *)
Definition append (buf : byteslice) (xs : list ascii) : byteslice :=
  match buf, xs with
  | None, [] => None
  | None, _ => Some xs
  | Some l, _ => Some (l ++ xs)
  end.

Definition byteVal (b : ascii) : Z := Z.of_N (N_of_ascii b).
Definition byteOf (z : Z) : ascii := ascii_of_N (Z.to_N (z mod 256)).

Definition dquote : ascii := "034"%char.
Definition backslash : ascii := "092"%char.

Definition bytes (s : string) : gostring := Stdlib.Strings.String.list_ascii_of_string s.

(** ** Errors, panics and outcomes *)

(** The [error] values built in the package, one constructor per message. *)
Inductive error : Type :=
  | ErrHstoreIncomplete (src : list ascii)
      (* fmt.Errorf("hstore incomplete %v", src) *)
  | ErrUnexpectedByte (actualB expectedB : ascii)
      (* unexpectedByteErr: "expected '%c' ('%#v'); found '%c' ('%#v')" *)
  | ErrExpectedFoundEnd (expectedB : ascii)
      (* "expected '%c' ('%#v'); found end" *)
  | ErrUnexpectedEndOfString
      (* errors.New("unexpected end of string") *)
  | ErrEOSInQuoted
      (* errEOSInQuoted: "found end before closing double-quote" *)
  | ErrUnexpectedEscape (b : ascii)
      (* "unexpected escape in quoted string: found '%#v'" *)
  | ErrFoundEndInsteadOfValue
      (* errors.New("found end instead of value") *)
  | ErrCannotScan (typeName : gostring)
      (* fmt.Errorf("cannot scan %T", src) *)
  | ErrPlanScanNotFound.
      (* fmt.Errorf("PlanScan did not find a plan") *)

(** The run-time panics the code can raise. *)
Inductive panic : Type :=
  | SliceBoundsOutOfRange
  | IndexOutOfRange
  | MakesliceLenOutOfRange
  | NilPointerDereference
  | InterfaceConversion.

Inductive outcome (A : Type) : Type :=
  | Ok (a : A)
  | Err (e : error)
  | Panic (p : panic)
  | OutOfFuel.

Arguments Ok {A} a.
Arguments Err {A} e.
Arguments Panic {A} p.
Arguments OutOfFuel {A}.

Definition obind {A B} (m : outcome A) (k : A -> outcome B) : outcome B :=
  match m with
  | Ok a => k a
  | Err e => Err e
  | Panic p => Panic p
  | OutOfFuel => OutOfFuel
  end.

(** Sequencing, with stdpp's notation [x ← m; k]. *)
Global Instance outcome_bind : MBind outcome := fun A B k m => obind m k.
Global Instance outcome_ret : MRet outcome := fun A a => Ok a.

(** [s[lo:]] *)
Definition sliceFrom {A} (s : list A) (lo : Z) : outcome (list A) :=
  if (0 <=? lo) && (lo <=? len s) then Ok (drop (Z.to_nat lo) s)
  else Panic SliceBoundsOutOfRange.

(** [s[lo:hi]] *)
Definition sliceRange {A} (s : list A) (lo hi : Z) : outcome (list A) :=
  if (0 <=? lo) && (lo <=? hi) && (hi <=? len s)
  then Ok (take (Z.to_nat (hi - lo)) (drop (Z.to_nat lo) s))
  else Panic SliceBoundsOutOfRange.

(** ** 32-bit integers on the wire *)

(** [int32(u)] for a [uint32] [u]: the same 32 bits read as two's complement. *)
Definition int32_of_uint32 (u : Z) : Z :=
  if u <? 2 ^ 31 then u else u - 2 ^ 32.

(** [int32(n)] for an [int] [n]: the low 32 bits, read as two's complement. *)
Definition int32 (n : Z) : Z := int32_of_uint32 (n mod 2 ^ 32).

(** [binary.BigEndian.Uint32(b)] *)
Definition Uint32 (b : list ascii) : outcome Z :=
  match b with
  | b0 :: b1 :: b2 :: b3 :: _ =>
      Ok (Z.lor (Z.lor (Z.lor (Z.shiftl (byteVal b0) 24) (Z.shiftl (byteVal b1) 16))
                       (Z.shiftl (byteVal b2) 8)) (byteVal b3))
  | _ => Panic IndexOutOfRange
  end.

(** Modelled from the spec: [pgio.AppendInt32] (package [internal/pgio], not
    among the sources) appends the 32-bit value, big-endian: "all big-endian
    32-bit". *)
Definition be32 (n : Z) : list ascii :=
  [byteOf (Z.shiftr n 24); byteOf (Z.shiftr n 16); byteOf (Z.shiftr n 8); byteOf n].

Definition AppendInt32 (buf : byteslice) (n : Z) : byteslice :=
  append buf (be32 n).

(** ** The data model *)

(** [pgtype.Text] *)
Module pgtype.
Record Text : Type := mkText { String : list ascii; Valid : bool }.
End pgtype.
Abbreviation Text := pgtype.Text.

Global Instance Text_eq_dec : EqDecision Text.
Proof. solve_decision. Defined.

(** [NewText] converts a string to a non-NULL [pgtype.Text]. *)
Definition NewText (s : gostring) : Text := {| pgtype.String := s; pgtype.Valid := true |}.

(** The zero [pgtype.Text{}], also written [pgtype.Text{String: "", Valid: false}]. *)
Definition nullText : Text := {| pgtype.String := []; pgtype.Valid := false |}.

(** [type Hstore map[string]pgtype.Text]; [None] is the nil map. *)
Abbreviation Hstore := (option (gmap (list ascii) Text)).

(** [type HstoreCompat map[string]*string]; a nil [*string] is [None].  The
    pointers of one decoded value point into one [[]string], at distinct
    indices, and the strings are immutable, so a pointer is modelled by the
    string it points to. *)
Abbreviation HstoreCompat := (option (gmap (list ascii) (option (list ascii)))).

(** [for k, v := range m] visits every entry of [m] once, in an order the
    run time chooses: [order] is such an order. *)
Definition ranges {V} (m : gmap (list ascii) V) (order : list (list ascii * V)) : Prop :=
  order ≡ₚ map_to_list m.

(** [PGXToFasterHstore] copies a [map[string]*string] into an [Hstore]. *)
Definition PGXToFasterHstore (m : gmap (list ascii) (option (list ascii)))
  : gmap (list ascii) Text :=
  (fun v => match v with None => {| pgtype.String := []; pgtype.Valid := false |} | Some s => NewText s end) <$> m.

(** ** The text parser: [hstoreParser] and its methods *)

(** [strings.IndexByte(s, c)]: the index of the first [c] in [s], or -1. *)
Fixpoint IndexByte (s : list ascii) (c : ascii) : Z :=
  match s with
  | [] => -1
  | b :: s' =>
      if Ascii.eqb b c then 0
      else let i := IndexByte s' c in if i =? -1 then -1 else i + 1
  end.

(** [s[i]] *)
Definition index (s : list ascii) (i : Z) : outcome ascii :=
  if (0 <=? i) && (i <? len s)
  then match s !! Z.to_nat i with Some b => Ok b | None => Panic IndexOutOfRange end
  else Panic IndexOutOfRange.

Record hstoreParser : Type := mkHSP {
  str : gostring;
  pos : Z;
  nextBackslash : Z
}.

(** The methods have a pointer receiver: they run in a state monad over the
    parser, on top of [outcome]. *)
Definition parserM (A : Type) : Type := hstoreParser -> outcome A * hstoreParser.

Global Instance parserM_bind : MBind parserM := fun A B k m p =>
  match m p with
  | (Ok a, p') => k a p'
  | (Err e, p') => (Err e, p')
  | (Panic x, p') => (Panic x, p')
  | (OutOfFuel, p') => (OutOfFuel, p')
  end.
Global Instance parserM_ret : MRet parserM := fun A a p => (Ok a, p).

Definition getP : parserM hstoreParser := fun p => (Ok p, p).
Definition setPos (i : Z) : parserM unit := fun p =>
  (Ok tt, {| str := str p; pos := i; nextBackslash := nextBackslash p |}).
Definition setNextBackslash (i : Z) : parserM unit := fun p =>
  (Ok tt, {| str := str p; pos := pos p; nextBackslash := i |}).
Definition liftO {A} (o : outcome A) : parserM A := fun p => (o, p).
Definition failP {A} (e : error) : parserM A := liftO (Err e).

(** [s, err := m()] where [err] is looked at later: the error return becomes
    a value; a panic still propagates. *)
Definition returned {A} (m : parserM A) : parserM (outcome A) := fun p =>
  match m p with
  | (Ok a, p') => (Ok (Ok a), p')
  | (Err e, p') => (Ok (Err e), p')
  | (Panic x, p') => (Panic x, p')
  | (OutOfFuel, p') => (OutOfFuel, p')
  end.

Definition newHSP (in_ : gostring) : hstoreParser :=
  {| pos := 0; str := in_; nextBackslash := IndexByte in_ backslash |}.

(** [p.pos >= len(p.str)] *)
Definition atEnd (p : hstoreParser) : bool := len (str p) <=? pos p.

(** [consume] returns the next byte of the string, or end if the string is done. *)
Definition consume : parserM (ascii * bool) :=
  p ← getP;
  if len (str p) <=? pos p then mret (zero, true)
  else
    b ← liftO (index (str p) (pos p));
    setPos (pos p + 1);;
    mret (b, false).

Definition unexpectedByteErr (actualB expectedB : ascii) : error :=
  ErrUnexpectedByte actualB expectedB.

(** [consumeExpectedByte] consumes [expectedB] from the string, or returns an error. *)
Definition consumeExpectedByte (expectedB : ascii) : parserM unit :=
  '(nextB, end_) ← consume;
  if end_ : bool then failP (ErrExpectedFoundEnd expectedB)
  else if negb (Ascii.eqb nextB expectedB) then failP (unexpectedByteErr nextB expectedB)
  else mret tt.

(** [consumeExpected2] consumes two expected bytes or returns an error. *)
Definition consumeExpected2 (one two : ascii) : parserM unit :=
  p ← getP;
  if len (str p) <? pos p + 2 then failP ErrUnexpectedEndOfString
  else
    b0 ← liftO (index (str p) (pos p));
    if negb (Ascii.eqb b0 one) then failP (unexpectedByteErr b0 one)
    else
      b1 ← liftO (index (str p) (pos p + 1));
      if negb (Ascii.eqb b1 two) then failP (unexpectedByteErr b1 two)
      else setPos (pos p + 2).

Definition errEOSInQuoted : error := ErrEOSInQuoted.

(** The [for] loop of [consumeDoubleQuotedWithEscapes]: copy bytes until the
    closing quote, unescaping backslashes.  Every iteration consumes a byte
    or returns, so [fuel] above the number of bytes left is never used up. *)
Fixpoint escapesLoop (fuel : nat) (builder : list ascii) : parserM gostring :=
  match fuel with
  | O => liftO OutOfFuel
  | S fuel =>
      '(nextB, end_) ← consume;
      if end_ : bool then failP errEOSInQuoted
      else if Ascii.eqb nextB dquote then mret builder
      else if Ascii.eqb nextB backslash then
        '(nextB, end_) ← consume;
        if end_ : bool then failP errEOSInQuoted
        else if negb (Ascii.eqb nextB backslash || Ascii.eqb nextB dquote)
        then failP (ErrUnexpectedEscape nextB)
        else escapesLoop fuel (builder ++ [nextB])
      else escapesLoop fuel (builder ++ [nextB])
  end.

(** [consumeDoubleQuotedWithEscapes] consumes a double-quoted string
    containing escapes, starting at [p.pos], and with the first backslash at
    [firstBackslash]. *)
Definition consumeDoubleQuotedWithEscapes (firstBackslash : Z) : parserM gostring :=
  p ← getP;
  prefix ← liftO (sliceRange (str p) (pos p) firstBackslash);
  setPos firstBackslash;;
  escapesLoop (S (length (str p))) prefix.

(** [consumeDoubleQuoted] consumes a double-quoted string from [p].  The
    double quote must have been parsed already. *)
Definition consumeDoubleQuoted : parserM gostring :=
  p ← getP;
  rest ← liftO (sliceFrom (str p) (pos p));
  let nextDoubleQuote := IndexByte rest dquote in
  if nextDoubleQuote =? -1 then failP errEOSInQuoted
  else
    let nextDoubleQuote := nextDoubleQuote + pos p in
    if (nextBackslash p =? -1) || (nextDoubleQuote <? nextBackslash p) then
      s ← liftO (sliceRange (str p) (pos p) nextDoubleQuote);
      setPos (nextDoubleQuote + 1);;
      mret s
    else
      r ← returned (consumeDoubleQuotedWithEscapes (nextBackslash p));
      p ← getP;
      rest ← liftO (sliceFrom (str p) (pos p));
      let nb := IndexByte rest backslash in
      setNextBackslash (if negb (nb =? -1) then nb + pos p else nb);;
      liftO r.

(** [consumePairSeparator] consumes the Hstore pair separator ", " or returns an error. *)
Definition consumePairSeparator : parserM unit :=
  consumeExpected2 ","%char " "%char.

(** [consumeKVSeparator] consumes the Hstore key/value separator "=>" or returns an error. *)
Definition consumeKVSeparator : parserM unit :=
  consumeExpected2 "="%char ">"%char.

Definition consumeDoubleQuotedOrNull : parserM Text :=
  p ← getP;
  if atEnd p then failP ErrFoundEndInsteadOfValue
  else
    next ← liftO (index (str p) (pos p));
    if Ascii.eqb next "N"%char then
      consumeExpected2 "N"%char "U"%char;;
      consumeExpected2 "L"%char "L"%char;;
      mret {| pgtype.String := []; pgtype.Valid := false |}
    else if negb (Ascii.eqb next dquote) then failP (unexpectedByteErr next dquote)
    else
      setPos (pos p + 1);;
      s ← consumeDoubleQuoted;
      mret (NewText s).

(** The loop of [parseHstore] and [parseHstoreCompat]; [store value] is what
    the body puts in the map for the parsed [value].  ([strings.Count(s, ">")]
    is only a capacity hint.)  Every iteration that does not return consumes
    a byte, so [fuel] above the length of the input is never used up. *)
Section ParseLoop.
Context {V : Type} (store : Text -> V).

Fixpoint parseLoop (fuel : nat) (first : bool) (result : gmap (list ascii) V)
  : parserM (gmap (list ascii) V) :=
  match fuel with
  | O => liftO OutOfFuel
  | S fuel =>
      p ← getP;
      if atEnd p then mret result
      else
        (if negb first then consumePairSeparator else mret tt);;
        consumeExpectedByte dquote;;
        key ← consumeDoubleQuoted;
        consumeKVSeparator;;
        value ← consumeDoubleQuotedOrNull;
        parseLoop fuel false (<[key := store value]> result)
  end.

Definition parseWith (s : gostring) : outcome (option (gmap (list ascii) V)) :=
  match fst (parseLoop (S (length s)) true ∅ (newHSP s)) with
  | Ok result => Ok (Some result)
  | Err e => Err e
  | Panic x => Panic x
  | OutOfFuel => OutOfFuel
  end.
End ParseLoop.

(** [result[key] = value] *)
Definition parseHstore (s : gostring) : outcome Hstore :=
  parseWith (fun value => value) s.

(** [if value.Valid { result[key] = &valueStrings[...] } else { result[key] = nil }] *)
Definition parseHstoreCompat (s : gostring) : outcome HstoreCompat :=
  parseWith (fun value => if pgtype.Valid value then Some (pgtype.String value) else None) s.

(** ** The binary reader *)

Definition uint32Len : Z := 4.

Section BinaryScan.
Context {V : Type} (present : gostring -> V) (absent : V).

(** The body of [for i := 0; i < pairCount; i++], on the read position
    [rp] and the map built so far. *)
Definition scanPair (src keyValueString : list ascii)
    (st : Z * gmap (list ascii) V) : outcome (Z * gmap (list ascii) V) :=
  let '(rp, hstore) := st in
  rest ← sliceFrom src rp;
  if len rest <? uint32Len then Err (ErrHstoreIncomplete src)
  else
    u ← Uint32 rest;
    let keyLen := int32_of_uint32 u in
    let rp := rp + uint32Len in
    rest ← sliceFrom src rp;
    if len rest <? keyLen then Err (ErrHstoreIncomplete src)
    else
      key ← sliceRange keyValueString (rp - uint32Len) (rp - uint32Len + keyLen);
      let rp := rp + keyLen in
      rest ← sliceFrom src rp;
      if len rest <? uint32Len then Err (ErrHstoreIncomplete src)
      else
        u ← Uint32 rest;
        let valueLen := int32_of_uint32 u in
        let rp := rp + 4 in
        if 0 <=? valueLen then
          value ← sliceRange keyValueString (rp - uint32Len) (rp - uint32Len + valueLen);
          let rp := rp + valueLen in
          Ok (rp, <[key := present value]> hstore)
        else
          Ok (rp, <[key := absent]> hstore).

Fixpoint scanPairs (n : nat) (src keyValueString : list ascii)
    (st : Z * gmap (list ascii) V) : outcome (Z * gmap (list ascii) V) :=
  match n with
  | O => Ok st
  | S n => st ← scanPair src keyValueString st; scanPairs n src keyValueString st
  end.

(** [Scan] of a binary scan plan, up to the call of the scanner;
    [makeValueStrings] is set for the plan that runs
    [make([]string, pairCount)], which panics on a negative length
    ([make] of a map does not).  Both plans allocate for [pairCount], the
    count read off the source, before they read a pair; memory has no bound
    here, so that [scanBinary] is the run in which the allocation is
    granted. *)
Definition scanBinary (makeValueStrings : bool) (src : byteslice)
  : outcome (option (gmap (list ascii) V)) :=
  match src with
  | None => Ok None
  | Some src =>
      let rp := 0 in
      rest ← sliceFrom src rp;
      if len rest <? uint32Len then Err (ErrHstoreIncomplete src)
      else
        u ← Uint32 rest;
        let pairCount := int32_of_uint32 u in
        let rp := rp + uint32Len in
        if makeValueStrings && (pairCount <? 0) then Panic MakesliceLenOutOfRange
        else
          keyValueString ← sliceFrom src rp;
          '(_, hstore) ← scanPairs (Z.to_nat pairCount) src keyValueString (rp, ∅);
          Ok (Some hstore)
  end.
End BinaryScan.

(** ** Dynamic values, capabilities and scan plans *)

(** The values that travel as [any]: what [database/sql] hands to [Scan],
    the values given to the encoders and the targets given to the
    scanners.  A pointer is modelled by the value it points to, so that the
    pointers here are not nil.  The nil pointers of type [*Hstore] and
    [*HstoreCompat], and values of types of other packages that have the
    methods of [HstoreValuer], [HstoreScanner] and their [Compat] versions,
    are not among these values. *)
Inductive any : Type :=
  | anyNil
  | anyString (s : gostring)
  | anyBytes (b : byteslice)
  | anyInt64 (n : Z)
  | anyBool (b : bool)
  | anyHstore (h : Hstore)
  | anyHstoreCompat (h : HstoreCompat)
  | anyPtrHstore (h : Hstore)
  | anyPtrHstoreCompat (h : HstoreCompat).

(** [%T] *)
Definition typeName (v : any) : gostring :=
  match v with
  | anyNil => bytes "<nil>"
  | anyString _ => bytes "string"
  | anyBytes _ => bytes "[]uint8"
  | anyInt64 _ => bytes "int64"
  | anyBool _ => bytes "bool"
  | anyHstore _ => bytes "pgxtypefaster.Hstore"
  | anyHstoreCompat _ => bytes "pgxtypefaster.HstoreCompat"
  | anyPtrHstore _ => bytes "*pgxtypefaster.Hstore"
  | anyPtrHstoreCompat _ => bytes "*pgxtypefaster.HstoreCompat"
  end.

(** [dst.(HstoreScanner)]: [ScanHstore] has a pointer receiver. *)
Definition isHstoreScanner (v : any) : bool :=
  match v with anyPtrHstore _ => true | _ => false end.

(** [dst.(HstoreCompatScanner)] *)
Definition isHstoreCompatScanner (v : any) : bool :=
  match v with anyPtrHstoreCompat _ => true | _ => false end.

(** [value.(HstoreValuer).HstoreValue()]: [HstoreValue] has a value receiver,
    so [Hstore] and [*Hstore] both have it; on these values it returns the
    mapping and no error. *)
Definition HstoreValue (v : any) : outcome Hstore :=
  match v with
  | anyHstore h | anyPtrHstore h => Ok h
  | _ => Panic InterfaceConversion
  end.

Definition isHstoreValuer (v : any) : bool :=
  match v with anyHstore _ | anyPtrHstore _ => true | _ => false end.

(** [value.(HstoreCompatValuer).HstoreCompatValue()] *)
Definition HstoreCompatValue (v : any) : outcome HstoreCompat :=
  match v with
  | anyHstoreCompat h | anyPtrHstoreCompat h => Ok h
  | _ => Panic InterfaceConversion
  end.

Definition isHstoreCompatValuer (v : any) : bool :=
  match v with anyHstoreCompat _ | anyPtrHstoreCompat _ => true | _ => false end.

(** [(dst).(HstoreScanner)] followed by [scanner.ScanHstore(v)], which runs
    [*h = v]: the result is the target after the call. *)
Definition ScanHstore (dst : any) (v : Hstore) : outcome any :=
  match dst with
  | anyPtrHstore _ => Ok (anyPtrHstore v)
  | _ => Panic InterfaceConversion
  end.

Definition ScanHstoreCompat (dst : any) (v : HstoreCompat) : outcome any :=
  match dst with
  | anyPtrHstoreCompat _ => Ok (anyPtrHstoreCompat v)
  | _ => Panic InterfaceConversion
  end.

(** [pgtype.TextFormatCode] and [pgtype.BinaryFormatCode], of pgx *)
Definition TextFormatCode : Z := 0.
Definition BinaryFormatCode : Z := 1.

Inductive ScanPlan : Type :=
  | scanPlanBinaryHstoreToHstoreScanner
  | scanPlanTextAnyToHstoreScanner
  | scanPlanBinaryHstoreToHstoreCompatScanner
  | scanPlanTextAnyToHstoreCompatScanner.

(** [scanPlanBinaryHstoreToHstoreScanner.Scan] without the target: the
    value handed to [ScanHstore]. *)
Definition scanBinaryHstore (src : byteslice) : outcome Hstore :=
  scanBinary (fun value => {| pgtype.String := value; pgtype.Valid := true |})
             {| pgtype.String := []; pgtype.Valid := false |} false src.

(** [scanPlanBinaryHstoreToHstoreCompatScanner.Scan] without the target. *)
Definition scanBinaryHstoreCompat (src : byteslice) : outcome HstoreCompat :=
  scanBinary (fun value => Some value) None true src.

(** [scanString] does not return nil hstore values because string cannot be nil. *)
Definition scanStringHstore (src : gostring) (scanner : any) : outcome any :=
  hstore ← parseHstore src; ScanHstore scanner hstore.

Definition scanStringHstoreCompat (src : gostring) (scanner : any) : outcome any :=
  hstore ← parseHstoreCompat src; ScanHstoreCompat scanner hstore.

(** [plan.Scan(src, dst)] *)
Definition ScanPlan_Scan (plan : ScanPlan) (src : byteslice) (dst : any) : outcome any :=
  match plan with
  | scanPlanBinaryHstoreToHstoreScanner =>
      if isHstoreScanner dst then hstore ← scanBinaryHstore src; ScanHstore dst hstore
      else Panic InterfaceConversion
  | scanPlanBinaryHstoreToHstoreCompatScanner =>
      if isHstoreCompatScanner dst
      then hstore ← scanBinaryHstoreCompat src; ScanHstoreCompat dst hstore
      else Panic InterfaceConversion
  | scanPlanTextAnyToHstoreScanner =>
      if isHstoreScanner dst then
        match src with
        | None => ScanHstore dst None
        | Some b => scanStringHstore b dst
        end
      else Panic InterfaceConversion
  | scanPlanTextAnyToHstoreCompatScanner =>
      if isHstoreCompatScanner dst then
        match src with
        | None => ScanHstoreCompat dst None
        | Some b => scanStringHstoreCompat b dst
        end
      else Panic InterfaceConversion
  end.

Inductive Codec : Type := HstoreCodec | HstoreCompatCodec.

(** [PlanScan]; [None] is the nil plan. *)
Definition PlanScan (c : Codec) (format : Z) (target : any) : option ScanPlan :=
  match c with
  | HstoreCodec =>
      if format =? BinaryFormatCode then
        if isHstoreScanner target then Some scanPlanBinaryHstoreToHstoreScanner else None
      else if format =? TextFormatCode then
        if isHstoreScanner target then Some scanPlanTextAnyToHstoreScanner else None
      else None
  | HstoreCompatCodec =>
      if format =? BinaryFormatCode then
        if isHstoreCompatScanner target
        then Some scanPlanBinaryHstoreToHstoreCompatScanner else None
      else if format =? TextFormatCode then
        if isHstoreCompatScanner target
        then Some scanPlanTextAnyToHstoreCompatScanner else None
      else None
  end.

(** [codecScan] of [pgtype.go] *)
Definition codecScan (codec : Codec) (format : Z) (src : byteslice) (dst : any)
  : outcome any :=
  match PlanScan codec format dst with
  | None => Err ErrPlanScanNotFound
  | Some scanPlan => ScanPlan_Scan scanPlan src dst
  end.

(** [DecodeValue], of both codecs: each declares [var hstore Hstore] and
    scans into [&hstore]. *)
Definition DecodeValue (c : Codec) (format : Z) (src : byteslice) : outcome any :=
  match src with
  | None => Ok anyNil
  | Some _ =>
      dst ← codecScan c format src (anyPtrHstore None);
      match dst with
      | anyPtrHstore hstore => Ok (anyHstore hstore)
      | _ => Panic InterfaceConversion
      end
  end.

(** [Hstore.Scan] (pointer receiver), the [database/sql] scanner: the
    receiver after the call. *)
Definition Hstore_Scan (h : Hstore) (src : any) : outcome Hstore :=
  match src with
  | anyNil => Ok None
  | anyString src =>
      dst ← scanStringHstore src (anyPtrHstore h);
      match dst with anyPtrHstore h' => Ok h' | _ => Panic InterfaceConversion end
  | _ => Err (ErrCannotScan (typeName src))
  end.

(** [HstoreCompat.Scan] (pointer receiver) *)
Definition HstoreCompat_Scan (h : HstoreCompat) (src : any) : outcome HstoreCompat :=
  match src with
  | anyNil => Ok None
  | anyString src =>
      dst ← scanStringHstoreCompat src (anyPtrHstoreCompat h);
      match dst with anyPtrHstoreCompat h' => Ok h' | _ => Panic InterfaceConversion end
  | _ => Err (ErrCannotScan (typeName src))
  end.

(** ** The writers *)

(** Modelled from the spec: [quoteArrayReplacer] is declared in a file that
    is not among the sources.  The spec: every literal backslash and
    double quote inside a key or value is doubled/escaped before quoting; no
    other character is escaped.  It is the inverse of the parser's
    unescaping of backslash-backslash and backslash-quote: a backslash is
    put before each of the two bytes. *)
Definition quoteArrayReplacer_Replace (s : gostring) : gostring :=
  flat_map (fun c => if Ascii.eqb c backslash || Ascii.eqb c dquote
                     then [backslash; c] else [c]) s.

Inductive EncodePlan : Type :=
  | encodePlanHstoreCodecBinary
  | encodePlanHstoreCodecText
  | encodePlanHstoreCompatCodecBinary
  | encodePlanHstoreCompatCodecText.

(** [PlanEncode]; [None] is the nil plan. *)
Definition PlanEncode (c : Codec) (format : Z) (value : any) : option EncodePlan :=
  match c with
  | HstoreCodec =>
      if negb (isHstoreValuer value) then None
      else if format =? BinaryFormatCode then Some encodePlanHstoreCodecBinary
      else if format =? TextFormatCode then Some encodePlanHstoreCodecText
      else None
  | HstoreCompatCodec =>
      if negb (isHstoreCompatValuer value) then None
      else if format =? BinaryFormatCode then Some encodePlanHstoreCompatCodecBinary
      else if format =? TextFormatCode then Some encodePlanHstoreCompatCodecText
      else None
  end.

Section Encode.
(** [range V m] is the order in which [for k, v := range m] visits [m]. *)
Variable range : forall V : Type, gmap (list ascii) V -> list (list ascii * V).

(** The loop body of [encodePlanHstoreCodecBinary.Encode] *)
Definition binaryPair (buf : byteslice) (kv : list ascii * Text) : byteslice :=
  let '(k, v) := kv in
  let buf := AppendInt32 buf (int32 (len k)) in
  let buf := append buf k in
  if pgtype.Valid v then
    let buf := AppendInt32 buf (int32 (len (pgtype.String v))) in
    append buf (pgtype.String v)
  else AppendInt32 buf (-1).

Definition encodePlanHstoreCodecBinary_Encode (value : any) (buf : byteslice)
  : outcome byteslice :=
  hstore ← HstoreValue value;
  match hstore with
  | None => Ok None
  | Some m =>
      let buf := AppendInt32 buf (int32 (Z.of_nat (size m))) in
      Ok (fold_left binaryPair (range _ m) buf)
  end.

(** The loop body of [encodePlanHstoreCompatCodecBinary.Encode] *)
Definition binaryPairCompat (buf : byteslice) (kv : list ascii * option (list ascii))
  : byteslice :=
  let '(k, v) := kv in
  let buf := AppendInt32 buf (int32 (len k)) in
  let buf := append buf k in
  match v with
  | None => AppendInt32 buf (-1)
  | Some s =>
      let buf := AppendInt32 buf (int32 (len s)) in
      append buf s
  end.

Definition encodePlanHstoreCompatCodecBinary_Encode (value : any) (buf : byteslice)
  : outcome byteslice :=
  hstore ← HstoreCompatValue value;
  match hstore with
  | None => Ok None
  | Some m =>
      let buf := AppendInt32 buf (int32 (Z.of_nat (size m))) in
      Ok (fold_left binaryPairCompat (range _ m) buf)
  end.

(** The loop body of [encodePlanHstoreCodecText.Encode], on [firstPair]
    and [buf] *)
Definition textPair (st : bool * byteslice) (kv : list ascii * Text) : bool * byteslice :=
  let '(firstPair, buf) := st in
  let '(k, v) := kv in
  let buf := if firstPair then buf else append buf [","%char; " "%char] in
  let buf := append buf [dquote] in
  let buf := append buf (quoteArrayReplacer_Replace k) in
  let buf := append buf [dquote] in
  let buf := append buf (bytes "=>") in
  if pgtype.Valid v then
    let buf := append buf [dquote] in
    let buf := append buf (quoteArrayReplacer_Replace (pgtype.String v)) in
    (false, append buf [dquote])
  else (false, append buf (bytes "NULL")).

Definition encodePlanHstoreCodecText_Encode (value : any) (buf : byteslice)
  : outcome byteslice :=
  hstore ← HstoreValue value;
  match hstore with
  | None => Ok None
  | Some m => Ok (snd (fold_left textPair (range _ m) (true, buf)))
  end.

(** The loop body of [encodePlanHstoreCompatCodecText.Encode] *)
Definition textPairCompat (st : bool * byteslice) (kv : list ascii * option (list ascii))
  : bool * byteslice :=
  let '(firstPair, buf) := st in
  let '(k, v) := kv in
  let buf := if firstPair then buf else append buf [","%char; " "%char] in
  let buf := append buf [dquote] in
  let buf := append buf (quoteArrayReplacer_Replace k) in
  let buf := append buf [dquote] in
  let buf := append buf (bytes "=>") in
  match v with
  | None => (false, append buf (bytes "NULL"))
  | Some s =>
      let buf := append buf [dquote] in
      let buf := append buf (quoteArrayReplacer_Replace s) in
      (false, append buf [dquote])
  end.

Definition encodePlanHstoreCompatCodecText_Encode (value : any) (buf : byteslice)
  : outcome byteslice :=
  hstore ← HstoreCompatValue value;
  match hstore with
  | None => Ok None
  | Some m => Ok (snd (fold_left textPairCompat (range _ m) (true, buf)))
  end.

(** [plan.Encode(value, buf)]; calling a method of the nil plan panics. *)
Definition EncodePlan_Encode (plan : option EncodePlan) (value : any) (buf : byteslice)
  : outcome byteslice :=
  match plan with
  | None => Panic NilPointerDereference
  | Some encodePlanHstoreCodecBinary => encodePlanHstoreCodecBinary_Encode value buf
  | Some encodePlanHstoreCodecText => encodePlanHstoreCodecText_Encode value buf
  | Some encodePlanHstoreCompatCodecBinary =>
      encodePlanHstoreCompatCodecBinary_Encode value buf
  | Some encodePlanHstoreCompatCodecText =>
      encodePlanHstoreCompatCodecText_Encode value buf
  end.

(** [Hstore.Value], the [database/sql/driver] valuer *)
Definition Hstore_Value (h : Hstore) : outcome any :=
  match h with
  | None => Ok anyNil
  | Some _ =>
      buf ← EncodePlan_Encode (PlanEncode HstoreCodec TextFormatCode (anyHstore h))
                              (anyHstore h) None;
      Ok (anyString (stringOfSlice buf))
  end.

(** [HstoreCompat.Value]: the source builds the plan with [HstoreCodec{}]. *)
Definition HstoreCompat_Value (h : HstoreCompat) : outcome any :=
  match h with
  | None => Ok anyNil
  | Some _ =>
      buf ← EncodePlan_Encode (PlanEncode HstoreCodec TextFormatCode (anyHstoreCompat h))
                              (anyHstoreCompat h) None;
      Ok (anyString (stringOfSlice buf))
  end.
End Encode.

(** ** The text and binary forms, as the formats give them *)

(** The bytes one byte is written as inside a quoted string *)
Definition escapeByte (c : ascii) : list ascii :=
  if Ascii.eqb c backslash || Ascii.eqb c dquote then [backslash; c] else [c].

(** The two bytes the writer escapes *)
Definition special (c : ascii) : bool := Ascii.eqb c backslash || Ascii.eqb c dquote.

(** A string with no byte that the writer escapes *)
Definition plain (s : list ascii) : Prop := Forall (fun c => special c = false) s.

(** A quoted string: the escaped bytes between two double quotes *)
Definition quoted (s : gostring) : list ascii :=
  [dquote] ++ quoteArrayReplacer_Replace s ++ [dquote].

(** A value: the quoted string, or [NULL] for the absent value *)
Definition valueText (v : option gostring) : list ascii :=
  match v with None => bytes "NULL" | Some s => quoted s end.

(** A pair: the quoted key, [=>], then the value *)
Definition pairText (kv : gostring * option gostring) : list ascii :=
  quoted (fst kv) ++ bytes "=>" ++ valueText (snd kv).

(** [xs] joined by [sep], no separator after the last one *)
Fixpoint join (sep : list ascii) (xs : list (list ascii)) : list ascii :=
  match xs with
  | [] => []
  | [x] => x
  | x :: xs => x ++ sep ++ join sep xs
  end.

(** The pair separator, comma-space *)
Definition pairSeparator : list ascii := [","%char; " "%char].

(** An hstore is zero or more pairs, joined by comma-space. *)
Definition hstoreText (l : list (gostring * option gostring)) : list ascii :=
  join pairSeparator (map pairText l).

(** The pairs of [l] as they follow in the text: every pair but a first one
    comes after the separator. *)
Fixpoint pairsFrom (first : bool) (l : list (gostring * option gostring)) : list ascii :=
  match l with
  | [] => []
  | kv :: l => (if first then [] else pairSeparator) ++ pairText kv ++ pairsFrom false l
  end.

(** The text [X] where the next pair is expected after the pairs of [l] *)
Definition pairsThen (l : list (gostring * option gostring)) (X : list ascii) : list ascii :=
  match l with [] => X | _ => hstoreText l ++ pairSeparator ++ X end.

(** The binary form of one pair *)
Definition pairBinary (kv : gostring * option gostring) : list ascii :=
  be32 (int32 (len (fst kv))) ++ fst kv ++
  match snd kv with
  | None => be32 (-1)
  | Some s => be32 (int32 (len s)) ++ s
  end.

(** The binary form of a mapping: the pair count, then the pairs *)
Definition hstoreBinary (l : list (gostring * option gostring)) : list ascii :=
  be32 (int32 (len l)) ++ flat_map pairBinary l.

(** The lengths of a pair fit the 32-bit signed length fields. *)
Definition fits32 (kv : gostring * option gostring) : Prop :=
  len (fst kv) < 2 ^ 31 /\ match snd kv with Some s => len s < 2 ^ 31 | None => True end.

(** The binary form of a pair as the format has it: the length of the key,
    the key, then the length of the value and the value, or -1 for the
    absent value; the lengths are the numbers of bytes. *)
Definition pairFields (kv : gostring * option gostring) : list ascii :=
  be32 (len (fst kv)) ++ fst kv ++
  match snd kv with
  | None => be32 (-1)
  | Some s => be32 (len s) ++ s
  end.

(** ** Values, maps and the order of a range *)

(** What a [pgtype.Text] stands for: a present string or an absent value. *)
Definition textValue (v : Text) : option gostring :=
  if pgtype.Valid v then Some (pgtype.String v) else None.

(** The inverse direction, as [PGXToFasterHstore] builds it. *)
Definition ofValue (v : option gostring) : Text :=
  match v with
  | None => {| pgtype.String := []; pgtype.Valid := false |}
  | Some s => NewText s
  end.

(** A pair of an [Hstore], with its value as present or absent *)
Definition logical (kv : gostring * Text) : gostring * option gostring :=
  (fst kv, textValue (snd kv)).

(** What [parseHstoreCompat] stores for a parsed value *)
Definition compatStore (value : Text) : option (list ascii) :=
  if pgtype.Valid value then Some (pgtype.String value) else None.

(** What the binary reader stores for a value *)
Definition conv {V} (present : gostring -> V) (absent : V) (v : option gostring) : V :=
  match v with Some s => present s | None => absent end.

(** The map a sequence of pairs builds when each is stored in turn *)
Definition storeAll {V} (store : Text -> V) (l : list (gostring * option gostring))
    (m : gmap (list ascii) V) : gmap (list ascii) V :=
  fold_left (fun m kv => <[fst kv := store (ofValue (snd kv))]> m) l m.

(** Whatever order [range] picks, it visits every entry once. *)
Definition rangeOK (range : forall V : Type, gmap (list ascii) V -> list (list ascii * V))
  : Prop :=
  forall (V : Type) (m : gmap (list ascii) V), ranges m (range V m).

(** ** Positions of the parser *)

(** A parser standing after [pre], with [rest] to read *)
Definition mk (pre rest : list ascii) (nb : Z) : hstoreParser :=
  {| str := pre ++ rest; pos := len pre; nextBackslash := nb |}.

(** The index of the first backslash of [rest], in [pre ++ rest] *)
Definition nbOf (pre rest : list ascii) : Z :=
  let r := IndexByte rest backslash in if r =? -1 then -1 else r + len pre.

(** The parser after [pre] whose [nextBackslash] is the first backslash ahead *)
Definition mkAt (pre rest : list ascii) : hstoreParser := mk pre rest (nbOf pre rest).

(** The body of the loop of [parseHstore] from the opening quote of the key *)
Definition pairBody {V} (store : Text -> V) (fuel : nat) (acc : gmap (list ascii) V)
  : parserM (gmap (list ascii) V) :=
  consumeExpectedByte dquote;;
  key ← consumeDoubleQuoted;
  consumeKVSeparator;;
  value ← consumeDoubleQuotedOrNull;
  parseLoop store fuel false (<[key := store value]> acc).

(** A run from [mk pre rest nb] that ends at a position of the same string:
    after [pre ++ a], for a split [rest = a ++ r']; a successful run has
    consumed at least one byte when [strict] is set.  No panic, and the fuel
    is not used up. *)
Definition stays {A} (pre rest : list ascii) (nb : Z) (strict : bool)
    (r : outcome A * hstoreParser) : Prop :=
  match r with
  | (Ok _, p') =>
      exists a r', rest = a ++ r' /\ p' = mk (pre ++ a) r' nb /\
                   (strict = true -> a <> [])
  | (Err _, p') => exists a r', rest = a ++ r' /\ p' = mk (pre ++ a) r' nb
  | _ => False
  end.

(** The same for a parser whose [nextBackslash] is the first backslash ahead;
    an error return may leave the parser anywhere. *)
Definition staysAt {A} (pre rest : list ascii) (strict : bool)
    (r : outcome A * hstoreParser) : Prop :=
  match r with
  | (Ok _, p') =>
      exists a r', rest = a ++ r' /\ p' = mkAt (pre ++ a) r' /\
                   (strict = true -> a <> [])
  | (Err _, _) => True
  | _ => False
  end.

(** The call returns: a value or an error *)
Definition returns {A} (o : outcome A) : Prop :=
  match o with Ok _ | Err _ => True | _ => False end.

(** Whether an error says which byte or token was expected *)
Definition namesExpected (e : error) : bool :=
  match e with
  | ErrUnexpectedByte _ _ | ErrExpectedFoundEnd _ | ErrFoundEndInsteadOfValue => true
  | _ => false
  end.

(** Running the parser monad one step *)
Ltac run := unfold mbind, parserM_bind, mret, parserM_ret, getP, setPos, setNextBackslash,
   liftO, failP; simpl.
Ltac step := cbv beta iota delta [mbind parserM_bind mret parserM_ret getP setPos
   setNextBackslash liftO failP returned mk str pos nextBackslash].

(** ** Inputs of the examples *)

(** One pair whose value is cut off; a negative key length; a negative pair
    count *)
Definition truncatedValue : list ascii :=
  be32 1 ++ be32 1 ++ bytes "k" ++ be32 5 ++ bytes "ab".
Definition negativeKeyLen : list ascii :=
  be32 1 ++ be32 (-2) ++ bytes "k".
Definition negativePairCount : list ascii := be32 (-1).

(** The texts of the examples of the NULL literal and of a repeated key *)
Definition text_k_NULL : list ascii := quoted (bytes "k") ++ bytes "=>NULL".
Definition text_k_quoted_NULL : list ascii :=
  quoted (bytes "k") ++ bytes "=>" ++ quoted (bytes "NULL").
Definition text_k_lower_null : list ascii := quoted (bytes "k") ++ bytes "=>null".
Definition text_k1_k2 : list ascii :=
  quoted (bytes "k") ++ bytes "=>" ++ quoted (bytes "1") ++ bytes ", " ++
  quoted (bytes "k") ++ bytes "=>" ++ quoted (bytes "2").

(** A key with nothing, one byte and two bytes after it *)
Definition text_k_only : list ascii := quoted (bytes "k").
Definition text_k_x : list ascii := quoted (bytes "k") ++ bytes "x".
Definition text_k_xy : list ascii := quoted (bytes "k") ++ bytes "xy".

(** Mappings of the examples *)
Definition map_k_v : gmap (list ascii) Text := {[ bytes "k" := NewText (bytes "v") ]}.

Definition map_a_b : gmap (list ascii) (option (list ascii)) :=
  {[ bytes "a" := Some (bytes "100"); bytes "b" := None ]}.

(** A key of 2^31 bytes, and the mapping holding it *)
Definition bigKey : list ascii := repeat "a"%char (Z.to_nat (2 ^ 31)).
Definition bigKeyMap : gmap (list ascii) (option (list ascii)) := {[ bigKey := None ]}.

(** A value of 2^32 - 1 bytes, and the mapping of [k] to it *)
Definition bigValue : list ascii := repeat "a"%char (Z.to_nat (2 ^ 32 - 1)).
Definition bigValueMap : gmap (list ascii) (option (list ascii)) :=
  {[ bytes "k" := Some bigValue ]}.

(** A mapping with a double quote in a key, a backslash in a value and an
    absent value *)
Definition map_quote_null : gmap (list ascii) Text :=
  {[ ["a"%char; dquote] := NewText ["b"%char; backslash]; bytes "n" := nullText ]}.

(** ** The rest of the codecs *)

(** [FormatSupported], of both codecs *)
Definition FormatSupported (c : Codec) (format : Z) : bool :=
  (format =? TextFormatCode) || (format =? BinaryFormatCode).

(** [PreferredFormat], of both codecs *)
Definition PreferredFormat (c : Codec) : Z := BinaryFormatCode.

Section CodecDecode.
(** [m.Encode(oid, formatCode, value, buf)] of the [pgtype.Map] the caller
    passes, a method of pgx *)
Variable MapEncode : Z -> Z -> any -> byteslice -> outcome byteslice.

(** [codecDecodeToTextFormat] of [pgtype.go] *)
Definition codecDecodeToTextFormat (codec : Codec) (oid : Z) (format : Z) (src : byteslice)
  : outcome any :=
  match src with
  | None => Ok anyNil
  | Some b =>
      if format =? TextFormatCode then Ok (anyString b)
      else
        value ← DecodeValue codec format src;
        buf ← MapEncode oid TextFormatCode value None;
        Ok (anyString (stringOfSlice buf))
  end.

(** [DecodeDatabaseSQLValue], of both codecs *)
Definition DecodeDatabaseSQLValue (c : Codec) (oid : Z) (format : Z) (src : byteslice)
  : outcome any :=
  codecDecodeToTextFormat c oid format src.
End CodecDecode.

(** ** Conversions between the two representations *)

Section Conversions.
(** [range V m] is the order in which [for k, v := range m] visits [m]. *)
Variable range : forall V : Type, gmap (list ascii) V -> list (list ascii * V).

(** [PGXToFasterHstore], as the loop of the source: a nil map has no entry
    to visit, and the result of [make] is not nil. *)
Definition PGXToFasterHstoreLoop (m : HstoreCompat) : Hstore :=
  let h := ∅ in
  Some (fold_left
          (fun h kv =>
             match snd kv with
             | None => <[fst kv := {| pgtype.String := []; pgtype.Valid := false |}]> h
             | Some v => <[fst kv := NewText v]> h
             end)
          (match m with None => [] | Some m => range _ m end) h).

(** [fasterToOrig] of [hstore_test.go]: the [pgtype.Hstore] it returns has
    the type of an [HstoreCompat]. *)
Definition fasterToOrig (h : Hstore) : HstoreCompat :=
  let out := ∅ in
  Some (fold_left
          (fun out kv =>
             if pgtype.Valid (snd kv) then <[fst kv := Some (pgtype.String (snd kv))]> out
             else <[fst kv := None]> out)
          (match h with None => [] | Some h => range _ h end) out).

(** [fasterToCompat] of [hstore_test.go] *)
Definition fasterToCompat (h : Hstore) : HstoreCompat := fasterToOrig h.
End Conversions.

(** The [pgtype.Text] the scanners build for what [v] stands for: [v] with
    the [String] of an invalid value dropped. *)
Definition normalText (v : Text) : Text := ofValue (textValue v).

(** The entries the pairs of [l] store, in the order of [l] *)
Definition entries {V} (store : Text -> V) (l : list (gostring * option gostring))
  : list (gostring * V) :=
  (fun kv => (fst kv, store (ofValue (snd kv)))) <$> l.

(** ** Outcomes of calls *)

(** The outcome of a call, with [f] applied to the value it returns *)
Definition outcome_map {A B} (f : A -> B) (o : outcome A) : outcome B :=
  match o with
  | Ok a => Ok (f a)
  | Err e => Err e
  | Panic p => Panic p
  | OutOfFuel => OutOfFuel
  end.

(** The call returns a value. *)
Definition succeeds {A} (o : outcome A) : Prop :=
  match o with Ok _ => True | _ => False end.

(** The call panics in a type assertion. *)
Definition assertionFails {A} (o : outcome A) : Prop := o = Panic InterfaceConversion.

(** ** The cache of the parser, and what a quoted string may end in *)

(** [nextBackslash] is what [consumeDoubleQuoted] relies on: the index of the
    first backslash at or after [pos], or -1 when there is none. *)
Definition cacheOK (p : hstoreParser) : Prop :=
  0 <= pos p <= len (str p) /\
  nextBackslash p
  = (let i := IndexByte (drop (Z.to_nat (pos p)) (str p)) backslash in
     if i =? -1 then -1 else i + pos p).

(** The parser has moved forward in the same string, and [nextBackslash] is
    right again. *)
Definition advances (p p' : hstoreParser) : Prop :=
  str p' = str p /\ pos p < pos p' /\ cacheOK p'.

(** What follows the escaped bytes of a quoted string that is not closed,
    with the error the loop of [consumeDoubleQuotedWithEscapes] ends in: the
    end of the input, a backslash before the end, or a backslash before a
    byte that is neither a backslash nor a double quote. *)
Definition badTail (X : list ascii) (e : error) : Prop :=
  (X = [] /\ e = ErrEOSInQuoted) \/
  (X = [backslash] /\ e = ErrEOSInQuoted) \/
  (exists c rest, X = backslash :: c :: rest /\ special c = false /\ e = ErrUnexpectedEscape c).

(** ** Binary sources *)

(** A binary source that declares [n] pairs and holds the pairs of [l],
    then the bytes [t] *)
Definition binarySource (n : Z) (l : list (gostring * option gostring)) (t : list ascii)
  : list ascii :=
  be32 n ++ flat_map pairBinary l ++ t.

(** The binary form of a pair whose value is absent, with [vlen] written as
    the length of the value *)
Definition pairBinaryAbsent (k : gostring) (vlen : Z) : list ascii :=
  be32 (int32 (len k)) ++ k ++ be32 vlen.

(** A binary source of the pairs of [l1], the key [k] with an absent value
    written with the length [vlen], and the pairs of [l2], then the bytes
    [junk] *)
Definition sourceWithAbsent (l1 : list (gostring * option gostring)) (k : gostring) (vlen : Z)
    (l2 : list (gostring * option gostring)) (junk : list ascii) : list ascii :=
  be32 (len (l1 ++ (k, None) :: l2)) ++ flat_map pairBinary l1 ++
  pairBinaryAbsent k vlen ++ flat_map pairBinary l2 ++ junk.

(** The count the source declares is at most one more than the number of
    pairs its bytes can hold; a pair takes eight bytes at least, for its two
    lengths.  The scans allocate for the declared count before they read a
    pair: for such a source that is what they allocate for a complete source
    of its size, and for one pair more. *)
Definition countWithin (src : list ascii) : Prop :=
  match Uint32 src with
  | Ok u => 8 * (int32_of_uint32 u - 1) <= len src - 4
  | _ => True
  end.

(** Both binary scans return the error [e] on [src]. *)
Definition scansFail (src : list ascii) (e : error) : Prop :=
  scanBinaryHstore (Some src) = Err e /\ scanBinaryHstoreCompat (Some src) = Err e.

(** Both binary scans panic with [x] on [src]. *)
Definition scansPanic (src : list ascii) (x : panic) : Prop :=
  scanBinaryHstore (Some src) = Panic x /\ scanBinaryHstoreCompat (Some src) = Panic x.

(** ** Further inputs of the examples *)

(** One pair, and a key given twice *)
Definition pairs_k_v : list (gostring * option gostring) := [(bytes "k", Some (bytes "v"))].
Definition pairs_k1_k2 : list (gostring * option gostring) :=
  [(bytes "k", Some (bytes "1")); (bytes "k", Some (bytes "2"))].

(** The pairs of [map_a_b], with [a] first: not the order of [map_to_list] *)
Definition pairs_a_b : list (gostring * option gostring) :=
  [(bytes "a", Some (bytes "100")); (bytes "b", None)].

(** A range that visits a map in the reverse of the order of [map_to_list] *)
Definition rangeReverse (V : Type) (m : gmap (list ascii) V) : list (list ascii * V) :=
  reverse (map_to_list m).

(** A mapping whose one value is not valid but has bytes in [String] *)
Definition map_k_stale : gmap (list ascii) Text :=
  {[ bytes "k" := {| pgtype.String := bytes "x"; pgtype.Valid := false |} ]}.

(** ** Lists, lengths and slices *)

Lemma len_app {A} (a b : list A) : len (a ++ b) = len a + len b.
Proof. unfold len. rewrite length_app. lia. Qed.

Lemma len_cons {A} (x : A) (a : list A) : len (x :: a) = 1 + len a.
Proof. unfold len. simpl. lia. Qed.

Lemma len_nil {A} : len (@nil A) = 0.
Proof. reflexivity. Qed.

Lemma len_nonneg {A} (a : list A) : 0 <= len a.
Proof. unfold len. lia. Qed.

Lemma sliceFrom_app {A} (pre r : list A) : sliceFrom (pre ++ r) (len pre) = Ok r.
Proof.
  unfold sliceFrom. rewrite len_app.
  pose proof (len_nonneg pre). pose proof (len_nonneg r).
  replace (0 <=? len pre) with true by (symmetry; apply Z.leb_le; lia).
  replace (len pre <=? len pre + len r) with true by (symmetry; apply Z.leb_le; lia).
  simpl. unfold len. rewrite Nat2Z.id. by rewrite drop_app_length.
Qed.

Lemma sliceRange_app {A} (pre a r : list A) :
  sliceRange (pre ++ a ++ r) (len pre) (len pre + len a) = Ok a.
Proof.
  unfold sliceRange. rewrite !len_app.
  pose proof (len_nonneg pre). pose proof (len_nonneg a). pose proof (len_nonneg r).
  replace (0 <=? len pre) with true by (symmetry; apply Z.leb_le; lia).
  replace (len pre <=? len pre + len a) with true by (symmetry; apply Z.leb_le; lia).
  replace (len pre + len a <=? len pre + (len a + len r)) with true
    by (symmetry; apply Z.leb_le; lia).
  simpl. replace (len pre + len a - len pre) with (len a) by lia.
  unfold len. rewrite !Nat2Z.id, drop_app_length. by rewrite take_app_length.
Qed.

Lemma index_app (pre r : list ascii) (c : ascii) :
  index (pre ++ c :: r) (len pre) = Ok c.
Proof.
  unfold index. rewrite len_app, len_cons.
  pose proof (len_nonneg pre). pose proof (len_nonneg r).
  replace (0 <=? len pre) with true by (symmetry; apply Z.leb_le; lia).
  replace (len pre <? len pre + (1 + len r)) with true by (symmetry; apply Z.ltb_lt; lia).
  simpl. unfold len. rewrite Nat2Z.id.
  by rewrite list_lookup_middle.
Qed.

Lemma index_app1 (pre r : list ascii) (a c : ascii) :
  index (pre ++ a :: c :: r) (len pre + 1) = Ok c.
Proof.
  replace (pre ++ a :: c :: r) with ((pre ++ [a]) ++ c :: r) by (by rewrite <- app_assoc).
  replace (len pre + 1) with (len (pre ++ [a])) by (rewrite len_app, len_cons, len_nil; lia).
  apply index_app.
Qed.

(** ** The parser on well-formed text *)

Lemma mk_step pre a rest nb :
  {| str := pre ++ a ++ rest; pos := len pre + len a; nextBackslash := nb |}
  = mk (pre ++ a) rest nb.
Proof. unfold mk. f_equal; [by rewrite <- app_assoc | by rewrite len_app]. Qed.

Lemma consume_next pre c rest nb :
  consume (mk pre (c :: rest) nb) = (Ok (c, false), mk (pre ++ [c]) rest nb).
Proof.
  unfold consume. run. rewrite len_app, len_cons.
  pose proof (len_nonneg pre). pose proof (len_nonneg rest).
  replace (len pre + (1 + len rest) <=? len pre) with false by (symmetry; apply Z.leb_gt; lia).
  rewrite index_app. rewrite <- mk_step. reflexivity.
Qed.

Lemma consume_end pre nb :
  consume (mk pre [] nb) = (Ok (zero, true), mk pre [] nb).
Proof.
  unfold consume. run. rewrite app_nil_r.
  replace (len pre <=? len pre) with true by (symmetry; apply Z.leb_le; lia).
  reflexivity.
Qed.

Lemma IndexByte_bounds s c : -1 <= IndexByte s c < len s \/ (IndexByte s c = -1 /\ s = []).
Proof.
  induction s as [|b s IH]; simpl; [right; done|left].
  rewrite len_cons. pose proof (len_nonneg s).
  destruct (Ascii.eqb b c); [lia|].
  destruct (Z.eqb_spec (IndexByte s c) (-1)); [lia|].
  destruct IH as [IH|[IH _]]; lia.
Qed.

Lemma IndexByte_ge s c : -1 <= IndexByte s c.
Proof. destruct (IndexByte_bounds s c) as [?|[? _]]; lia. Qed.

Lemma IndexByte_app_notin a b c :
  c ∉ a ->
  IndexByte (a ++ b) c = if IndexByte b c =? -1 then -1 else len a + IndexByte b c.
Proof.
  induction a as [|x a IH]; simpl; intros Hc.
  - rewrite len_nil. destruct (Z.eqb_spec (IndexByte b c) (-1)); lia.
  - apply not_elem_of_cons in Hc as [Hx Ha].
    destruct (Ascii.eqb_spec x c) as [->|_]; [done|].
    rewrite (IH Ha), len_cons. pose proof (IndexByte_ge b c). pose proof (len_nonneg a).
    destruct (Z.eqb_spec (IndexByte b c) (-1)); simpl; [done|].
    destruct (Z.eqb_spec (len a + IndexByte b c) (-1)); lia.
Qed.

Lemma IndexByte_app_hit a b c : c ∉ a -> IndexByte (a ++ c :: b) c = len a.
Proof.
  intros Hc. rewrite (IndexByte_app_notin _ _ _ Hc). simpl. rewrite Ascii.eqb_refl. simpl. lia.
Qed.

Lemma nbOf_step pre a rest : backslash ∉ a -> nbOf pre (a ++ rest) = nbOf (pre ++ a) rest.
Proof.
  intros Ha. unfold nbOf. rewrite (IndexByte_app_notin _ _ _ Ha), len_app.
  pose proof (IndexByte_ge rest backslash). pose proof (len_nonneg a).
  destruct (Z.eqb_spec (IndexByte rest backslash) (-1)); simpl; [done|].
  destruct (Z.eqb_spec (len a + IndexByte rest backslash) (-1)); lia.
Qed.

Lemma mkAt_step pre a rest :
  backslash ∉ a -> mk (pre ++ a) rest (nbOf pre (a ++ rest)) = mkAt (pre ++ a) rest.
Proof. intros Ha. unfold mkAt. by rewrite nbOf_step. Qed.

Lemma consumeExpectedByte_ok pre c rest nb :
  consumeExpectedByte c (mk pre (c :: rest) nb) = (Ok tt, mk (pre ++ [c]) rest nb).
Proof.
  unfold consumeExpectedByte. unfold mbind at 1, parserM_bind at 1.
  rewrite consume_next. simpl. rewrite Ascii.eqb_refl. reflexivity.
Qed.

Lemma consumeExpected2_ok pre a b rest nb :
  consumeExpected2 a b (mk pre (a :: b :: rest) nb) = (Ok tt, mk (pre ++ [a; b]) rest nb).
Proof.
  unfold consumeExpected2. run. rewrite len_app, !len_cons.
  pose proof (len_nonneg pre). pose proof (len_nonneg rest).
  replace (len pre + (1 + (1 + len rest)) <? len pre + 2) with false
    by (symmetry; apply Z.ltb_ge; lia).
  rewrite index_app. simpl. rewrite Ascii.eqb_refl. simpl.
  rewrite index_app1. simpl. rewrite Ascii.eqb_refl. simpl.
  by rewrite <- (mk_step pre [a; b] rest nb).
Qed.

Lemma Replace_cons c t :
  quoteArrayReplacer_Replace (c :: t)
  = (if special c then [backslash; c] else [c]) ++ quoteArrayReplacer_Replace t.
Proof. reflexivity. Qed.

Lemma escapesLoop_ok t : forall fuel pre rest nb acc,
  (length t < fuel)%nat ->
  escapesLoop fuel acc (mk pre (quoteArrayReplacer_Replace t ++ dquote :: rest) nb)
  = (Ok (acc ++ t), mk (pre ++ quoteArrayReplacer_Replace t ++ [dquote]) rest nb).
Proof.
  induction t as [|c t IH]; intros fuel pre rest nb acc Hfuel.
  - destruct fuel as [|fuel]; [simpl in Hfuel; lia|].
    simpl. unfold mbind at 1, parserM_bind at 1. rewrite consume_next. simpl.
    by rewrite app_nil_r.
  - destruct fuel as [|fuel]; [simpl in Hfuel; lia|].
    rewrite Replace_cons. unfold special.
    cbn [escapesLoop]. unfold mbind at 1, parserM_bind at 1.
    destruct (Ascii.eqb c backslash || Ascii.eqb c dquote) eqn:Hsp.
    + rewrite <- !app_assoc. simpl app at 1. 
      rewrite consume_next. cbn beta iota.
      change (Ascii.eqb backslash dquote) with false.
      change (Ascii.eqb backslash backslash) with true. cbn iota.
      unfold mbind at 1, parserM_bind at 1. rewrite consume_next. cbn beta iota.
      rewrite Hsp. cbn [negb].
      rewrite IH by (simpl in Hfuel; lia).
      f_equal; [by rewrite <- app_assoc|].
      f_equal. by rewrite <- !app_assoc.
    + apply orb_false_elim in Hsp as [Hb Hq].
      simpl app at 1. rewrite consume_next. cbn beta iota. rewrite Hq, Hb.
      rewrite IH by (simpl in Hfuel; lia).
      f_equal; [by rewrite <- app_assoc|].
      f_equal. by rewrite <- !app_assoc.
Qed.

Lemma Replace_length t : (length t <= length (quoteArrayReplacer_Replace t))%nat.
Proof.
  induction t as [|c t IH]; [done|]. rewrite Replace_cons, length_app.
  destruct (special c); simpl; lia.
Qed.

Lemma WithEscapes_ok pre s1 t rest nb :
  consumeDoubleQuotedWithEscapes (len pre + len s1)
    (mk pre (s1 ++ quoteArrayReplacer_Replace t ++ dquote :: rest) nb)
  = (Ok (s1 ++ t), mk (pre ++ s1 ++ quoteArrayReplacer_Replace t ++ [dquote]) rest nb).
Proof.
  unfold consumeDoubleQuotedWithEscapes. step.
  rewrite sliceRange_app. step. rewrite mk_step.
  rewrite escapesLoop_ok.
  - unfold mk. by rewrite <- !app_assoc.
  - rewrite !length_app. pose proof (Replace_length t). lia.
Qed.

Lemma plain_notin s : plain s -> (backslash ∉ s) /\ (dquote ∉ s).
Proof.
  intros H. split; intros Hin; eapply Forall_forall in H; eauto; by vm_compute in H.
Qed.

Lemma plain_Replace s : plain s -> quoteArrayReplacer_Replace s = s.
Proof.
  induction 1 as [|c s Hc _ IH]; [done|]. rewrite Replace_cons. unfold special in *.
  rewrite Hc. simpl. by rewrite IH.
Qed.

Lemma split_special s :
  plain s \/ exists s1 c s2, s = s1 ++ c :: s2 /\ plain s1 /\ special c = true.
Proof.
  induction s as [|c s IH]; [left; constructor|].
  destruct (special c) eqn:Hc.
  - right. exists [], c, s. repeat split; [constructor|done].
  - destruct IH as [IH|(s1 & c' & s2 & -> & H1 & H2)].
    + left. by constructor.
    + right. exists (c :: s1), c', s2. repeat split; [by constructor|done].
Qed.

Lemma Replace_app a b :
  quoteArrayReplacer_Replace (a ++ b) = quoteArrayReplacer_Replace a ++ quoteArrayReplacer_Replace b.
Proof. unfold quoteArrayReplacer_Replace. apply flat_map_app. Qed.

Lemma IndexByte_in s c : c ∈ s -> 0 <= IndexByte s c.
Proof.
  induction s as [|b s IH]; [by intros ?%elem_of_nil|].
  intros [->|Hin]%elem_of_cons; simpl.
  - by rewrite Ascii.eqb_refl.
  - destruct (Ascii.eqb b c); [lia|]. specialize (IH Hin).
    destruct (Z.eqb_spec (IndexByte s c) (-1)); lia.
Qed.

Lemma consumeDoubleQuoted_plain pre s rest :
  plain s ->
  consumeDoubleQuoted (mkAt pre (s ++ dquote :: rest))
  = (Ok s, mkAt (pre ++ s ++ [dquote]) rest).
Proof.
  intros Hs. destruct (plain_notin s Hs) as [Hb Hq].
  unfold consumeDoubleQuoted, mkAt. step. rewrite sliceFrom_app. step.
  rewrite (IndexByte_app_hit _ _ _ Hq).
  pose proof (len_nonneg s) as Hls. pose proof (len_nonneg pre) as Hlp.
  replace (len s =? -1) with false by (symmetry; apply Z.eqb_neq; lia).
  assert (Hnb : nbOf pre (s ++ dquote :: rest) = nbOf (pre ++ s ++ [dquote]) rest).
  { replace (s ++ dquote :: rest) with ((s ++ [dquote]) ++ rest) by (by rewrite <- app_assoc).
    rewrite nbOf_step; [done|]. intros [?|?%list_elem_of_singleton]%elem_of_app; [done|].
    discriminate. }
  rewrite Hnb.
  assert (Hc : (nbOf (pre ++ s ++ [dquote]) rest =? -1)
               || (len s + len pre <? nbOf (pre ++ s ++ [dquote]) rest) = true).
  { unfold nbOf. pose proof (IndexByte_ge rest backslash).
    destruct (Z.eqb_spec (IndexByte rest backslash) (-1)); [done|].
    apply orb_true_iff. right. apply Z.ltb_lt.
    rewrite !len_app, len_cons, len_nil. lia. }
  rewrite Hc.
  replace (len s + len pre) with (len pre + len s) by lia.
  replace (pre ++ s ++ dquote :: rest) with (pre ++ s ++ [dquote] ++ rest) by done.
  rewrite sliceRange_app. step.
  f_equal. f_equal; [by rewrite <- !app_assoc|].
  rewrite !len_app, len_cons, len_nil. lia.
Qed.

Lemma IndexByte_cons_ne b s c :
  b <> c -> IndexByte (b :: s) c = if IndexByte s c =? -1 then -1 else IndexByte s c + 1.
Proof. intros Hne. simpl. by destruct (Ascii.eqb_spec b c). Qed.

Lemma consumeDoubleQuoted_escaped pre s1 c s2 rest :
  plain s1 -> special c = true ->
  consumeDoubleQuoted
    (mkAt pre (quoteArrayReplacer_Replace (s1 ++ c :: s2) ++ dquote :: rest))
  = (Ok (s1 ++ c :: s2),
     mkAt (pre ++ quoteArrayReplacer_Replace (s1 ++ c :: s2) ++ [dquote]) rest).
Proof.
  intros Hs Hc. destruct (plain_notin s1 Hs) as [Hb Hq].
  rewrite Replace_app, (plain_Replace _ Hs). rewrite <- !app_assoc.
  set (t := c :: s2).
  assert (Ht : quoteArrayReplacer_Replace t
               = backslash :: c :: quoteArrayReplacer_Replace s2).
  { unfold t. rewrite Replace_cons, Hc. done. }
  set (body := s1 ++ quoteArrayReplacer_Replace t ++ dquote :: rest).
  pose proof (len_nonneg s1) as Hls. pose proof (len_nonneg pre) as Hlp.
  assert (Hnb : nbOf pre body = len pre + len s1).
  { unfold nbOf, body. rewrite Ht. simpl app.
    rewrite (IndexByte_app_hit _ _ _ Hb).
    replace (len s1 =? -1) with false by (symmetry; apply Z.eqb_neq; lia). lia. }
  assert (Hdq : len s1 < IndexByte body dquote).
  { unfold body. rewrite (IndexByte_app_notin _ _ _ Hq). rewrite Ht.
    simpl app. rewrite IndexByte_cons_ne by discriminate.
    assert (HJ : 0 <= IndexByte (c :: quoteArrayReplacer_Replace s2 ++ dquote :: rest) dquote).
    { apply IndexByte_in. apply elem_of_cons. right. apply elem_of_app. right.
      apply elem_of_cons. by left. }
    revert HJ.
    generalize (IndexByte (c :: quoteArrayReplacer_Replace s2 ++ dquote :: rest) dquote).
    intros J HJ.
    destruct (Z.eqb_spec J (-1)); [lia|].
    destruct (Z.eqb_spec (J + 1) (-1)); lia. }
  unfold consumeDoubleQuoted, mkAt. step. rewrite sliceFrom_app. step.
  fold body. rewrite Hnb.
  replace (IndexByte body dquote =? -1) with false by (symmetry; apply Z.eqb_neq; lia).
  replace (len pre + len s1 =? -1) with false by (symmetry; apply Z.eqb_neq; lia).
  replace (IndexByte body dquote + len pre <? len pre + len s1) with false
    by (symmetry; apply Z.ltb_ge; lia).
  cbn [orb].
  change {| str := pre ++ body; pos := len pre; nextBackslash := len pre + len s1 |}
    with (mk pre body (len pre + len s1)).
  unfold body at 1. rewrite WithEscapes_ok. step.
  rewrite sliceFrom_app. step.
  f_equal. unfold nbOf.
  destruct (Z.eqb_spec (IndexByte rest backslash) (-1)) as [e|e]; cbn [negb];
    [by rewrite e|reflexivity].
Qed.

Lemma consumeDoubleQuoted_ok pre s rest :
  consumeDoubleQuoted (mkAt pre (quoteArrayReplacer_Replace s ++ dquote :: rest))
  = (Ok s, mkAt (pre ++ quoteArrayReplacer_Replace s ++ [dquote]) rest).
Proof.
  destruct (split_special s) as [Hs|(s1 & c & s2 & -> & Hs & Hc)].
  - rewrite (plain_Replace _ Hs). by apply consumeDoubleQuoted_plain.
  - by apply consumeDoubleQuoted_escaped.
Qed.

Lemma consumeExpectedByte_at pre c rest :
  c <> backslash ->
  consumeExpectedByte c (mkAt pre (c :: rest)) = (Ok tt, mkAt (pre ++ [c]) rest).
Proof.
  intros Hc. unfold mkAt at 1. rewrite consumeExpectedByte_ok.
  f_equal. apply (mkAt_step pre [c] rest).
  by intros ?%list_elem_of_singleton.
Qed.

Lemma consumeExpected2_at pre a b rest :
  a <> backslash -> b <> backslash ->
  consumeExpected2 a b (mkAt pre (a :: b :: rest)) = (Ok tt, mkAt (pre ++ [a; b]) rest).
Proof.
  intros Ha Hb. unfold mkAt at 1. rewrite consumeExpected2_ok.
  f_equal. apply (mkAt_step pre [a; b] rest).
  intros [?|[?|?%elem_of_nil]%elem_of_cons]%elem_of_cons; congruence.
Qed.

Lemma atEnd_mk pre rest nb : atEnd (mk pre rest nb) = match rest with [] => true | _ => false end.
Proof.
  unfold atEnd, mk. cbn [str pos]. rewrite len_app.
  pose proof (len_nonneg pre). destruct rest as [|c rest].
  - rewrite len_nil. apply Z.leb_le. lia.
  - rewrite len_cons. pose proof (len_nonneg rest). apply Z.leb_gt. lia.
Qed.

Lemma consumeDoubleQuotedOrNull_ok pre v rest :
  consumeDoubleQuotedOrNull (mkAt pre (valueText v ++ rest))
  = (Ok (ofValue v), mkAt (pre ++ valueText v) rest).
Proof.
  unfold consumeDoubleQuotedOrNull.
  unfold mbind at 1, parserM_bind at 1, getP at 1. cbv beta iota.
  destruct v as [s|]; cbn [valueText ofValue].
  - unfold quoted. cbn [app].
    set (R := mkAt (pre ++ dquote :: quoteArrayReplacer_Replace s ++ [dquote]) rest).
    unfold mkAt. rewrite atEnd_mk.
    step. rewrite index_app. step.
    change (Ascii.eqb dquote "N") with false.
    rewrite Ascii.eqb_refl. cbn [negb].
    match goal with |- context [consumeDoubleQuoted ?p] =>
      replace p with (mkAt (pre ++ [dquote]) (quoteArrayReplacer_Replace s ++ dquote :: rest))
    end.
    + rewrite consumeDoubleQuoted_ok. step. unfold R.
      by replace ((pre ++ [dquote]) ++ quoteArrayReplacer_Replace s ++ [dquote])
        with (pre ++ dquote :: quoteArrayReplacer_Replace s ++ [dquote])
        by (by rewrite <- app_assoc).
    + unfold mkAt. rewrite <- (nbOf_step pre [dquote])
        by (by intros ?%list_elem_of_singleton).
      unfold mk. rewrite <- !app_assoc, len_app, len_cons, len_nil. cbn [app].
      f_equal.
  - change (bytes "NULL" ++ rest) with ("N"%char :: "U"%char :: "L"%char :: "L"%char :: rest).
    set (R := mkAt (pre ++ bytes "NULL") rest).
    unfold mkAt. rewrite atEnd_mk. step. rewrite index_app. step.
    change (Ascii.eqb "N" "N") with true. cbv beta iota.
    match goal with |- context [consumeExpected2 _ _ ?p] =>
      change p with (mk pre ("N"%char :: "U"%char :: "L"%char :: "L"%char :: rest)
               (nbOf pre (bytes "NULL" ++ rest)))
    end.
    rewrite consumeExpected2_ok. rewrite consumeExpected2_ok.
    f_equal. rewrite <- app_assoc. apply (mkAt_step pre (bytes "NULL") rest).
    vm_compute. intros H. repeat (apply elem_of_cons in H as [H|H]; [discriminate|]).
    by apply elem_of_nil in H.
Qed.

Lemma join_pairsFrom l : forall kv,
  join pairSeparator (pairText kv :: map pairText l) = pairText kv ++ pairsFrom false l.
Proof.
  induction l as [|kv' l IH]; intros kv.
  - simpl. by rewrite app_nil_r.
  - change (join pairSeparator (pairText kv :: map pairText (kv' :: l)))
      with (pairText kv ++ pairSeparator ++ join pairSeparator (pairText kv' :: map pairText l)).
    by rewrite IH.
Qed.

Lemma hstoreText_pairsFrom l : hstoreText l = pairsFrom true l.
Proof.
  unfold hstoreText. destruct l as [|kv l]; [done|]. apply join_pairsFrom.
Qed.

Section Loop.
Context {V : Type} (store : Text -> V).

(** Parsing the pairs of [l] takes one iteration each and leaves the
    parser before what follows them. *)
Lemma parseLoop_prefix l : forall fuel first pre acc rest,
  parseLoop store (length l + fuel) first acc (mkAt pre (pairsFrom first l ++ rest))
  = parseLoop store fuel (first && bool_decide (l = [])) (storeAll store l acc)
      (mkAt (pre ++ pairsFrom first l) rest).
Proof.
  induction l as [|[k v] l IH]; intros fuel first pre acc rest.
  - cbn [length pairsFrom app storeAll fold_left Nat.add].
    rewrite app_nil_r, andb_true_r. reflexivity.
  - cbn [length Nat.add parseLoop pairsFrom].
    unfold mbind at 1, parserM_bind at 1, getP at 1. cbv beta iota.
    assert (Hne : atEnd (mkAt pre (((if first then [] else pairSeparator)
                   ++ pairText (k, v) ++ pairsFrom false l) ++ rest)) = false).
    { unfold mkAt. rewrite atEnd_mk. by destruct first. }
    rewrite Hne. clear Hne.
    unfold pairText, quoted. cbn [fst snd].
    change (bytes "=>") with ["="%char; ">"%char].
    rewrite <- !app_assoc. cbn [app].
    assert (Hsep : ((if negb first then consumePairSeparator else mret tt)
              (mkAt pre ((if first then [] else pairSeparator) ++
                 dquote :: quoteArrayReplacer_Replace k ++ dquote :: "="%char :: ">"%char
                   :: valueText v ++ pairsFrom false l ++ rest)))
            = (Ok tt, mkAt (pre ++ (if first then [] else pairSeparator))
                 (dquote :: quoteArrayReplacer_Replace k ++ dquote :: "="%char :: ">"%char
                   :: valueText v ++ pairsFrom false l ++ rest))).
    { destruct first; cbn [negb app].
      - by rewrite app_nil_r.
      - unfold consumePairSeparator, pairSeparator. cbn [app].
        by rewrite consumeExpected2_at. }
    unfold mbind at 1, parserM_bind at 1. rewrite Hsep. clear Hsep.
    unfold mbind at 1, parserM_bind at 1.
    rewrite consumeExpectedByte_at by discriminate.
    unfold mbind at 1, parserM_bind at 1.
    rewrite consumeDoubleQuoted_ok.
    unfold mbind at 1, parserM_bind at 1, consumeKVSeparator.
    rewrite consumeExpected2_at by discriminate.
    unfold mbind at 1, parserM_bind at 1.
    rewrite consumeDoubleQuotedOrNull_ok.
    rewrite IH.
    rewrite andb_false_r. cbn [andb].
    cbn [storeAll fold_left fst snd]. f_equal.
    f_equal; rewrite <- !app_assoc; reflexivity.
Qed.

Lemma parseLoop_ok l fuel first pre acc :
  (length l < fuel)%nat ->
  parseLoop store fuel first acc (mkAt pre (pairsFrom first l))
  = (Ok (storeAll store l acc), mkAt (pre ++ pairsFrom first l) []).
Proof.
  intros Hfuel.
  replace fuel with (length l + S (fuel - length l - 1))%nat by lia.
  rewrite <- (app_nil_r (pairsFrom first l)) at 1.
  rewrite parseLoop_prefix. cbn [parseLoop]. step.
  unfold mkAt. by rewrite atEnd_mk.
Qed.
End Loop.

(** ** The writers append the text and binary forms *)

Lemma newHSP_mkAt s : newHSP s = mkAt [] s.
Proof.
  unfold newHSP, mkAt, mk, nbOf. cbn [app]. change (len (@nil ascii)) with 0. f_equal.
  destruct (Z.eqb_spec (IndexByte s backslash) (-1)); lia.
Qed.

Lemma pairsFrom_length first l : (length l <= length (pairsFrom first l))%nat.
Proof.
  revert first. induction l as [|[k v] l IH]; intros first; [done|].
  cbn [pairsFrom]. rewrite !length_app. specialize (IH false).
  unfold pairText, quoted. rewrite !length_app. simpl. lia.
Qed.

Lemma parseWith_text {V} (store : Text -> V) l :
  parseWith store (hstoreText l) = Ok (Some (storeAll store l ∅)).
Proof.
  unfold parseWith. rewrite newHSP_mkAt, hstoreText_pairsFrom.
  rewrite parseLoop_ok; [done|]. pose proof (pairsFrom_length true l). lia.
Qed.

Lemma append_append buf a b : append (append buf a) b = append buf (a ++ b).
Proof.
  destruct buf as [l|]; simpl.
  - by rewrite <- app_assoc.
  - destruct a; simpl; [by destruct b|done].
Qed.

Lemma append_nil buf : append buf [] = buf.
Proof. destruct buf; simpl; [by rewrite app_nil_r|done]. Qed.

Lemma textPair_step first buf kv :
  textPair (first, buf) kv
  = (false, append buf ((if first then [] else pairSeparator) ++ pairText (logical kv))).
Proof.
  destruct kv as [k v]. unfold textPair, logical, pairText, valueText, textValue, quoted.
  cbn [fst snd]. destruct (pgtype.Valid v), first;
    rewrite !append_append, <- ?app_assoc; reflexivity.
Qed.

Lemma textPair_fold order : forall first buf,
  snd (fold_left textPair order (first, buf))
  = append buf (pairsFrom first (logical <$> order)).
Proof.
  induction order as [|kv order IH]; intros first buf.
  - simpl. by rewrite append_nil.
  - cbn [fold_left]. rewrite textPair_step, IH, append_append.
    cbn [fmap list_fmap pairsFrom]. by rewrite <- app_assoc.
Qed.

Lemma textPairCompat_step first buf kv :
  textPairCompat (first, buf) kv
  = (false, append buf ((if first then [] else pairSeparator) ++ pairText kv)).
Proof.
  destruct kv as [k v]. unfold textPairCompat, pairText, valueText, quoted.
  cbn [fst snd]. destruct v, first;
    rewrite !append_append, <- ?app_assoc; reflexivity.
Qed.

Lemma textPairCompat_fold order : forall first buf,
  snd (fold_left textPairCompat order (first, buf))
  = append buf (pairsFrom first order).
Proof.
  induction order as [|kv order IH]; intros first buf.
  - simpl. by rewrite append_nil.
  - cbn [fold_left]. rewrite textPairCompat_step, IH, append_append.
    cbn [pairsFrom]. by rewrite <- app_assoc.
Qed.

Lemma binaryPair_step buf kv :
  binaryPair buf kv = append buf (pairBinary (logical kv)).
Proof.
  destruct kv as [k v]. unfold binaryPair, AppendInt32, pairBinary, logical, textValue.
  cbn [fst snd]. destruct (pgtype.Valid v); rewrite !append_append, <- ?app_assoc; reflexivity.
Qed.

Lemma binaryPair_fold order : forall buf,
  fold_left binaryPair order buf = append buf (flat_map pairBinary (logical <$> order)).
Proof.
  induction order as [|kv order IH]; intros buf.
  - simpl. by rewrite append_nil.
  - cbn [fold_left]. rewrite binaryPair_step, IH, append_append. reflexivity.
Qed.

Lemma binaryPairCompat_step buf kv :
  binaryPairCompat buf kv = append buf (pairBinary kv).
Proof.
  destruct kv as [k v]. unfold binaryPairCompat, AppendInt32, pairBinary.
  cbn [fst snd]. destruct v; rewrite !append_append, <- ?app_assoc; reflexivity.
Qed.

Lemma binaryPairCompat_fold order : forall buf,
  fold_left binaryPairCompat order buf = append buf (flat_map pairBinary order).
Proof.
  induction order as [|kv order IH]; intros buf.
  - simpl. by rewrite append_nil.
  - cbn [fold_left]. rewrite binaryPairCompat_step, IH, append_append. reflexivity.
Qed.

Section StoreAll.
Context {V : Type} (store : Text -> V).

Lemma storeAll_app l1 l2 acc :
  storeAll store (l1 ++ l2) acc = storeAll store l2 (storeAll store l1 acc).
Proof. unfold storeAll. apply fold_left_app. Qed.

Lemma storeAll_notin l : forall acc k,
  k ∉ l.*1 -> storeAll store l acc !! k = acc !! k.
Proof.
  induction l as [|[k' v'] l IH]; intros acc k Hk; [done|].
  cbn [fmap list_fmap fst] in Hk. apply not_elem_of_cons in Hk as [Hne Hk].
  change (storeAll store ((k', v') :: l) acc)
    with (storeAll store l (<[k' := store (ofValue v')]> acc)).
  rewrite (IH _ _ Hk). by rewrite lookup_insert_ne.
Qed.

(** The pair stored last for a key is the one the map holds. *)
Lemma storeAll_last l1 k v l2 acc :
  k ∉ l2.*1 ->
  storeAll store (l1 ++ (k, v) :: l2) acc !! k = Some (store (ofValue v)).
Proof.
  intros Hk. rewrite storeAll_app.
  change (storeAll store ((k, v) :: l2) (storeAll store l1 acc))
    with (storeAll store l2 (<[k := store (ofValue v)]> (storeAll store l1 acc))).
  rewrite (storeAll_notin _ _ _ Hk). apply lookup_insert_eq.
Qed.

Lemma storeAll_map (m : gmap (list ascii) (option (list ascii))) l :
  l ≡ₚ map_to_list m ->
  storeAll store l ∅ = (fun v => store (ofValue v)) <$> m.
Proof.
  intros Hl. apply map_eq. intros k. rewrite lookup_fmap.
  assert (Hnd : NoDup l.*1).
  { rewrite Hl. apply NoDup_fst_map_to_list. }
  destruct (m !! k) as [v|] eqn:Hm; cbn [fmap option_fmap option_map].
  - assert (Hin : (k, v) ∈ l) by (rewrite Hl; by apply elem_of_map_to_list).
    apply list_elem_of_split in Hin as (l1 & l2 & ->).
    apply storeAll_last.
    rewrite fmap_app in Hnd. apply NoDup_app in Hnd as (_ & _ & Hnd).
    cbn [fmap list_fmap fst] in Hnd. by apply NoDup_cons in Hnd as [? _].
  - rewrite storeAll_notin; [done|].
    intros ([k' v'] & Heq & Hin)%list_elem_of_fmap. cbn [fst] in Heq. subst k'.
    rewrite Hl in Hin. apply elem_of_map_to_list in Hin. congruence.
Qed.
End StoreAll.

(** ** The binary reader on the binary form *)

Lemma byteVal_byteOf z : byteVal (byteOf z) = z mod 256.
Proof.
  unfold byteVal, byteOf. pose proof (Z.mod_pos_bound z 256 ltac:(lia)).
  rewrite N_ascii_embedding by lia. lia.
Qed.

Lemma piece_bits n k i :
  0 <= k -> 0 <= i ->
  Z.testbit (Z.shiftl ((Z.shiftr n k) mod 256) k) i
  = (k <=? i) && (i <? k + 8) && Z.testbit n i.
Proof.
  intros Hk Hi. rewrite Z.shiftl_spec by lia.
  destruct (Z.leb_spec k i); cbn [andb].
  - change 256 with (2 ^ 8). rewrite Z.testbit_mod_pow2 by lia.
    rewrite Z.shiftr_spec by lia. replace (i - k + k) with i by lia.
    f_equal. destruct (Z.ltb_spec (i - k) 8), (Z.ltb_spec i (k + 8)); lia.
  - apply Z.testbit_neg_r. lia.
Qed.

Lemma Uint32_be32 n rest : Uint32 (be32 n ++ rest) = Ok (n mod 2 ^ 32).
Proof.
  unfold be32. cbn [app Uint32]. rewrite !byteVal_byteOf. f_equal.
  apply Z.bits_inj'. intros i Hi.
  rewrite !Z.lor_spec, !piece_bits by lia.
  rewrite Z.testbit_mod_pow2 by lia.
  change 256 with (2 ^ 8). rewrite Z.testbit_mod_pow2 by lia.
  destruct (Z.testbit n i); rewrite ?andb_false_r, ?andb_true_r; [|done].
  destruct (Z.leb_spec 24 i), (Z.leb_spec 16 i), (Z.leb_spec 8 i),
    (Z.ltb_spec i (24 + 8)), (Z.ltb_spec i (16 + 8)), (Z.ltb_spec i (8 + 8)),
    (Z.ltb_spec i 8), (Z.ltb_spec i 32); cbn; try reflexivity; lia.
Qed.

Lemma int32_of_uint32_int32 n :
  - 2 ^ 31 <= n < 2 ^ 31 -> int32_of_uint32 (n mod 2 ^ 32) = n.
Proof.
  intros Hn. unfold int32_of_uint32.
  destruct (Z.ltb_spec (n mod 2 ^ 32) (2 ^ 31)) as [H|H].
  - destruct (Z.le_gt_cases 0 n) as [Hp|Hp].
    + rewrite Z.mod_small by lia. done.
    + rewrite <- (Z.mod_add n 1) in H by lia. rewrite Z.mod_small in H by lia. lia.
  - destruct (Z.le_gt_cases 0 n) as [Hp|Hp].
    + rewrite Z.mod_small in H by lia. lia.
    + rewrite <- (Z.mod_add n 1) by lia. rewrite Z.mod_small by lia. lia.
Qed.

Lemma int32_small n : - 2 ^ 31 <= n < 2 ^ 31 -> int32 n = n.
Proof. apply int32_of_uint32_int32. Qed.

Lemma int32_range n : - 2 ^ 31 <= int32 n < 2 ^ 31.
Proof.
  unfold int32, int32_of_uint32. pose proof (Z.mod_pos_bound n (2 ^ 32) ltac:(lia)).
  destruct (Z.ltb_spec (n mod 2 ^ 32) (2 ^ 31)); lia.
Qed.

Lemma len_be32 n : len (be32 n) = 4.
Proof. reflexivity. Qed.

Lemma sliceFrom_at {A} (s pre X : list A) rp :
  s = pre ++ X -> rp = len pre -> sliceFrom s rp = Ok X.
Proof. intros -> ->. apply sliceFrom_app. Qed.

Lemma sliceRange_at {A} (s pre a r : list A) lo hi :
  s = pre ++ a ++ r -> lo = len pre -> hi = len pre + len a -> sliceRange s lo hi = Ok a.
Proof. intros -> -> ->. apply sliceRange_app. Qed.

Section ScanPairs.
Context {V : Type} (present : gostring -> V) (absent : V).

Lemma scanPair_ok hdr done kv rest acc :
  len hdr = 4 -> fits32 kv ->
  scanPair present absent (hdr ++ done ++ pairBinary kv ++ rest)
           (done ++ pairBinary kv ++ rest) (len hdr + len done, acc)
  = Ok (len hdr + len (done ++ pairBinary kv), <[fst kv := conv present absent (snd kv)]> acc).
Proof.
  destruct kv as [k v]. intros Hh [Hk Hv]. cbn [fst snd] in *.
  pose proof (len_nonneg k) as Hk0. pose proof (len_nonneg done) as Hd0.
  pose proof (len_nonneg rest) as Hr0.
  unfold scanPair, pairBinary. cbn [fst snd].
  set (VB := match v with Some s => be32 (int32 (len s)) ++ s | None => be32 (-1) end).
  assert (HVB : 4 <= len VB).
  { unfold VB. destruct v as [s|]; [|done]. rewrite len_app, len_be32.
    pose proof (len_nonneg s). lia. }
  rewrite <- !app_assoc.
  set (KB := be32 (int32 (len k))).
  assert (HKB : len KB = 4) by apply len_be32.
  set (src := hdr ++ done ++ KB ++ k ++ VB ++ rest).
  set (kvs := done ++ KB ++ k ++ VB ++ rest).
  rewrite (sliceFrom_at src (hdr ++ done) (KB ++ k ++ VB ++ rest) (len hdr + len done));
    [| by unfold src; rewrite <- !app_assoc | by rewrite len_app].
  cbn [mbind outcome_bind obind]. rewrite !len_app, HKB.
  replace (4 + (len k + (len VB + len rest)) <? uint32Len) with false
    by (symmetry; apply Z.ltb_ge; unfold uint32Len; lia).
  unfold KB at 1. rewrite Uint32_be32. cbn [mbind outcome_bind obind].
  rewrite int32_of_uint32_int32 by apply int32_range. rewrite int32_small by lia.
  rewrite (sliceFrom_at src (hdr ++ done ++ KB) (k ++ VB ++ rest)
             (len hdr + len done + uint32Len));
    [| by unfold src; rewrite <- !app_assoc
     | rewrite !len_app, HKB; unfold uint32Len; lia].
  cbn [mbind outcome_bind obind]. rewrite !len_app.
  replace (len k + (len VB + len rest) <? len k) with false
    by (symmetry; apply Z.ltb_ge; lia).
  rewrite (sliceRange_at kvs (done ++ KB) k (VB ++ rest)
             (len hdr + len done + uint32Len - uint32Len)
             (len hdr + len done + uint32Len - uint32Len + len k));
    [| by unfold kvs; rewrite <- !app_assoc
     | rewrite !len_app, HKB; unfold uint32Len; lia
     | rewrite !len_app, HKB; unfold uint32Len; lia].
  cbn [mbind outcome_bind obind].
  rewrite (sliceFrom_at src (hdr ++ done ++ KB ++ k) (VB ++ rest)
             (len hdr + len done + uint32Len + len k));
    [| by unfold src; rewrite <- !app_assoc
     | rewrite !len_app, HKB; unfold uint32Len; lia].
  cbn [mbind outcome_bind obind]. rewrite len_app.
  replace (len VB + len rest <? uint32Len) with false
    by (symmetry; apply Z.ltb_ge; unfold uint32Len; lia).
  unfold kvs, src. clear src kvs. unfold VB in *. clear VB HKB. subst KB.
  destruct v as [s|]; cbn [conv].
  - pose proof (len_nonneg s) as Hs0. rewrite <- !app_assoc.
    rewrite Uint32_be32. cbn [mbind outcome_bind obind].
    rewrite int32_of_uint32_int32 by apply int32_range. rewrite int32_small by lia.
    replace (0 <=? len s) with true by (symmetry; apply Z.leb_le; lia).
    rewrite (sliceRange_at _ (done ++ be32 (int32 (len k)) ++ k ++ be32 (len s)) s rest);
      [| by rewrite <- !app_assoc
       | rewrite ?len_app, ?len_be32; unfold uint32Len; lia
       | rewrite ?len_app, ?len_be32; unfold uint32Len; lia].
    cbn [mbind outcome_bind obind]. f_equal. f_equal.
    rewrite ?len_app, ?len_be32. unfold uint32Len. lia.
  - rewrite Uint32_be32. cbn [mbind outcome_bind obind].
    change (int32_of_uint32 (-1 mod 2 ^ 32)) with (-1). cbn [Z.leb Z.compare].
    f_equal. f_equal. rewrite ?len_app, ?len_be32. unfold uint32Len. lia.
Qed.

Lemma scanPairs_ok l : forall hdr done rest acc,
  len hdr = 4 -> Forall fits32 l ->
  scanPairs present absent (length l) (hdr ++ done ++ flat_map pairBinary l ++ rest)
            (done ++ flat_map pairBinary l ++ rest) (len hdr + len done, acc)
  = Ok (len hdr + len (done ++ flat_map pairBinary l),
        fold_left (fun m kv => <[fst kv := conv present absent (snd kv)]> m) l acc).
Proof.
  induction l as [|kv l IH]; intros hdr done rest acc Hh Hl.
  - cbn [length scanPairs flat_map fold_left app]. by rewrite app_nil_r.
  - apply Forall_cons in Hl as [Hkv Hl].
    cbn [length scanPairs flat_map fold_left]. rewrite <- ?app_assoc.
    rewrite (scanPair_ok hdr done kv (flat_map pairBinary l ++ rest) acc Hh Hkv).
    cbn [mbind outcome_bind obind].
    specialize (IH hdr (done ++ pairBinary kv) rest
                   (<[fst kv := conv present absent (snd kv)]> acc) Hh Hl).
    rewrite <- ?app_assoc in IH. rewrite IH. by rewrite <- ?app_assoc.
Qed.

Lemma scanBinary_ok mkStrings l :
  len l < 2 ^ 31 -> Forall fits32 l ->
  scanBinary present absent mkStrings (Some (hstoreBinary l))
  = Ok (Some (fold_left (fun m kv => <[fst kv := conv present absent (snd kv)]> m) l ∅)).
Proof.
  intros Hn Hl. pose proof (len_nonneg l) as Hn0.
  unfold scanBinary, hstoreBinary.
  rewrite (sliceFrom_at (be32 (int32 (len l)) ++ flat_map pairBinary l) []
             (be32 (int32 (len l)) ++ flat_map pairBinary l) 0) by done.
  cbn [mbind outcome_bind obind]. rewrite len_app, len_be32.
  pose proof (len_nonneg (flat_map pairBinary l)).
  replace (4 + len (flat_map pairBinary l) <? uint32Len) with false
    by (symmetry; apply Z.ltb_ge; unfold uint32Len; lia).
  rewrite Uint32_be32. cbn [mbind outcome_bind obind].
  rewrite int32_of_uint32_int32 by apply int32_range. rewrite int32_small by lia.
  replace (len l <? 0) with false by (symmetry; apply Z.ltb_ge; lia).
  rewrite andb_false_r.
  rewrite (sliceFrom_at (be32 (len l) ++ flat_map pairBinary l) (be32 (len l))
             (flat_map pairBinary l) (0 + uint32Len)) by done.
  cbn [mbind outcome_bind obind].
  replace (Z.to_nat (len l)) with (length l) by (unfold len; by rewrite Nat2Z.id).
  pose proof (scanPairs_ok l (be32 (len l)) [] [] ∅ (len_be32 _) Hl) as Hs.
  cbn [app] in Hs. rewrite app_nil_r in Hs.
  change (len (be32 (len l)) + len (@nil ascii)) with (0 + uint32Len) in Hs.
  rewrite Hs. reflexivity.
Qed.
End ScanPairs.

Lemma index_inv s i c : index s i = Ok c -> 0 <= i /\ s !! Z.to_nat i = Some c.
Proof.
  unfold index. destruct (Z.leb_spec 0 i); cbn [andb]; [|discriminate].
  destruct (i <? len s); [|discriminate].
  destruct (s !! Z.to_nat i) eqn:E; [|discriminate]. intros [= ->]. split; [lia|reflexivity].
Qed.

Lemma consumeExpected2_inv a b p u p' :
  consumeExpected2 a b p = (Ok u, p') ->
  index (str p) (pos p) = Ok a /\ index (str p) (pos p + 1) = Ok b /\
  p' = {| str := str p; pos := pos p + 2; nextBackslash := nextBackslash p |}.
Proof.
  destruct p as [s i nb]. cbn [str pos nextBackslash].
  unfold consumeExpected2. step.
  destruct (len s <? i + 2); [done|].
  destruct (index s i) as [b0| | |]; try done.
  destruct (Ascii.eqb_spec b0 a) as [->|]; cbn [negb]; [|done].
  destruct (index s (i + 1)) as [b1| | |]; try done.
  destruct (Ascii.eqb_spec b1 b) as [->|]; cbn [negb]; [|done].
  by intros [= <- <-].
Qed.

Lemma consumeDoubleQuotedOrNull_null_inv p t p' :
  consumeDoubleQuotedOrNull p = (Ok t, p') -> pgtype.Valid t = false ->
  0 <= pos p /\ take 4 (drop (Z.to_nat (pos p)) (str p)) = bytes "NULL".
Proof.
  destruct p as [s0 i nb]. cbn [str pos nextBackslash].
  unfold consumeDoubleQuotedOrNull. step.
  destruct (atEnd _); [done|].
  destruct (index s0 i) as [next| | |] eqn:Hnext; try done.
  destruct (Ascii.eqb_spec next "N"%char) as [->|_].
  - destruct (consumeExpected2 "N" "U" _) as [[[]| | |] p1] eqn:E1; try done.
    destruct (consumeExpected2 "L" "L" p1) as [[[]| | |] p2] eqn:E2; try done.
    intros _ _.
    apply consumeExpected2_inv in E1 as (H0 & H1 & ->).
    apply consumeExpected2_inv in E2 as (H2 & H3 & _).
    cbn [str pos nextBackslash] in H0, H1, H2, H3.
    apply index_inv in H0 as [Hpos H0]. apply index_inv in H1 as [_ H1].
    apply index_inv in H2 as [_ H2]. apply index_inv in H3 as [_ H3].
    split; [done|].
    replace (Z.to_nat (i + 1)) with (S (Z.to_nat i)) in H1 by lia.
    replace (Z.to_nat (i + 2)) with (S (S (Z.to_nat i))) in H2 by lia.
    replace (Z.to_nat (i + 2 + 1)) with (S (S (S (Z.to_nat i)))) in H3 by lia.
    rewrite (drop_S _ _ _ H0), (drop_S _ _ _ H1), (drop_S _ _ _ H2), (drop_S _ _ _ H3).
    reflexivity.
  - destruct (Ascii.eqb next dquote); cbn [negb]; [|done].
    destruct (consumeDoubleQuoted _) as [[s| | |] p1]; try done.
    intros [= <- _]. done.
Qed.

Lemma consumeDoubleQuotedOrNull_NULL pre rest nb :
  consumeDoubleQuotedOrNull (mk pre (bytes "NULL" ++ rest) nb)
  = (Ok {| pgtype.String := []; pgtype.Valid := false |}, mk (pre ++ bytes "NULL") rest nb).
Proof.
  change (bytes "NULL" ++ rest) with ("N"%char :: "U"%char :: "L"%char :: "L"%char :: rest).
  unfold consumeDoubleQuotedOrNull.
  unfold mbind at 1, parserM_bind at 1, getP at 1. cbv beta iota.
  rewrite atEnd_mk. set (R := mk (pre ++ bytes "NULL") rest nb).
  step. rewrite index_app. step.
  change (Ascii.eqb "N" "N") with true. cbv beta iota.
  match goal with |- context [consumeExpected2 _ _ ?p] =>
    change p with (mk pre ("N"%char :: "U"%char :: "L"%char :: "L"%char :: rest) nb)
  end.
  rewrite consumeExpected2_ok. rewrite consumeExpected2_ok.
  unfold R. by rewrite <- app_assoc.
Qed.

Lemma compatStore_ofValue v : compatStore (ofValue v) = v.
Proof. by destruct v. Qed.

Lemma parseHstore_text l :
  parseHstore (hstoreText l) = Ok (Some (storeAll (fun value => value) l ∅)).
Proof. apply parseWith_text. Qed.

Lemma parseHstoreCompat_text l :
  parseHstoreCompat (hstoreText l) = Ok (Some (storeAll compatStore l ∅)).
Proof. apply (parseWith_text compatStore). Qed.

Lemma len_bigKey : len bigKey = 2 ^ 31.
Proof. unfold len, bigKey. rewrite repeat_length. apply Z2Nat.id. lia. Qed.

Section Overflow.
Context {V : Type} (present : gostring -> V) (absent : V).

Lemma scanBinary_key_overflow mkStrings k :
  len k = 2 ^ 31 ->
  scanBinary present absent mkStrings
    (Some (be32 (int32 1) ++ be32 (int32 (len k)) ++ k ++ be32 (-1)))
  = Panic SliceBoundsOutOfRange.
Proof.
  intros Hk. rewrite Hk.
  change (int32 (2 ^ 31)) with (- 2 ^ 31). change (int32 1) with 1.
  unfold scanBinary.
  set (src := be32 1 ++ be32 (- 2 ^ 31) ++ k ++ be32 (-1)).
  assert (Hsrc : len src = 4 + (4 + (2 ^ 31 + 4))).
  { unfold src. by rewrite !len_app, !len_be32, Hk. }
  rewrite (sliceFrom_at src [] src 0) by done.
  cbn [mbind outcome_bind obind]. rewrite Hsrc.
  change (4 + (4 + (2 ^ 31 + 4)) <? uint32Len) with false. cbv iota.
  change (Uint32 src) with (Uint32 (be32 1 ++ (be32 (- 2 ^ 31) ++ k ++ be32 (-1)))).
  rewrite Uint32_be32. cbn [mbind outcome_bind obind].
  change (int32_of_uint32 (1 mod 2 ^ 32)) with 1.
  change (1 <? 0) with false. rewrite andb_false_r.
  rewrite (sliceFrom_at src (be32 1) (be32 (- 2 ^ 31) ++ k ++ be32 (-1)) (0 + uint32Len))
    by done.
  cbn [mbind outcome_bind obind].
  change (Z.to_nat 1) with 1%nat. cbn [scanPairs]. unfold scanPair.
  rewrite (sliceFrom_at src (be32 1) (be32 (- 2 ^ 31) ++ k ++ be32 (-1)) (0 + uint32Len))
    by done.
  cbn [mbind outcome_bind obind]. rewrite !len_app, !len_be32, Hk.
  change (4 + (2 ^ 31 + 4) <? uint32Len) with false. cbv iota.
  rewrite Uint32_be32. cbn [mbind outcome_bind obind].
  change (int32_of_uint32 (- 2 ^ 31 mod 2 ^ 32)) with (- 2 ^ 31).
  rewrite (sliceFrom_at src (be32 1 ++ be32 (- 2 ^ 31)) (k ++ be32 (-1))
             (0 + uint32Len + uint32Len));
    [| by unfold src; rewrite <- !app_assoc | done].
  cbn [mbind outcome_bind obind]. rewrite !len_app, !len_be32, Hk.
  change (2 ^ 31 + 4 <? - 2 ^ 31) with false. cbv iota.
  unfold sliceRange.
  change (0 + uint32Len + uint32Len - uint32Len <=?
          0 + uint32Len + uint32Len - uint32Len + - 2 ^ 31) with false.
  rewrite andb_false_r. reflexivity.
Qed.
End Overflow.

Lemma join_snoc sep xs x :
  join sep (xs ++ [x]) = flat_map (fun y => y ++ sep) xs ++ x.
Proof.
  induction xs as [|y xs IH]; [done|].
  cbn [app flat_map]. rewrite <- app_assoc, <- IH.
  destruct xs; cbn [app join]; by rewrite <- ?app_assoc.
Qed.

Lemma textValue_ofValue v : textValue (ofValue v) = v.
Proof. by destruct v. Qed.

Lemma logical_range (m : gmap (list ascii) (option (list ascii))) order :
  order ≡ₚ map_to_list (PGXToFasterHstore m) -> logical <$> order ≡ₚ map_to_list m.
Proof.
  intros ->. unfold PGXToFasterHstore. rewrite map_to_list_fmap, <- list_fmap_compose.
  rewrite <- (list_fmap_id (map_to_list m)) at 2.
  apply Permutation_refl'. apply list_fmap_ext. intros i [k v] _.
  unfold logical, compose, prod_map. cbn [fst snd]. f_equal. by destruct v.
Qed.

Lemma conv_storeAll {V} (present : gostring -> V) absent (store : Text -> V) l :
  (forall v, conv present absent v = store (ofValue v)) ->
  forall acc,
    fold_left (fun m kv => <[fst kv := conv present absent (snd kv)]> m) l acc
    = storeAll store l acc.
Proof.
  intros Hc. induction l as [|kv l IH]; intros acc; [done|].
  cbn [fold_left storeAll]. rewrite IH, Hc. reflexivity.
Qed.

Lemma stringOfSlice_append buf x : lenSlice buf = 0 -> stringOfSlice (append buf x) = x.
Proof.
  destruct buf as [[|c l]|]; cbn; try done; by destruct x.
Qed.

Lemma append_empty_cons buf c x : lenSlice buf = 0 -> append buf (c :: x) = Some (c :: x).
Proof.
  by destruct buf as [[|c' l]|].
Qed.

Lemma append_hstoreBinary buf l :
  lenSlice buf = 0 -> append buf (hstoreBinary l) = Some (hstoreBinary l).
Proof. intros Hbuf. unfold hstoreBinary, be32. cbn [app]. by apply append_empty_cons. Qed.

Lemma fits32_range (m : gmap (list ascii) (option (list ascii))) l :
  map_Forall (fun k v => fits32 (k, v)) m -> l ≡ₚ map_to_list m -> Forall fits32 l.
Proof.
  intros Hm ->. apply map_Forall_to_list in Hm.
  eapply Forall_impl; [exact Hm|]. by intros [k v].
Qed.

Lemma len_range {V} (m : gmap (list ascii) V) l :
  l ≡ₚ map_to_list m -> len l = Z.of_nat (size m).
Proof. intros Hl. unfold len. by rewrite Hl, length_map_to_list. Qed.

Section Formats.
Variable range : forall V : Type, gmap (list ascii) V -> list (list ascii * V).

Lemma Encode_text_Hstore (m : gmap (list ascii) Text) (buf : byteslice) :
  encodePlanHstoreCodecText_Encode range (anyHstore (Some m)) buf
  = Ok (append buf (hstoreText (logical <$> range _ m))).
Proof.
  unfold encodePlanHstoreCodecText_Encode. cbn [HstoreValue mbind outcome_bind obind].
  rewrite textPair_fold. by rewrite <- hstoreText_pairsFrom.
Qed.

Lemma Encode_text_Compat (m : gmap (list ascii) (option (list ascii))) (buf : byteslice) :
  encodePlanHstoreCompatCodecText_Encode range (anyHstoreCompat (Some m)) buf
  = Ok (append buf (hstoreText (range _ m))).
Proof.
  unfold encodePlanHstoreCompatCodecText_Encode.
  cbn [HstoreCompatValue mbind outcome_bind obind].
  rewrite textPairCompat_fold. by rewrite <- hstoreText_pairsFrom.
Qed.

Lemma Encode_binary_Hstore (m : gmap (list ascii) Text) (buf : byteslice) :
  encodePlanHstoreCodecBinary_Encode range (anyHstore (Some m)) buf
  = Ok (append buf (be32 (int32 (Z.of_nat (size m)))
                      ++ flat_map pairBinary (logical <$> range _ m))).
Proof.
  unfold encodePlanHstoreCodecBinary_Encode. cbn [HstoreValue mbind outcome_bind obind].
  rewrite binaryPair_fold. unfold AppendInt32. by rewrite append_append.
Qed.

Lemma Encode_binary_Compat (m : gmap (list ascii) (option (list ascii))) (buf : byteslice) :
  encodePlanHstoreCompatCodecBinary_Encode range (anyHstoreCompat (Some m)) buf
  = Ok (append buf (be32 (int32 (Z.of_nat (size m))) ++ flat_map pairBinary (range _ m))).
Proof.
  unfold encodePlanHstoreCompatCodecBinary_Encode.
  cbn [HstoreCompatValue mbind outcome_bind obind].
  rewrite binaryPairCompat_fold. unfold AppendInt32. by rewrite append_append.
Qed.
End Formats.

Lemma PGXToFasterHstore_storeAll (m : gmap (list ascii) (option (list ascii))) l :
  l ≡ₚ map_to_list m ->
  storeAll (fun value => value) l ∅ = PGXToFasterHstore m.
Proof. intros Hl. by rewrite (storeAll_map _ m l Hl). Qed.

Lemma compat_storeAll (m : gmap (list ascii) (option (list ascii))) l :
  l ≡ₚ map_to_list m -> storeAll compatStore l ∅ = m.
Proof.
  intros Hl. rewrite (storeAll_map _ m l Hl).
  rewrite <- (map_fmap_id m) at 2. apply map_fmap_ext. intros k v _.
  apply compatStore_ofValue.
Qed.

Lemma fits32_map_a_b : map_Forall (fun k v => fits32 (k, v)) map_a_b.
Proof.
  apply map_Forall_to_list.
  replace (map_to_list map_a_b)
    with [(bytes "b", @None (list ascii)); (bytes "a", Some (bytes "100"))]
    by (vm_compute; reflexivity).
  repeat constructor; vm_compute; congruence.
Defined.

Lemma range_empty (range : forall V : Type, gmap (list ascii) V -> list (list ascii * V)) V :
  rangeOK range -> range V ∅ = [].
Proof.
  intros Hrange. specialize (Hrange V ∅). unfold ranges in Hrange.
  rewrite map_to_list_empty in Hrange. by apply Permutation_nil_r.
Qed.

(** ** Malformed text *)

Lemma bind_err {A B} (m : parserM A) (k : A -> parserM B) p e :
  fst (m p) = Err e -> fst ((m ≫= k) p) = Err e.
Proof.
  unfold mbind, parserM_bind. destruct (m p) as [[a| | |] p']; cbn [fst]; congruence.
Qed.

Lemma bind_ok {A B} (m : parserM A) (k : A -> parserM B) p a p' :
  m p = (Ok a, p') -> (m ≫= k) p = k a p'.
Proof. unfold mbind, parserM_bind. by intros ->. Qed.

Lemma consumeExpected2_first one two pre b0 b1 rest nb :
  b0 <> one ->
  fst (consumeExpected2 one two (mk pre (b0 :: b1 :: rest) nb))
  = Err (ErrUnexpectedByte b0 one).
Proof.
  intros Hne. unfold consumeExpected2. step. rewrite len_app, !len_cons.
  pose proof (len_nonneg pre). pose proof (len_nonneg rest).
  replace (len pre + (1 + (1 + len rest)) <? len pre + 2) with false
    by (symmetry; apply Z.ltb_ge; lia).
  rewrite index_app. step. by destruct (Ascii.eqb_spec b0 one).
Qed.

Lemma consumeExpected2_second one two pre b1 rest nb :
  b1 <> two ->
  fst (consumeExpected2 one two (mk pre (one :: b1 :: rest) nb))
  = Err (ErrUnexpectedByte b1 two).
Proof.
  intros Hne. unfold consumeExpected2. step. rewrite len_app, !len_cons.
  pose proof (len_nonneg pre). pose proof (len_nonneg rest).
  replace (len pre + (1 + (1 + len rest)) <? len pre + 2) with false
    by (symmetry; apply Z.ltb_ge; lia).
  rewrite index_app. step. rewrite Ascii.eqb_refl. cbn [negb].
  rewrite index_app1. step. by destruct (Ascii.eqb_spec b1 two).
Qed.

Lemma consumeExpected2_short one two pre rest nb :
  (length rest < 2)%nat ->
  fst (consumeExpected2 one two (mk pre rest nb)) = Err ErrUnexpectedEndOfString.
Proof.
  intros Hlen. unfold consumeExpected2. step. rewrite len_app.
  replace (len pre + len rest <? len pre + 2) with true
    by (symmetry; apply Z.ltb_lt; unfold len; lia).
  reflexivity.
Qed.

Lemma IndexByte_notin s c : c ∉ s -> IndexByte s c = -1.
Proof.
  induction s as [|b s IH]; [done|]. intros [Hne Hs]%not_elem_of_cons.
  simpl. destruct (Ascii.eqb_spec b c); [congruence|]. by rewrite (IH Hs).
Qed.

Lemma consumeDoubleQuoted_unterminated pre s nb :
  dquote ∉ s -> fst (consumeDoubleQuoted (mk pre s nb)) = Err ErrEOSInQuoted.
Proof.
  intros Hs. unfold consumeDoubleQuoted. step. rewrite sliceFrom_app. step.
  by rewrite (IndexByte_notin _ _ Hs).
Qed.

Lemma consumeExpectedByte_end c pre nb :
  fst (consumeExpectedByte c (mk pre [] nb)) = Err (ErrExpectedFoundEnd c).
Proof.
  unfold consumeExpectedByte. unfold mbind at 1, parserM_bind at 1.
  by rewrite consume_end.
Qed.

Lemma consumeDoubleQuotedOrNull_end pre nb :
  fst (consumeDoubleQuotedOrNull (mk pre [] nb)) = Err ErrFoundEndInsteadOfValue.
Proof.
  unfold consumeDoubleQuotedOrNull.
  unfold mbind at 1, parserM_bind at 1, getP at 1. cbv beta iota.
  by rewrite atEnd_mk.
Qed.

Lemma consumeDoubleQuotedOrNull_unterminated pre s nb :
  dquote ∉ s ->
  fst (consumeDoubleQuotedOrNull (mk pre (dquote :: s) nb)) = Err ErrEOSInQuoted.
Proof.
  intros Hs. unfold consumeDoubleQuotedOrNull.
  unfold mbind at 1, parserM_bind at 1, getP at 1. cbv beta iota.
  rewrite atEnd_mk. step. rewrite index_app. step.
  change (Ascii.eqb dquote "N") with false. rewrite Ascii.eqb_refl. cbn [negb].
  match goal with |- context [consumeDoubleQuoted ?p] =>
    replace p with (mk (pre ++ [dquote]) s nb)
      by (unfold mk; rewrite <- app_assoc, len_app, len_cons, len_nil; reflexivity)
  end.
  pose proof (consumeDoubleQuoted_unterminated (pre ++ [dquote]) s nb Hs) as H.
  destruct (consumeDoubleQuoted _) as [[a| | |] p']; cbn [fst] in *; congruence.
Qed.

Section Errors.
Context {V : Type} (store : Text -> V).

Lemma parseLoop_after l junk fuel :
  l <> [] -> junk <> [] ->
  parseLoop store (length l + S fuel) true ∅ (mkAt [] (hstoreText l ++ junk))
  = (consumePairSeparator;; pairBody store fuel (storeAll store l ∅))
      (mkAt (hstoreText l) junk).
Proof.
  intros Hl Hjunk. rewrite hstoreText_pairsFrom, parseLoop_prefix.
  rewrite bool_decide_eq_false_2 by done. cbn [andb app parseLoop].
  unfold mbind at 1, parserM_bind at 1, getP at 1. cbv beta iota.
  unfold mkAt at 1. rewrite atEnd_mk. destruct junk as [|b junk]; [done|].
  reflexivity.
Qed.

Lemma parseLoop_enter l X fuel :
  X <> [] ->
  parseLoop store (length l + S fuel) true ∅ (mkAt [] (pairsThen l X))
  = pairBody store fuel (storeAll store l ∅) (mkAt (pairsThen l []) X).
Proof.
  intros HX. destruct l as [|kv l].
  - cbn [length Nat.add pairsThen parseLoop storeAll fold_left].
    unfold mbind at 1, parserM_bind at 1, getP at 1. cbv beta iota.
    unfold mkAt at 1. rewrite atEnd_mk. destruct X as [|b X]; [done|].
    reflexivity.
  - unfold pairsThen. rewrite parseLoop_after by done.
    unfold consumePairSeparator, pairSeparator. cbn [app].
    erewrite bind_ok; [|by apply consumeExpected2_at].
    reflexivity.
Qed.

Lemma parseWith_fuel l junk :
  exists fuel, S (length (hstoreText l ++ junk)) = (length l + S fuel)%nat.
Proof.
  exists (length (hstoreText l ++ junk) - length l)%nat.
  rewrite length_app, hstoreText_pairsFrom. pose proof (pairsFrom_length true l). lia.
Qed.

Lemma parseWith_err s e :
  fst (parseLoop store (S (length s)) true ∅ (newHSP s)) = Err e ->
  parseWith store s = Err e.
Proof. unfold parseWith. by intros ->. Qed.

(** After complete pairs, anything but the pair separator is an error. *)
Lemma parse_after_pairs l junk e :
  l <> [] -> junk <> [] ->
  (forall pre nb, fst (consumePairSeparator (mk pre junk nb)) = Err e) ->
  parseWith store (hstoreText l ++ junk) = Err e.
Proof.
  intros Hl Hjunk Herr. apply parseWith_err.
  destruct (parseWith_fuel l junk) as [fuel ->].
  rewrite newHSP_mkAt, parseLoop_after by done.
  apply bind_err. apply Herr.
Qed.

(** Where the next pair is expected *)
Lemma parse_next_pair l X e :
  X <> [] ->
  (forall fuel acc pre, fst (pairBody store fuel acc (mkAt pre X)) = Err e) ->
  parseWith store (pairsThen l X) = Err e.
Proof.
  intros HX Herr. apply parseWith_err.
  assert (exists fuel, S (length (pairsThen l X)) = (length l + S fuel)%nat) as [fuel ->].
  { destruct l as [|kv l]; [by exists (length X)|].
    unfold pairsThen. apply parseWith_fuel. }
  rewrite newHSP_mkAt, parseLoop_enter by done. apply Herr.
Qed.

Lemma pairBody_key_unterminated s fuel acc pre :
  dquote ∉ s -> fst (pairBody store fuel acc (mkAt pre (dquote :: s))) = Err ErrEOSInQuoted.
Proof.
  intros Hs. unfold pairBody.
  erewrite bind_ok; [|by apply consumeExpectedByte_ok].
  apply bind_err. by apply consumeDoubleQuoted_unterminated.
Qed.

(** After the key, the parser stands before what follows it. *)
Lemma pairBody_after_key k X fuel acc pre :
  pairBody store fuel acc (mkAt pre (quoted k ++ X))
  = (consumeKVSeparator;;
     value ← consumeDoubleQuotedOrNull;
     parseLoop store fuel false (<[k := store value]> acc)) (mkAt (pre ++ quoted k) X).
Proof.
  unfold pairBody, quoted. rewrite <- !app_assoc. cbn [app].
  erewrite bind_ok; [|by apply consumeExpectedByte_at].
  erewrite bind_ok; [|by apply consumeDoubleQuoted_ok].
  by rewrite <- !app_assoc.
Qed.

Lemma pairBody_kv_separator k junk e fuel acc pre :
  (forall pre nb, fst (consumeKVSeparator (mk pre junk nb)) = Err e) ->
  fst (pairBody store fuel acc (mkAt pre (quoted k ++ junk))) = Err e.
Proof.
  intros Herr. rewrite pairBody_after_key. apply bind_err, Herr.
Qed.

Lemma pairBody_value k X e fuel acc pre :
  (forall pre nb, fst (consumeDoubleQuotedOrNull (mk pre X nb)) = Err e) ->
  fst (pairBody store fuel acc (mkAt pre (quoted k ++ bytes "=>" ++ X))) = Err e.
Proof.
  intros Herr. rewrite pairBody_after_key.
  unfold consumeKVSeparator. change (bytes "=>" ++ X) with ("="%char :: ">"%char :: X).
  erewrite bind_ok; [|by apply consumeExpected2_at].
  apply bind_err, Herr.
Qed.
End Errors.

(** ** The parser returns on every input *)

Lemma mk_nil pre rest nb : mk pre rest nb = mk (pre ++ []) rest nb.
Proof. by rewrite app_nil_r. Qed.

Lemma escapesLoop_stays fuel : forall rest pre nb acc,
  (length rest < fuel)%nat ->
  stays pre rest nb true (escapesLoop fuel acc (mk pre rest nb)).
Proof.
  induction fuel as [|fuel IH]; intros rest pre nb acc Hfuel; [lia|].
  cbn [escapesLoop]. unfold mbind at 1, parserM_bind at 1.
  destruct rest as [|c rest].
  { rewrite consume_end. cbn. exists [], []. split; [done|]. by rewrite app_nil_r. }
  rewrite consume_next. cbv beta iota.
  destruct (Ascii.eqb c dquote).
  { cbn. exists [c], rest. repeat split; done. }
  destruct (Ascii.eqb c backslash).
  - unfold mbind at 1, parserM_bind at 1.
    destruct rest as [|c2 rest].
    { rewrite consume_end. cbn. exists [c], []. done. }
    rewrite consume_next. cbv beta iota.
    destruct (negb (Ascii.eqb c2 backslash || Ascii.eqb c2 dquote)).
    { cbn. exists [c; c2], rest. by rewrite <- app_assoc. }
    specialize (IH rest ((pre ++ [c]) ++ [c2]) nb (acc ++ [c2])
                  ltac:(simpl in Hfuel; lia)).
    unfold stays in *.
    destruct (escapesLoop fuel (acc ++ [c2]) _) as [[s| | |] p']; try done.
    + destruct IH as (a & r' & -> & -> & _). exists (c :: c2 :: a), r'.
      repeat split; [by rewrite <- !app_assoc|done].
    + destruct IH as (a & r' & -> & ->). exists (c :: c2 :: a), r'.
      split; [done|by rewrite <- !app_assoc].
  - specialize (IH rest (pre ++ [c]) nb (acc ++ [c]) ltac:(simpl in Hfuel; lia)).
    unfold stays in *.
    destruct (escapesLoop fuel (acc ++ [c]) _) as [[s| | |] p']; try done.
    + destruct IH as (a & r' & -> & -> & _). exists (c :: a), r'.
      repeat split; [by rewrite <- !app_assoc|done].
    + destruct IH as (a & r' & -> & ->). exists (c :: a), r'.
      split; [done|by rewrite <- !app_assoc].
Qed.

Lemma IndexByte_split s c :
  IndexByte s c <> -1 -> exists a r, s = a ++ c :: r /\ c ∉ a.
Proof.
  induction s as [|b s IH]; [done|]. simpl.
  destruct (Ascii.eqb_spec b c) as [->|Hne].
  - intros _. exists [], s. split; [done|apply not_elem_of_nil].
  - destruct (Z.eqb_spec (IndexByte s c) (-1)); [done|]. intros _.
    destruct (IH ltac:(done)) as (a & r & -> & Ha).
    exists (b :: a), r. split; [done|]. apply not_elem_of_cons. split; [congruence|done].
Qed.

Lemma IndexByte_app_in a b c : c ∈ a -> 0 <= IndexByte (a ++ b) c < len a.
Proof.
  induction a as [|x a IH]; [by intros ?%elem_of_nil|].
  intros Hin. cbn [app IndexByte]. rewrite len_cons. pose proof (len_nonneg a).
  destruct (Ascii.eqb_spec x c) as [->|Hne]; [lia|].
  apply elem_of_cons in Hin as [->|Hin]; [done|]. specialize (IH Hin).
  destruct (Z.eqb_spec (IndexByte (a ++ b) c) (-1)); lia.
Qed.

Lemma IndexByte_m1_notin s c : IndexByte s c = -1 -> c ∉ s.
Proof.
  intros H Hin. pose proof (IndexByte_in s c Hin). lia.
Qed.

Lemma mkAt_advance pre a r :
  backslash ∉ a ->
  {| str := pre ++ a ++ r; pos := len pre + len a; nextBackslash := nbOf pre (a ++ r) |}
  = mkAt (pre ++ a) r.
Proof. intros Ha. rewrite mk_step. by apply mkAt_step. Qed.

Lemma consumeDoubleQuoted_staysAt pre rest :
  staysAt pre rest true (consumeDoubleQuoted (mkAt pre rest)).
Proof.
  unfold consumeDoubleQuoted, mkAt. step. rewrite sliceFrom_app. step.
  destruct (Z.eqb_spec (IndexByte rest dquote) (-1)) as [|Hdq]; [done|].
  destruct (IndexByte_split _ _ Hdq) as (a & r & Hrest & Ha).
  assert (Hd : IndexByte rest dquote = len a) by (rewrite Hrest; by apply IndexByte_app_hit).
  rewrite Hd. pose proof (len_nonneg a) as Ha0. pose proof (len_nonneg pre) as Hp0.
  destruct ((nbOf pre rest =? -1) || (len a + len pre <? nbOf pre rest)) eqn:Hfast.
  - (* no escapes in this string *)
    assert (Hbs : backslash ∉ a ++ [dquote]).
    { intros Hin. unfold nbOf in Hfast.
      pose proof (IndexByte_app_in (a ++ [dquote]) r backslash Hin) as Hj.
      replace ((a ++ [dquote]) ++ r) with rest in Hj
        by (rewrite Hrest, <- app_assoc; reflexivity).
      rewrite len_app in Hj. change (len [dquote]) with 1 in Hj.
      destruct (Z.eqb_spec (IndexByte rest backslash) (-1)); [lia|].
      apply orb_true_iff in Hfast as [Hf|Hf];
        [apply Z.eqb_eq in Hf|apply Z.ltb_lt in Hf]; lia. }
    rewrite (sliceRange_at (pre ++ rest) pre a (dquote :: r));
      [| by rewrite Hrest | done | lia].
    step. exists (a ++ [dquote]), r. split; [by rewrite <- app_assoc|].
    split; [|by destruct a].
    rewrite <- (mkAt_advance pre (a ++ [dquote]) r Hbs).
    rewrite <- app_assoc. cbn [app]. rewrite <- Hrest.
    f_equal. rewrite len_app, len_cons, len_nil. lia.
  - (* string contains escapes *)
    apply orb_false_iff in Hfast as [Hnb1 Hnb2].
    apply Z.eqb_neq in Hnb1. apply Z.ltb_ge in Hnb2.
    unfold nbOf in Hnb1, Hnb2 |- *.
    destruct (Z.eqb_spec (IndexByte rest backslash) (-1)) as [|Hbs]; [done|].
    destruct (IndexByte_split _ _ Hbs) as (a1 & r1 & Hrest1 & Ha1).
    assert (Hj : IndexByte rest backslash = len a1)
      by (rewrite Hrest1; by apply IndexByte_app_hit).
    rewrite Hj in *. clear Hnb1.
    unfold consumeDoubleQuotedWithEscapes. step.
    rewrite (sliceRange_at (pre ++ rest) pre a1 (backslash :: r1));
      [| by rewrite Hrest1 | done | lia].
    step.
    replace {| str := pre ++ rest; pos := len a1 + len pre; nextBackslash := len a1 + len pre |}
      with (mk (pre ++ a1) (backslash :: r1) (len a1 + len pre)).
    2:{ unfold mk. rewrite <- app_assoc, <- Hrest1, len_app. f_equal. lia. }
    pose proof (escapesLoop_stays (S (length (pre ++ rest))) (backslash :: r1) (pre ++ a1)
                  (len a1 + len pre) a1) as Hloop.
    specialize (Hloop ltac:(rewrite Hrest1, !length_app; simpl; lia)).
    unfold stays in Hloop.
    destruct (escapesLoop _ a1 _) as [[s| | |] p']; try done.
    + destruct Hloop as (a2 & r' & Hr1 & -> & Hne). step. rewrite sliceFrom_app. step.
      exists (a1 ++ a2), r'. split; [by rewrite Hrest1, Hr1, <- app_assoc|].
      split; [|by destruct a1, a2; try done; intros _; specialize (Hne eq_refl)].
      unfold mkAt, mk, nbOf. rewrite <- !app_assoc. f_equal.
      destruct (Z.eqb_spec (IndexByte r' backslash) (-1)) as [e|e]; cbn [negb];
        [by rewrite e|reflexivity].
    + destruct Hloop as (a2 & r' & Hr1 & ->). step. rewrite sliceFrom_app. step. done.
Qed.

Lemma staysAt_bind {A B} (m : parserM A) (k : A -> parserM B) pre rest s1 s2 :
  staysAt pre rest s1 (m (mkAt pre rest)) ->
  (forall a x r', rest = x ++ r' -> (s1 = true -> x <> []) ->
     staysAt (pre ++ x) r' s2 (k a (mkAt (pre ++ x) r'))) ->
  staysAt pre rest (s1 || s2) ((m ≫= k) (mkAt pre rest)).
Proof.
  intros Hm Hk. unfold mbind, parserM_bind.
  destruct (m (mkAt pre rest)) as [[a| | |] p']; try done.
  destruct Hm as (x & r' & -> & -> & Hx).
  specialize (Hk a x r' eq_refl Hx). unfold staysAt in *.
  destruct (k a (mkAt (pre ++ x) r')) as [[b| | |] p'']; try done.
  destruct Hk as (y & r'' & -> & -> & Hy).
  exists (x ++ y), r''. rewrite <- !app_assoc. repeat split.
  intros [-> | ->]%orb_true_iff.
  - specialize (Hx eq_refl). by destruct x.
  - specialize (Hy eq_refl). by destruct x, y.
Qed.

Lemma returns_bind {A B} (m : parserM A) (k : A -> parserM B) pre rest s1 :
  staysAt pre rest s1 (m (mkAt pre rest)) ->
  (forall a x r', rest = x ++ r' -> (s1 = true -> x <> []) ->
     returns (fst (k a (mkAt (pre ++ x) r')))) ->
  returns (fst ((m ≫= k) (mkAt pre rest))).
Proof.
  intros Hm Hk. unfold mbind, parserM_bind.
  destruct (m (mkAt pre rest)) as [[a| | |] p']; try done.
  destruct Hm as (x & r' & -> & -> & Hx). by apply Hk.
Qed.

Lemma consumeExpectedByte_staysAt c pre rest :
  c <> backslash -> staysAt pre rest true (consumeExpectedByte c (mkAt pre rest)).
Proof.
  intros Hc. destruct rest as [|b r].
  - unfold consumeExpectedByte, mkAt. unfold mbind at 1, parserM_bind at 1.
    by rewrite consume_end.
  - destruct (Ascii.eqb_spec b c) as [->|Hne].
    + rewrite consumeExpectedByte_at by done. cbn. by exists [c], r.
    + unfold consumeExpectedByte, mkAt. unfold mbind at 1, parserM_bind at 1.
      rewrite consume_next. cbv beta iota. by destruct (Ascii.eqb_spec b c).
Qed.

Lemma consumeExpected2_staysAt a b pre rest :
  a <> backslash -> b <> backslash ->
  staysAt pre rest true (consumeExpected2 a b (mkAt pre rest)).
Proof.
  intros Ha Hb.
  destruct rest as [|b0 [|b1 r]].
  - pose proof (consumeExpected2_short a b pre [] (nbOf pre []) ltac:(simpl; lia)) as H.
    unfold mkAt. by destruct (consumeExpected2 _ _ _) as [[| | |] ?]; cbn in *.
  - pose proof (consumeExpected2_short a b pre [b0] (nbOf pre [b0]) ltac:(simpl; lia)) as H.
    unfold mkAt. by destruct (consumeExpected2 _ _ _) as [[| | |] ?]; cbn in *.
  - destruct (Ascii.eqb_spec b0 a) as [->|Hne0].
    + destruct (Ascii.eqb_spec b1 b) as [->|Hne1].
      * rewrite consumeExpected2_at by done. cbn. by exists [a; b], r.
      * pose proof (consumeExpected2_second a b pre b1 r (nbOf pre (a :: b1 :: r)) Hne1) as H.
        unfold mkAt. by destruct (consumeExpected2 _ _ _) as [[| | |] ?]; cbn in *.
    + pose proof (consumeExpected2_first a b pre b0 b1 r (nbOf pre (b0 :: b1 :: r)) Hne0) as H.
      unfold mkAt. by destruct (consumeExpected2 _ _ _) as [[| | |] ?]; cbn in *.
Qed.

Lemma consumeDoubleQuotedOrNull_staysAt pre rest :
  staysAt pre rest true (consumeDoubleQuotedOrNull (mkAt pre rest)).
Proof.
  unfold consumeDoubleQuotedOrNull.
  unfold mbind at 1, parserM_bind at 1, getP at 1. cbv beta iota.
  unfold mkAt at 1. rewrite atEnd_mk. destruct rest as [|c r]; [done|].
  unfold mbind at 1, parserM_bind at 1, liftO at 1.
  unfold mkAt at 1 2. cbn [str pos mk]. rewrite index_app.
  destruct (Ascii.eqb_spec c "N"%char) as [->|_].
  - change true with (true || true).
    apply (staysAt_bind (consumeExpected2 "N" "U")); [by apply consumeExpected2_staysAt|].
    intros _ x r' _ _.
    change true with (true || false).
    apply (staysAt_bind (consumeExpected2 "L" "L")); [by apply consumeExpected2_staysAt|].
    intros _ y r'' _ _. cbn. exists [], r''. by rewrite app_nil_r.
  - destruct (Ascii.eqb_spec c dquote) as [->|_]; cbn [negb]; [|done].
    unfold mbind at 1, parserM_bind at 1, setPos at 1. cbn [str pos nextBackslash mk mkAt].
    replace {| str := pre ++ dquote :: r; pos := len pre + 1;
               nextBackslash := nbOf pre (dquote :: r) |}
      with (mkAt (pre ++ [dquote]) r).
    2:{ rewrite <- (mkAt_advance pre [dquote] r) by (by intros ?%list_elem_of_singleton).
        reflexivity. }
    pose proof (consumeDoubleQuoted_staysAt (pre ++ [dquote]) r) as H.
    unfold mbind, parserM_bind. unfold staysAt in *.
    destruct (consumeDoubleQuoted _) as [[s| | |] p']; try done.
    destruct H as (a & r' & -> & -> & _). cbn.
    exists (dquote :: a), r'. rewrite <- !app_assoc. by repeat split.
Qed.

Section Total.
Context {V : Type} (store : Text -> V).

Lemma parseLoop_returns fuel : forall pre rest first acc,
  (length rest < fuel)%nat ->
  returns (fst (parseLoop store fuel first acc (mkAt pre rest))).
Proof.
  induction fuel as [|fuel IH]; intros pre rest first acc Hfuel; [lia|].
  cbn [parseLoop]. unfold mbind at 1, parserM_bind at 1, getP at 1. cbv beta iota.
  unfold mkAt at 1. rewrite atEnd_mk. destruct rest as [|c r]; [done|].
  set (rest := c :: r) in *. clearbody rest. clear c r.
  apply (returns_bind _ _ pre rest false).
  { destruct first; cbn [negb].
    - cbn. exists [], rest. by rewrite app_nil_r.
    - pose proof (consumeExpected2_staysAt ","%char " "%char pre rest
                    ltac:(discriminate) ltac:(discriminate)) as H.
      unfold consumePairSeparator, staysAt in *.
      destruct (consumeExpected2 _ _ _) as [[| | |] p']; try done.
      destruct H as (x0 & r' & Hx0 & -> & _). by exists x0, r'. }
  intros _ x1 r1 Hr1 _.
  apply (returns_bind _ _ _ r1 true); [by apply consumeExpectedByte_staysAt|].
  intros _ x2 r2 Hr2 Hx2.
  apply (returns_bind _ _ _ r2 true); [by apply consumeDoubleQuoted_staysAt|].
  intros key x3 r3 Hr3 _.
  apply (returns_bind _ _ _ r3 true);
    [by apply consumeExpected2_staysAt|].
  intros _ x4 r4 Hr4 _.
  apply (returns_bind _ _ _ r4 true); [by apply consumeDoubleQuotedOrNull_staysAt|].
  intros value x5 r5 Hr5 _.
  apply IH. specialize (Hx2 eq_refl).
  assert (length rest = length x1 + length x2 + length x3 + length x4 + length x5
                        + length r5)%nat as Hlen.
  { rewrite Hr1, Hr2, Hr3, Hr4, Hr5, !length_app. lia. }
  destruct x2; [done|]. simpl in Hlen. lia.
Qed.

(** The parser returns on every input: a mapping or an error; it never
    panics and its loops end. *)
Theorem parseWith_returns (s : gostring) : returns (parseWith store s).
Proof.
  unfold parseWith. rewrite newHSP_mkAt.
  pose proof (parseLoop_returns (S (length s)) [] s true ∅ ltac:(lia)) as H.
  by destruct (fst _).
Qed.
End Total.

(** ** The binary reader on sources with more bytes *)

Section ScanMore.
Context {V : Type} (present : gostring -> V) (absent : V).

Lemma scanPairs_app n1 : forall n2 src kvs st,
  scanPairs present absent (n1 + n2) src kvs st
  = (st' ← scanPairs present absent n1 src kvs st; scanPairs present absent n2 src kvs st').
Proof.
  induction n1 as [|n1 IH]; intros n2 src kvs st; [done|].
  cbn [Nat.add scanPairs]. cbn [mbind outcome_bind obind].
  destruct (scanPair present absent src kvs st) as [st1| | |]; cbn [obind]; [|done..].
  apply IH.
Qed.

Lemma scanBinary_count mkStrings n body :
  0 <= n < 2 ^ 31 ->
  scanBinary present absent mkStrings (Some (be32 n ++ body))
  = ('(_, hstore) ← scanPairs present absent (Z.to_nat n) (be32 n ++ body) body (4, ∅);
     Ok (Some hstore)).
Proof.
  intros Hn. unfold scanBinary.
  rewrite (sliceFrom_at (be32 n ++ body) [] (be32 n ++ body) 0) by done.
  cbn [mbind outcome_bind obind]. rewrite len_app, len_be32.
  pose proof (len_nonneg body).
  replace (4 + len body <? uint32Len) with false
    by (symmetry; apply Z.ltb_ge; unfold uint32Len; lia).
  rewrite Uint32_be32. cbn [mbind outcome_bind obind].
  rewrite int32_of_uint32_int32 by lia.
  replace (n <? 0) with false by (symmetry; apply Z.ltb_ge; lia).
  rewrite andb_false_r.
  rewrite (sliceFrom_at (be32 n ++ body) (be32 n) body (0 + uint32Len)) by done.
  reflexivity.
Qed.

Lemma scanBinary_short mkStrings b :
  len b < 4 ->
  scanBinary present absent mkStrings (Some b) = Err (ErrHstoreIncomplete b).
Proof.
  intros Hb. unfold scanBinary.
  rewrite (sliceFrom_at b [] b 0) by done.
  cbn [mbind outcome_bind obind].
  by replace (len b <? uint32Len) with true by (symmetry; apply Z.ltb_lt; unfold uint32Len; lia).
Qed.

Lemma scanPairs_prefix l n' junk :
  Forall fits32 l ->
  forall hdr, len hdr = 4 ->
  scanPairs present absent (length l + n') (hdr ++ flat_map pairBinary l ++ junk)
    (flat_map pairBinary l ++ junk) (4, ∅)
  = scanPairs present absent n' (hdr ++ flat_map pairBinary l ++ junk)
      (flat_map pairBinary l ++ junk)
      (4 + len (flat_map pairBinary l),
       fold_left (fun m kv => <[fst kv := conv present absent (snd kv)]> m) l ∅).
Proof.
  intros Hl hdr Hh. rewrite scanPairs_app.
  pose proof (scanPairs_ok present absent l hdr [] junk ∅ Hh Hl) as Hs.
  cbn [app] in Hs. rewrite Hh in Hs. change (len (@nil ascii)) with 0 in Hs.
  rewrite Z.add_0_r in Hs. rewrite Hs. reflexivity.
Qed.

Lemma scanBinary_junk mkStrings l junk :
  len l < 2 ^ 31 -> Forall fits32 l ->
  scanBinary present absent mkStrings (Some (hstoreBinary l ++ junk))
  = Ok (Some (fold_left (fun m kv => <[fst kv := conv present absent (snd kv)]> m) l ∅)).
Proof.
  intros Hn Hl. pose proof (len_nonneg l) as Hn0.
  unfold hstoreBinary. rewrite int32_small by lia. rewrite <- app_assoc.
  rewrite scanBinary_count by lia.
  replace (Z.to_nat (len l)) with (length l + 0)%nat by (unfold len; lia).
  rewrite (scanPairs_prefix l 0 junk Hl (be32 (len l)) (len_be32 _)).
  reflexivity.
Qed.
End ScanMore.

(** ** The binary reader on sources that are cut off *)

Section Cut.
Context {V : Type} (present : gostring -> V) (absent : V).

(** The scan of a source that declares more pairs than [l] stands or falls
    with the pair read after those of [l]. *)
Lemma scanBinary_next mkStrings l n t :
  Forall fits32 l -> len l < n < 2 ^ 31 ->
  scanBinary present absent mkStrings (Some (be32 n ++ flat_map pairBinary l ++ t))
  = ('(_, hstore) ←
       (st ← scanPair present absent (be32 n ++ flat_map pairBinary l ++ t)
               (flat_map pairBinary l ++ t)
               (4 + len (flat_map pairBinary l),
                fold_left (fun m kv => <[fst kv := conv present absent (snd kv)]> m) l ∅);
        scanPairs present absent (Z.to_nat n - length l - 1)
          (be32 n ++ flat_map pairBinary l ++ t) (flat_map pairBinary l ++ t) st);
     Ok (Some hstore)).
Proof.
  intros Hl Hn. pose proof (len_nonneg l) as Hl0.
  rewrite scanBinary_count by lia.
  replace (Z.to_nat n) with (length l + S (Z.to_nat n - length l - 1))%nat at 1
    by (unfold len in *; lia).
  rewrite (scanPairs_prefix present absent l _ t Hl (be32 n) (len_be32 _)).
  reflexivity.
Qed.

Lemma scanBinary_next_err mkStrings l n t e :
  Forall fits32 l -> len l < n < 2 ^ 31 ->
  scanPair present absent (be32 n ++ flat_map pairBinary l ++ t) (flat_map pairBinary l ++ t)
    (4 + len (flat_map pairBinary l),
     fold_left (fun m kv => <[fst kv := conv present absent (snd kv)]> m) l ∅) = Err e ->
  scanBinary present absent mkStrings (Some (binarySource n l t)) = Err e.
Proof.
  intros Hl Hn Hp. unfold binarySource. rewrite scanBinary_next by done. by rewrite Hp.
Qed.

Lemma scanBinary_next_panic mkStrings l n t x :
  Forall fits32 l -> len l < n < 2 ^ 31 ->
  scanPair present absent (be32 n ++ flat_map pairBinary l ++ t) (flat_map pairBinary l ++ t)
    (4 + len (flat_map pairBinary l),
     fold_left (fun m kv => <[fst kv := conv present absent (snd kv)]> m) l ∅) = Panic x ->
  scanBinary present absent mkStrings (Some (binarySource n l t)) = Panic x.
Proof.
  intros Hl Hn Hp. unfold binarySource. rewrite scanBinary_next by done. by rewrite Hp.
Qed.

Lemma scanPair_cut_keylen hdr done t acc :
  len hdr = 4 -> len t < 4 ->
  scanPair present absent (hdr ++ done ++ t) (done ++ t) (len hdr + len done, acc)
  = Err (ErrHstoreIncomplete (hdr ++ done ++ t)).
Proof.
  intros Hh Ht. unfold scanPair.
  rewrite (sliceFrom_at (hdr ++ done ++ t) (hdr ++ done) t (len hdr + len done));
    [| by rewrite <- !app_assoc | by rewrite len_app].
  cbn [mbind outcome_bind obind].
  by replace (len t <? uint32Len) with true by (symmetry; apply Z.ltb_lt; unfold uint32Len; lia).
Qed.

Lemma scanPair_cut_key hdr done klen t acc :
  len hdr = 4 -> 0 <= klen < 2 ^ 31 -> len t < klen ->
  scanPair present absent (hdr ++ done ++ be32 klen ++ t) (done ++ be32 klen ++ t)
    (len hdr + len done, acc)
  = Err (ErrHstoreIncomplete (hdr ++ done ++ be32 klen ++ t)).
Proof.
  intros Hh Hk Ht. unfold scanPair. pose proof (len_nonneg t).
  set (src := hdr ++ done ++ be32 klen ++ t).
  rewrite (sliceFrom_at src (hdr ++ done) (be32 klen ++ t) (len hdr + len done));
    [| by unfold src; rewrite <- !app_assoc | by rewrite len_app].
  cbn [mbind outcome_bind obind]. rewrite len_app, len_be32.
  replace (4 + len t <? uint32Len) with false
    by (symmetry; apply Z.ltb_ge; unfold uint32Len; lia).
  rewrite Uint32_be32. cbn [mbind outcome_bind obind].
  rewrite int32_of_uint32_int32 by lia.
  rewrite (sliceFrom_at src (hdr ++ done ++ be32 klen) t (len hdr + len done + uint32Len));
    [| by unfold src; rewrite <- !app_assoc
     | rewrite !len_app, len_be32; unfold uint32Len; lia].
  cbn [mbind outcome_bind obind].
  by replace (len t <? klen) with true by (symmetry; apply Z.ltb_lt; lia).
Qed.

Lemma scanPair_negative_key hdr done klen t acc :
  len hdr = 4 -> - 2 ^ 31 <= klen < 0 ->
  scanPair present absent (hdr ++ done ++ be32 klen ++ t) (done ++ be32 klen ++ t)
    (len hdr + len done, acc)
  = Panic SliceBoundsOutOfRange.
Proof.
  intros Hh Hk. unfold scanPair. pose proof (len_nonneg t). pose proof (len_nonneg done).
  set (src := hdr ++ done ++ be32 klen ++ t).
  rewrite (sliceFrom_at src (hdr ++ done) (be32 klen ++ t) (len hdr + len done));
    [| by unfold src; rewrite <- !app_assoc | by rewrite len_app].
  cbn [mbind outcome_bind obind]. rewrite len_app, len_be32.
  replace (4 + len t <? uint32Len) with false
    by (symmetry; apply Z.ltb_ge; unfold uint32Len; lia).
  rewrite Uint32_be32. cbn [mbind outcome_bind obind].
  rewrite int32_of_uint32_int32 by lia.
  rewrite (sliceFrom_at src (hdr ++ done ++ be32 klen) t (len hdr + len done + uint32Len));
    [| by unfold src; rewrite <- !app_assoc
     | rewrite !len_app, len_be32; unfold uint32Len; lia].
  cbn [mbind outcome_bind obind].
  replace (len t <? klen) with false by (symmetry; apply Z.ltb_ge; lia).
  unfold sliceRange.
  replace (len hdr + len done + uint32Len - uint32Len <=?
           len hdr + len done + uint32Len - uint32Len + klen) with false
    by (symmetry; apply Z.leb_gt; lia).
  by rewrite andb_false_r.
Qed.

Lemma scanPair_cut_vallen hdr done k t acc :
  len hdr = 4 -> len k < 2 ^ 31 -> len t < 4 ->
  scanPair present absent (hdr ++ done ++ be32 (len k) ++ k ++ t)
    (done ++ be32 (len k) ++ k ++ t) (len hdr + len done, acc)
  = Err (ErrHstoreIncomplete (hdr ++ done ++ be32 (len k) ++ k ++ t)).
Proof.
  intros Hh Hk Ht. unfold scanPair.
  pose proof (len_nonneg t). pose proof (len_nonneg k). pose proof (len_nonneg done).
  set (KB := be32 (len k)). assert (HKB : len KB = 4) by apply len_be32.
  set (src := hdr ++ done ++ KB ++ k ++ t).
  set (kvs := done ++ KB ++ k ++ t).
  rewrite (sliceFrom_at src (hdr ++ done) (KB ++ k ++ t) (len hdr + len done));
    [| by unfold src; rewrite <- !app_assoc | by rewrite len_app].
  cbn [mbind outcome_bind obind]. rewrite !len_app, HKB.
  replace (4 + (len k + len t) <? uint32Len) with false
    by (symmetry; apply Z.ltb_ge; unfold uint32Len; lia).
  unfold KB at 1. rewrite Uint32_be32. cbn [mbind outcome_bind obind].
  rewrite int32_of_uint32_int32 by lia.
  rewrite (sliceFrom_at src (hdr ++ done ++ KB) (k ++ t) (len hdr + len done + uint32Len));
    [| by unfold src; rewrite <- !app_assoc
     | rewrite !len_app, HKB; unfold uint32Len; lia].
  cbn [mbind outcome_bind obind]. rewrite !len_app.
  replace (len k + len t <? len k) with false by (symmetry; apply Z.ltb_ge; lia).
  rewrite (sliceRange_at kvs (done ++ KB) k t
             (len hdr + len done + uint32Len - uint32Len)
             (len hdr + len done + uint32Len - uint32Len + len k));
    [| by unfold kvs; rewrite <- !app_assoc
     | rewrite !len_app, HKB; unfold uint32Len; lia
     | rewrite !len_app, HKB; unfold uint32Len; lia].
  cbn [mbind outcome_bind obind].
  rewrite (sliceFrom_at src (hdr ++ done ++ KB ++ k) t
             (len hdr + len done + uint32Len + len k));
    [| by unfold src; rewrite <- !app_assoc
     | rewrite !len_app, HKB; unfold uint32Len; lia].
  cbn [mbind outcome_bind obind].
  by replace (len t <? uint32Len) with true by (symmetry; apply Z.ltb_lt; unfold uint32Len; lia).
Qed.

Lemma scanPair_cut_value hdr done k vlen t acc :
  len hdr = 4 -> len k < 2 ^ 31 -> 0 <= vlen < 2 ^ 31 -> len t < vlen ->
  scanPair present absent (hdr ++ done ++ be32 (len k) ++ k ++ be32 vlen ++ t)
    (done ++ be32 (len k) ++ k ++ be32 vlen ++ t) (len hdr + len done, acc)
  = Panic SliceBoundsOutOfRange.
Proof.
  intros Hh Hk Hv Ht. unfold scanPair.
  pose proof (len_nonneg t). pose proof (len_nonneg k). pose proof (len_nonneg done).
  set (KB := be32 (len k)). assert (HKB : len KB = 4) by apply len_be32.
  set (VB := be32 vlen). assert (HVB : len VB = 4) by apply len_be32.
  set (src := hdr ++ done ++ KB ++ k ++ VB ++ t).
  set (kvs := done ++ KB ++ k ++ VB ++ t).
  rewrite (sliceFrom_at src (hdr ++ done) (KB ++ k ++ VB ++ t) (len hdr + len done));
    [| by unfold src; rewrite <- !app_assoc | by rewrite len_app].
  cbn [mbind outcome_bind obind]. rewrite !len_app, HKB, HVB.
  replace (4 + (len k + (4 + len t)) <? uint32Len) with false
    by (symmetry; apply Z.ltb_ge; unfold uint32Len; lia).
  unfold KB at 1. rewrite Uint32_be32. cbn [mbind outcome_bind obind].
  rewrite int32_of_uint32_int32 by lia.
  rewrite (sliceFrom_at src (hdr ++ done ++ KB) (k ++ VB ++ t) (len hdr + len done + uint32Len));
    [| by unfold src; rewrite <- !app_assoc
     | rewrite !len_app, HKB; unfold uint32Len; lia].
  cbn [mbind outcome_bind obind]. rewrite !len_app, HVB.
  replace (len k + (4 + len t) <? len k) with false by (symmetry; apply Z.ltb_ge; lia).
  rewrite (sliceRange_at kvs (done ++ KB) k (VB ++ t)
             (len hdr + len done + uint32Len - uint32Len)
             (len hdr + len done + uint32Len - uint32Len + len k));
    [| by unfold kvs; rewrite <- !app_assoc
     | rewrite !len_app, HKB; unfold uint32Len; lia
     | rewrite !len_app, HKB; unfold uint32Len; lia].
  cbn [mbind outcome_bind obind].
  rewrite (sliceFrom_at src (hdr ++ done ++ KB ++ k) (VB ++ t)
             (len hdr + len done + uint32Len + len k));
    [| by unfold src; rewrite <- !app_assoc
     | rewrite !len_app, HKB; unfold uint32Len; lia].
  cbn [mbind outcome_bind obind]. rewrite len_app, HVB.
  replace (4 + len t <? uint32Len) with false
    by (symmetry; apply Z.ltb_ge; unfold uint32Len; lia).
  unfold VB at 1. rewrite Uint32_be32. cbn [mbind outcome_bind obind].
  rewrite int32_of_uint32_int32 by lia.
  replace (0 <=? vlen) with true by (symmetry; apply Z.leb_le; lia).
  unfold sliceRange.
  replace (len hdr + len done + uint32Len + len k + 4 - uint32Len + vlen <=? len kvs)
    with false.
  2:{ symmetry. apply Z.leb_gt. unfold kvs. rewrite !len_app, HKB, HVB.
      unfold uint32Len. lia. }
  by rewrite andb_false_r.
Qed.
End Cut.

(** ** The two binary scans *)

Section ScanMap.
Context {V W : Type} (present : gostring -> V) (absent : V) (h : V -> W).

Lemma scanPair_map src kvs rp acc :
  scanPair (fun s => h (present s)) (h absent) src kvs (rp, h <$> acc)
  = outcome_map (prod_map id (fmap h)) (scanPair present absent src kvs (rp, acc)).
Proof.
  unfold scanPair, mbind, outcome_bind.
  repeat match goal with
  | |- context [obind ?o _] => destruct o as [?| | |]; cbn [obind outcome_map]; try reflexivity
  | |- context [if ?c then _ else _] => destruct c; cbn [obind outcome_map]; try reflexivity
  end; unfold prod_map; cbn [fst snd id]; by rewrite fmap_insert.
Qed.

Lemma scanPairs_map n src kvs : forall rp acc,
  scanPairs (fun s => h (present s)) (h absent) n src kvs (rp, h <$> acc)
  = outcome_map (prod_map id (fmap h)) (scanPairs present absent n src kvs (rp, acc)).
Proof.
  induction n as [|n IH]; intros rp acc; [done|].
  cbn [scanPairs]. unfold mbind, outcome_bind. rewrite scanPair_map.
  destruct (scanPair present absent src kvs (rp, acc)) as [[rp' acc']| | |];
    cbn [outcome_map obind prod_map fst snd id]; try reflexivity.
  apply IH.
Qed.

Lemma scanBinary_map mkStrings src :
  scanBinary (fun s => h (present s)) (h absent) mkStrings src
  = outcome_map (fmap (M:=option) (fmap (M:=gmap (list ascii)) h))
      (scanBinary present absent mkStrings src).
Proof.
  destruct src as [b|]; [|done]. unfold scanBinary, mbind, outcome_bind.
  destruct (sliceFrom b 0) as [rest| | |]; cbn [obind outcome_map]; try reflexivity.
  destruct (len rest <? uint32Len); cbn [obind outcome_map]; try reflexivity.
  destruct (Uint32 rest) as [u| | |]; cbn [obind outcome_map]; try reflexivity.
  destruct (mkStrings && _); cbn [obind outcome_map]; try reflexivity.
  destruct (sliceFrom b (0 + uint32Len)) as [kvs| | |]; cbn [obind outcome_map]; try reflexivity.
  rewrite <- (fmap_empty h). rewrite scanPairs_map.
  destruct (scanPairs present absent _ b kvs _) as [[rp' acc']| | |];
    cbn [outcome_map obind prod_map fst snd id]; reflexivity.
Qed.
End ScanMap.

Section ScanMk.
Context {V : Type} (present : gostring -> V) (absent : V).

(** [make([]string, pairCount)] is the one difference between the two scans. *)
Lemma scanBinary_mkStrings b :
  (exists u, Uint32 b = Ok u /\ int32_of_uint32 u < 0 /\
     scanBinary present absent true (Some b) = Panic MakesliceLenOutOfRange) \/
  scanBinary present absent true (Some b) = scanBinary present absent false (Some b).
Proof.
  unfold scanBinary, mbind, outcome_bind.
  destruct (sliceFrom b 0) as [rest| | |] eqn:Hrest; cbn [obind]; try (by right).
  assert (rest = b) as ->.
  { unfold sliceFrom in Hrest. destruct (_ && _) in Hrest; [|done].
    by injection Hrest as <-. }
  destruct (len b <? uint32Len); cbn [obind]; try (by right).
  destruct (Uint32 b) as [u| | |]; cbn [obind]; try (by right).
  destruct (Z.ltb_spec (int32_of_uint32 u) 0); cbn [andb]; [|by right].
  left. by exists u.
Qed.
End ScanMk.

(** ** The two parsers *)

(** A value the parser returns is [NewText s] or the zero [pgtype.Text]. *)
Lemma consumeDoubleQuotedOrNull_normal p t p' :
  consumeDoubleQuotedOrNull p = (Ok t, p') -> ofValue (textValue t) = t.
Proof.
  destruct p as [s0 i nb]. unfold consumeDoubleQuotedOrNull. step.
  destruct (atEnd _); [done|].
  destruct (index s0 i) as [next| | |]; try done.
  destruct (Ascii.eqb next "N"%char).
  - destruct (consumeExpected2 "N" "U" _) as [[[]| | |] p1]; try done.
    destruct (consumeExpected2 "L" "L" p1) as [[[]| | |] p2]; try done.
    by intros [= <- _].
  - destruct (Ascii.eqb next dquote); cbn [negb]; [|done].
    destruct (consumeDoubleQuoted _) as [[s| | |] p1]; try done.
    by intros [= <- _].
Qed.

Lemma parseLoop_S {V} (store : Text -> V) fuel first acc p :
  parseLoop store (S fuel) first acc p
  = if atEnd p then (Ok acc, p)
    else ((if negb first then consumePairSeparator else mret tt);;
          consumeExpectedByte dquote;;
          key ← consumeDoubleQuoted;
          consumeKVSeparator;;
          value ← consumeDoubleQuotedOrNull;
          parseLoop store fuel false (<[key := store value]> acc)) p.
Proof.
  cbn [parseLoop]. unfold mbind at 1, parserM_bind at 1, getP. cbv beta iota.
  by destruct (atEnd p).
Qed.

Section ParseMap.
Context {V W : Type} (g : Text -> V) (f : Text -> W) (h : V -> W).
Hypothesis Hfg : forall t, ofValue (textValue t) = t -> f t = h (g t).

Lemma parseLoop_map fuel : forall first acc p,
  parseLoop f fuel first (h <$> acc) p
  = (outcome_map (fmap h) (fst (parseLoop g fuel first acc p)),
     snd (parseLoop g fuel first acc p)).
Proof.
  induction fuel as [|fuel IH]; intros first acc p; [done|].
  rewrite !parseLoop_S.
  destruct (atEnd p); [done|].
  unfold mbind, parserM_bind.
  destruct ((if negb first then consumePairSeparator else mret tt) p) as [[[]| | |] p1];
    try done.
  destruct (consumeExpectedByte dquote p1) as [[[]| | |] p2]; try done.
  destruct (consumeDoubleQuoted p2) as [[key| | |] p3]; try done.
  destruct (consumeKVSeparator p3) as [[[]| | |] p4]; try done.
  destruct (consumeDoubleQuotedOrNull p4) as [[value| | |] p5] eqn:Hv; try done.
  rewrite (Hfg value (consumeDoubleQuotedOrNull_normal _ _ _ Hv)).
  rewrite <- fmap_insert. apply IH.
Qed.

Lemma parseWith_map s :
  parseWith f s = outcome_map (fmap (M:=option) (fmap (M:=gmap (list ascii)) h)) (parseWith g s).
Proof.
  unfold parseWith. rewrite <- (fmap_empty h), parseLoop_map. cbn [fst].
  by destruct (fst (parseLoop g _ _ _ _)).
Qed.
End ParseMap.

Lemma parseHstoreCompat_parseHstore s :
  parseHstoreCompat s
  = outcome_map (fmap (M:=option) (fmap (M:=gmap (list ascii)) textValue)) (parseHstore s).
Proof. apply (parseWith_map (fun value => value)). done. Qed.

Lemma parseHstore_parseHstoreCompat s :
  parseHstore s = outcome_map (fmap (M:=option) PGXToFasterHstore) (parseHstoreCompat s).
Proof.
  apply (parseWith_map (fun value => if pgtype.Valid value then Some (pgtype.String value) else None)
           (fun value => value) ofValue).
  intros t Ht. exact (eq_sym Ht).
Qed.

(** ** What the parser accepts *)

Lemma notin_plain a : backslash ∉ a -> dquote ∉ a -> plain a.
Proof.
  intros Hb Hq. apply Forall_forall. intros c Hc. unfold special.
  destruct (Ascii.eqb_spec c backslash) as [->|_]; [done|].
  destruct (Ascii.eqb_spec c dquote) as [->|_]; done.
Qed.

(** The bytes the loop of [consumeDoubleQuotedWithEscapes] accepts up to the
    closing quote are the escaped form of a string. *)
Lemma escapesLoop_shape fuel : forall rest pre nb acc s p',
  escapesLoop fuel acc (mk pre rest nb) = (Ok s, p') ->
  exists t r', rest = quoteArrayReplacer_Replace t ++ dquote :: r'.
Proof.
  induction fuel as [|fuel IH]; intros rest pre nb acc s p'; [done|].
  cbn [escapesLoop]. unfold mbind at 1, parserM_bind at 1.
  destruct rest as [|c rest]; [by rewrite consume_end|].
  rewrite consume_next. cbv beta iota.
  destruct (Ascii.eqb_spec c dquote) as [->|Hq].
  { intros _. by exists [], rest. }
  destruct (Ascii.eqb_spec c backslash) as [->|Hb].
  - unfold mbind at 1, parserM_bind at 1.
    destruct rest as [|c2 rest]; [by rewrite consume_end|].
    rewrite consume_next. cbv beta iota.
    destruct (Ascii.eqb c2 backslash || Ascii.eqb c2 dquote) eqn:Hsp; cbn [negb]; [|done].
    intros (t & r' & ->)%IH. exists (c2 :: t), r'.
    rewrite Replace_cons. unfold special. by rewrite Hsp.
  - intros (t & r' & ->)%IH. exists (c :: t), r'.
    rewrite Replace_cons. unfold special.
    destruct (Ascii.eqb_spec c backslash); [done|].
    destruct (Ascii.eqb_spec c dquote); done.
Qed.

Lemma consumeDoubleQuoted_shape pre rest s p' :
  consumeDoubleQuoted (mkAt pre rest) = (Ok s, p') ->
  exists t r', rest = quoteArrayReplacer_Replace t ++ dquote :: r'.
Proof.
  unfold consumeDoubleQuoted, mkAt. step. rewrite sliceFrom_app. step.
  destruct (Z.eqb_spec (IndexByte rest dquote) (-1)) as [|Hdq]; [done|].
  destruct (IndexByte_split _ _ Hdq) as (a & r & Hrest & Ha).
  assert (Hd : IndexByte rest dquote = len a) by (rewrite Hrest; by apply IndexByte_app_hit).
  rewrite Hd. pose proof (len_nonneg a) as Ha0. pose proof (len_nonneg pre) as Hp0.
  destruct ((nbOf pre rest =? -1) || (len a + len pre <? nbOf pre rest)) eqn:Hfast.
  - intros _.
    assert (Hbs : backslash ∉ a).
    { intros Hin. unfold nbOf in Hfast.
      pose proof (IndexByte_app_in a (dquote :: r) backslash Hin) as Hj.
      rewrite <- Hrest in Hj.
      destruct (Z.eqb_spec (IndexByte rest backslash) (-1)); [lia|].
      apply orb_true_iff in Hfast as [Hf|Hf];
        [apply Z.eqb_eq in Hf|apply Z.ltb_lt in Hf]; lia. }
    exists a, r. by rewrite (plain_Replace a (notin_plain a Hbs Ha)).
  - apply orb_false_iff in Hfast as [Hnb1 Hnb2].
    apply Z.eqb_neq in Hnb1. apply Z.ltb_ge in Hnb2.
    unfold nbOf in Hnb1, Hnb2 |- *.
    destruct (Z.eqb_spec (IndexByte rest backslash) (-1)) as [|Hbs]; [done|].
    destruct (IndexByte_split _ _ Hbs) as (a1 & r1 & Hrest1 & Ha1).
    assert (Hj : IndexByte rest backslash = len a1)
      by (rewrite Hrest1; by apply IndexByte_app_hit).
    rewrite Hj in *. clear Hnb1.
    assert (Hq1 : dquote ∉ a1).
    { intros Hin. pose proof (IndexByte_app_in a1 (backslash :: r1) dquote Hin) as Hi.
      rewrite <- Hrest1, Hd in Hi. lia. }
    unfold consumeDoubleQuotedWithEscapes. step.
    rewrite (sliceRange_at (pre ++ rest) pre a1 (backslash :: r1));
      [| by rewrite Hrest1 | done | lia].
    step.
    replace {| str := pre ++ rest; pos := len a1 + len pre; nextBackslash := len a1 + len pre |}
      with (mk (pre ++ a1) (backslash :: r1) (len a1 + len pre)).
    2:{ unfold mk. rewrite <- app_assoc, <- Hrest1, len_app. f_equal. lia. }
    destruct (escapesLoop _ a1 _) as [[s0| | |] p0] eqn:Hloop; try done.
    + intros _. apply escapesLoop_shape in Hloop as (t & r' & Ht).
      exists (a1 ++ t), r'.
      rewrite Hrest1, Ht, Replace_app, (plain_Replace a1 (notin_plain a1 Ha1 Hq1)).
      by rewrite <- app_assoc.
    + step. by destruct (sliceFrom _ _).
Qed.

(** What [consumeDoubleQuoted] accepts is the escaped form of the string it
    returns, up to the closing quote. *)
Lemma consumeDoubleQuoted_inv pre rest s p' :
  consumeDoubleQuoted (mkAt pre rest) = (Ok s, p') ->
  exists r', rest = quoteArrayReplacer_Replace s ++ dquote :: r' /\
             p' = mkAt (pre ++ quoteArrayReplacer_Replace s ++ [dquote]) r'.
Proof.
  intros H. destruct (consumeDoubleQuoted_shape _ _ _ _ H) as (t & r' & ->).
  rewrite consumeDoubleQuoted_ok in H. injection H as <- <-. by exists r'.
Qed.

Lemma consumeExpected2_at_inv a b pre rest u p' :
  a <> backslash -> b <> backslash ->
  consumeExpected2 a b (mkAt pre rest) = (Ok u, p') ->
  exists r', rest = a :: b :: r' /\ p' = mkAt (pre ++ [a; b]) r'.
Proof.
  intros Ha Hb H.
  assert (Hf : fst (consumeExpected2 a b (mkAt pre rest)) = Ok u) by (by rewrite H).
  destruct rest as [|b0 [|b1 r]].
  - unfold mkAt in Hf. rewrite consumeExpected2_short in Hf by (simpl; lia). done.
  - unfold mkAt in Hf. rewrite consumeExpected2_short in Hf by (simpl; lia). done.
  - destruct (Ascii.eqb_spec b0 a) as [->|Hne0].
    + destruct (Ascii.eqb_spec b1 b) as [->|Hne1].
      * rewrite consumeExpected2_at in H by done. injection H as <-. by exists r.
      * unfold mkAt in Hf. by rewrite consumeExpected2_second in Hf.
    + unfold mkAt in Hf. by rewrite consumeExpected2_first in Hf.
Qed.

Lemma consumeExpectedByte_at_inv c pre rest u p' :
  c <> backslash ->
  consumeExpectedByte c (mkAt pre rest) = (Ok u, p') ->
  exists r', rest = c :: r' /\ p' = mkAt (pre ++ [c]) r'.
Proof.
  intros Hc H. destruct rest as [|b r].
  - unfold consumeExpectedByte, mkAt in H. unfold mbind at 1, parserM_bind at 1 in H.
    by rewrite consume_end in H.
  - destruct (Ascii.eqb_spec b c) as [->|Hne].
    + rewrite consumeExpectedByte_at in H by done. injection H as <-. by exists r.
    + unfold consumeExpectedByte, mkAt in H. unfold mbind at 1, parserM_bind at 1 in H.
      rewrite consume_next in H. cbv beta iota in H. by destruct (Ascii.eqb_spec b c).
Qed.

Lemma consumeDoubleQuotedOrNull_inv pre rest t p' :
  consumeDoubleQuotedOrNull (mkAt pre rest) = (Ok t, p') ->
  exists v r', rest = valueText v ++ r' /\ t = ofValue v /\ p' = mkAt (pre ++ valueText v) r'.
Proof.
  intros H.
  assert (exists v r', rest = valueText v ++ r') as (v & r' & ->).
  { revert H. unfold consumeDoubleQuotedOrNull.
    unfold mbind at 1, parserM_bind at 1, getP at 1. cbv beta iota.
    unfold mkAt at 1. rewrite atEnd_mk. destruct rest as [|c r]; [done|].
    unfold mbind at 1, parserM_bind at 1, liftO at 1.
    unfold mkAt at 1 2. cbn [str pos mk]. rewrite index_app.
    destruct (Ascii.eqb_spec c "N"%char) as [->|_].
    - unfold mbind at 1, parserM_bind at 1.
      destruct (consumeExpected2 "N" "U" _) as [[[]| | |] p1] eqn:E1; try done.
      apply (consumeExpected2_at_inv _ _ pre) in E1 as (r1 & [= ->] & ->); [|done..].
      unfold mbind at 1, parserM_bind at 1.
      destruct (consumeExpected2 "L" "L" _) as [[[]| | |] p2] eqn:E2; try done.
      apply consumeExpected2_at_inv in E2 as (r2 & -> & ->); [|done..].
      intros _. by exists None, r2.
    - destruct (Ascii.eqb_spec c dquote) as [->|_]; cbn [negb]; [|done].
      unfold mbind at 1, parserM_bind at 1, setPos at 1. cbn [str pos nextBackslash mk mkAt].
      replace {| str := pre ++ dquote :: r; pos := len pre + 1;
                 nextBackslash := nbOf pre (dquote :: r) |}
        with (mkAt (pre ++ [dquote]) r).
      2:{ rewrite <- (mkAt_advance pre [dquote] r) by (by intros ?%list_elem_of_singleton).
          reflexivity. }
      unfold mbind, parserM_bind.
      destruct (consumeDoubleQuoted _) as [[s| | |] p1] eqn:E; try done.
      apply consumeDoubleQuoted_inv in E as (r' & -> & _).
      intros _. exists (Some s), r'. cbn [valueText]. unfold quoted.
      by rewrite <- !app_assoc. }
  rewrite consumeDoubleQuotedOrNull_ok in H. injection H as <- <-. by exists v, r'.
Qed.

Section LoopInv.
Context {V : Type} (store : Text -> V).

(** A run of the loop that returns a mapping has read pairs in the text
    form, and nothing else. *)
Lemma parseLoop_inv fuel : forall first acc pre rest m p',
  parseLoop store fuel first acc (mkAt pre rest) = (Ok m, p') ->
  exists l, rest = pairsFrom first l /\ m = storeAll store l acc.
Proof.
  induction fuel as [|fuel IH]; intros first acc pre rest m p'; [done|].
  rewrite parseLoop_S. unfold mkAt at 1. rewrite atEnd_mk.
  destruct rest as [|c0 r0].
  { intros [= <- _]. by exists []. }
  set (rest := c0 :: r0). clearbody rest. clear c0 r0.
  unfold mbind at 1, parserM_bind at 1.
  destruct ((if negb first then consumePairSeparator else mret tt) (mkAt pre rest))
    as [[[]| | |] p1] eqn:E1; try done.
  assert (exists r1, rest = (if first then [] else pairSeparator) ++ r1 /\
                     p1 = mkAt (pre ++ (if first then [] else pairSeparator)) r1)
    as (r1 & -> & ->).
  { destruct first; cbn [negb] in E1.
    - injection E1 as <-. exists rest. by rewrite app_nil_r.
    - apply consumeExpected2_at_inv in E1 as (r1 & -> & ->); [|done..]. by exists r1. }
  clear E1.
  unfold mbind at 1, parserM_bind at 1.
  destruct (consumeExpectedByte dquote _) as [[[]| | |] p2] eqn:E2; try done.
  apply consumeExpectedByte_at_inv in E2 as (r2 & -> & ->); [|done].
  unfold mbind at 1, parserM_bind at 1.
  destruct (consumeDoubleQuoted _) as [[key| | |] p3] eqn:E3; try done.
  apply consumeDoubleQuoted_inv in E3 as (r3 & -> & ->).
  unfold mbind at 1, parserM_bind at 1.
  destruct (consumeKVSeparator _) as [[[]| | |] p4] eqn:E4; try done.
  apply consumeExpected2_at_inv in E4 as (r4 & -> & ->); [|done..].
  unfold mbind at 1, parserM_bind at 1.
  destruct (consumeDoubleQuotedOrNull _) as [[value| | |] p5] eqn:E5; try done.
  apply consumeDoubleQuotedOrNull_inv in E5 as (v & r5 & -> & -> & ->).
  intros (l & -> & ->)%IH.
  exists ((key, v) :: l). split; [|done].
  cbn [pairsFrom]. unfold pairText, quoted. cbn [fst snd].
  change (bytes "=>") with ["="%char; ">"%char].
  by rewrite <- !app_assoc.
Qed.

Lemma parseWith_inv s m :
  parseWith store s = Ok m ->
  exists l, s = hstoreText l /\ m = Some (storeAll store l ∅).
Proof.
  unfold parseWith. rewrite newHSP_mkAt.
  destruct (parseLoop store _ true ∅ (mkAt [] s)) as [[m0| | |] p'] eqn:E; try done.
  cbn [fst]. intros [= <-].
  apply parseLoop_inv in E as (l & -> & ->). exists l.
  by rewrite hstoreText_pairsFrom.
Qed.
End LoopInv.

(** ** Quoted strings that are not closed *)

(** The loop of [consumeDoubleQuotedWithEscapes] over the escaped form of [t] *)
Lemma escapesLoop_prefix t : forall fuel pre X nb acc,
  escapesLoop (length t + fuel) acc (mk pre (quoteArrayReplacer_Replace t ++ X) nb)
  = escapesLoop fuel (acc ++ t) (mk (pre ++ quoteArrayReplacer_Replace t) X nb).
Proof.
  induction t as [|c t IH]; intros fuel pre X nb acc.
  - cbn [length Nat.add app quoteArrayReplacer_Replace flat_map]. by rewrite !app_nil_r.
  - rewrite Replace_cons. unfold special.
    cbn [length Nat.add escapesLoop]. unfold mbind at 1, parserM_bind at 1.
    destruct (Ascii.eqb c backslash || Ascii.eqb c dquote) eqn:Hsp.
    + rewrite <- !app_assoc. simpl app at 1.
      rewrite consume_next. cbn beta iota.
      change (Ascii.eqb backslash dquote) with false.
      change (Ascii.eqb backslash backslash) with true. cbn iota.
      unfold mbind at 1, parserM_bind at 1. rewrite consume_next. cbn beta iota.
      rewrite Hsp. cbn [negb]. rewrite IH.
      f_equal; [by rewrite <- app_assoc|].
      f_equal. by rewrite <- !app_assoc.
    + apply orb_false_elim in Hsp as [Hb Hq].
      simpl app at 1. rewrite consume_next. cbn beta iota. rewrite Hq, Hb.
      rewrite IH. f_equal; [by rewrite <- app_assoc|].
      f_equal. by rewrite <- !app_assoc.
Qed.

Lemma escapesLoop_bad fuel pre X nb acc e :
  badTail X e ->
  exists a r, X = a ++ r /\
    escapesLoop (S fuel) acc (mk pre X nb) = (Err e, mk (pre ++ a) r nb).
Proof.
  intros [[-> ->]|[[-> ->]|(c & rest & -> & Hc & ->)]];
    cbn [escapesLoop]; unfold mbind at 1, parserM_bind at 1.
  - rewrite consume_end. exists [], []. split; [done|]. cbn. by rewrite app_nil_r.
  - rewrite consume_next. cbv beta iota.
    change (Ascii.eqb backslash dquote) with false.
    change (Ascii.eqb backslash backslash) with true. cbv iota.
    unfold mbind at 1, parserM_bind at 1. rewrite consume_end.
    by exists [backslash], [].
  - rewrite consume_next. cbv beta iota.
    change (Ascii.eqb backslash dquote) with false.
    change (Ascii.eqb backslash backslash) with true. cbv iota.
    unfold mbind at 1, parserM_bind at 1. rewrite consume_next. cbv beta iota.
    unfold special in Hc. rewrite Hc. cbn [negb].
    exists [backslash; c], rest. by rewrite <- app_assoc.
Qed.

Lemma split_plain s :
  exists s1 t, s = s1 ++ t /\ plain s1 /\
    (t = [] \/ exists c t', t = c :: t' /\ special c = true).
Proof.
  destruct (split_special s) as [Hs|(s1 & c & s2 & -> & Hs & Hc)].
  - exists s, []. rewrite app_nil_r. by repeat split; [|left].
  - exists s1, (c :: s2). repeat split; [done|]. right. by exists c, s2.
Qed.

Lemma badTail_cases X e : badTail X e -> X = [] \/ exists X', X = backslash :: X'.
Proof.
  intros [[-> _]|[[-> _]|(c & rest & -> & _)]]; [by left|right; by eexists..].
Qed.

Lemma badTail_quote X e : badTail X e -> dquote ∈ X -> exists c rest, X = backslash :: c :: rest /\ dquote ∈ rest /\ special c = false.
Proof.
  intros [[-> _]|[[-> _]|(c & rest & -> & Hc & _)]] Hin.
  - by apply elem_of_nil in Hin.
  - apply list_elem_of_singleton in Hin. discriminate.
  - exists c, rest. repeat split; [|done].
    apply elem_of_cons in Hin as [?|Hin]; [discriminate|].
    apply elem_of_cons in Hin as [<-|Hin]; [by vm_compute in Hc|done].
Qed.

(** A quoted string that does not end, or holds an escape the parser does
    not know. *)
Lemma consumeDoubleQuoted_bad pre s X e :
  badTail X e -> dquote ∈ quoteArrayReplacer_Replace s ++ X ->
  fst (consumeDoubleQuoted (mkAt pre (quoteArrayReplacer_Replace s ++ X))) = Err e.
Proof.
  intros HX Hdq.
  destruct (split_plain s) as (s1 & t & -> & Hs1 & Ht).
  destruct (plain_notin s1 Hs1) as [Hb Hq].
  rewrite Replace_app, (plain_Replace _ Hs1), <- app_assoc in Hdq |- *.
  set (T := quoteArrayReplacer_Replace t ++ X) in *.
  assert (exists T', T = backslash :: T') as [T' HT'].
  { unfold T. destruct Ht as [->|(c & t' & -> & Hc)].
    - cbn. destruct (badTail_cases X e HX) as [->|[X' ->]]; [|by eexists].
      exfalso. unfold T in Hdq. cbn in Hdq. rewrite app_nil_r in Hdq. done.
    - rewrite Replace_cons, Hc. by eexists. }
  pose proof (len_nonneg s1) as Hls. pose proof (len_nonneg pre) as Hlp.
  assert (Hnb : nbOf pre (s1 ++ T) = len pre + len s1).
  { unfold nbOf. rewrite HT'. rewrite (IndexByte_app_hit _ _ _ Hb).
    replace (len s1 =? -1) with false by (symmetry; apply Z.eqb_neq; lia). lia. }
  assert (Hdqi : len s1 < IndexByte (s1 ++ T) dquote).
  { rewrite (IndexByte_app_notin _ _ _ Hq). rewrite HT'.
    rewrite IndexByte_cons_ne by discriminate.
    assert (HJ : 0 <= IndexByte T' dquote).
    { apply IndexByte_in. apply elem_of_app in Hdq as [?|Hdq]; [done|].
      rewrite HT' in Hdq. apply elem_of_cons in Hdq as [?|?]; [discriminate|done]. }
    revert HJ. generalize (IndexByte T' dquote). intros J HJ.
    destruct (Z.eqb_spec J (-1)); [lia|].
    destruct (Z.eqb_spec (J + 1) (-1)); lia. }
  unfold consumeDoubleQuoted, mkAt. step. rewrite sliceFrom_app. step.
  rewrite Hnb.
  replace (IndexByte (s1 ++ T) dquote =? -1) with false by (symmetry; apply Z.eqb_neq; lia).
  replace (len pre + len s1 =? -1) with false by (symmetry; apply Z.eqb_neq; lia).
  replace (IndexByte (s1 ++ T) dquote + len pre <? len pre + len s1) with false
    by (symmetry; apply Z.ltb_ge; lia).
  cbn [orb].
  unfold consumeDoubleQuotedWithEscapes. step.
  rewrite sliceRange_app. step. rewrite mk_step.
  pose proof (Replace_length t) as Hrl.
  replace (S (length (pre ++ s1 ++ T)))
    with (length t + S (length (pre ++ s1 ++ T) - length t))%nat
    by (unfold T; rewrite !length_app; lia).
  unfold T at 2. rewrite escapesLoop_prefix.
  destruct (escapesLoop_bad (length (pre ++ s1 ++ T) - length t)
              ((pre ++ s1) ++ quoteArrayReplacer_Replace t) X (len pre + len s1)
              (s1 ++ t) e HX) as (a & r & -> & ->).
  step. rewrite sliceFrom_app. step. reflexivity.
Qed.

Lemma consumeDoubleQuoted_unclosed pre s X :
  X = [] \/ X = [backslash] ->
  fst (consumeDoubleQuoted (mkAt pre (quoteArrayReplacer_Replace s ++ X))) = Err ErrEOSInQuoted.
Proof.
  intros HX.
  destruct (decide (dquote ∈ quoteArrayReplacer_Replace s ++ X)) as [Hin|Hout].
  - apply consumeDoubleQuoted_bad; [|done]. destruct HX as [->| ->]; [by left|right; by left].
  - by apply consumeDoubleQuoted_unterminated.
Qed.

Lemma consumeDoubleQuotedOrNull_quoted pre body :
  consumeDoubleQuotedOrNull (mkAt pre (dquote :: body))
  = (s ← consumeDoubleQuoted; mret (NewText s)) (mkAt (pre ++ [dquote]) body).
Proof.
  unfold consumeDoubleQuotedOrNull.
  unfold mbind at 1, parserM_bind at 1, getP at 1. cbv beta iota.
  unfold mkAt at 1. rewrite atEnd_mk.
  unfold mbind at 1, parserM_bind at 1, liftO at 1.
  unfold mkAt at 1 2. cbn [str pos mk]. rewrite index_app.
  change (Ascii.eqb dquote "N") with false. rewrite Ascii.eqb_refl. cbn [negb].
  unfold mbind at 1, parserM_bind at 1, setPos at 1. cbn [str pos nextBackslash mk mkAt].
  replace {| str := pre ++ dquote :: body; pos := len pre + 1;
             nextBackslash := nbOf pre (dquote :: body) |}
    with (mkAt (pre ++ [dquote]) body); [done|].
  rewrite <- (mkAt_advance pre [dquote] body) by (by intros ?%list_elem_of_singleton).
  reflexivity.
Qed.

Section QuotedErrors.
Context {V : Type} (store : Text -> V).

Lemma pairBody_key_err body e fuel acc pre :
  (forall pre', fst (consumeDoubleQuoted (mkAt pre' body)) = Err e) ->
  fst (pairBody store fuel acc (mkAt pre (dquote :: body))) = Err e.
Proof.
  intros Herr. unfold pairBody.
  erewrite bind_ok; [|by apply consumeExpectedByte_at].
  apply bind_err, Herr.
Qed.

Lemma pairBody_value_err k body e fuel acc pre :
  (forall pre', fst (consumeDoubleQuoted (mkAt pre' body)) = Err e) ->
  fst (pairBody store fuel acc (mkAt pre (quoted k ++ bytes "=>" ++ dquote :: body))) = Err e.
Proof.
  intros Herr. rewrite pairBody_after_key.
  unfold consumeKVSeparator. change (bytes "=>" ++ dquote :: body) with ("="%char :: ">"%char :: dquote :: body).
  erewrite bind_ok; [|by apply consumeExpected2_at].
  apply bind_err. rewrite consumeDoubleQuotedOrNull_quoted. apply bind_err, Herr.
Qed.

(** A quoted string, as a key or as a value, on which [consumeDoubleQuoted]
    fails makes the parse fail with the same error. *)
Lemma parse_quoted_err l body e :
  (forall pre', fst (consumeDoubleQuoted (mkAt pre' body)) = Err e) ->
  parseWith store (pairsThen l (dquote :: body)) = Err e /\
  forall k, parseWith store (pairsThen l (quoted k ++ bytes "=>" ++ dquote :: body)) = Err e.
Proof.
  intros Herr. split.
  - apply parse_next_pair; [done|]. intros fuel acc pre. by apply pairBody_key_err.
  - intros k. apply parse_next_pair; [by destruct k|].
    intros fuel acc pre. by apply pairBody_value_err.
Qed.
End QuotedErrors.

(** ** Plans *)

Section PlanSafe.
Variable range : forall V : Type, gmap (list ascii) V -> list (list ascii * V).

Lemma PlanEncode_Encode c format value buf plan :
  PlanEncode c format value = Some plan ->
  succeeds (EncodePlan_Encode range (Some plan) value buf).
Proof.
  intros H.
  destruct c, value; cbn [PlanEncode isHstoreValuer isHstoreCompatValuer negb] in H;
    try discriminate;
    (destruct (format =? BinaryFormatCode);
       [injection H as <-
       |destruct (format =? TextFormatCode); [injection H as <-|discriminate]]);
    cbn [EncodePlan_Encode];
    unfold encodePlanHstoreCodecBinary_Encode, encodePlanHstoreCodecText_Encode,
      encodePlanHstoreCompatCodecBinary_Encode, encodePlanHstoreCompatCodecText_Encode;
    cbn [HstoreValue HstoreCompatValue mbind outcome_bind obind]; by destruct h.
Qed.
End PlanSafe.

Lemma obind_asserts {A B} (m : outcome A) (k : A -> outcome B) :
  ~ assertionFails m -> (forall a, ~ assertionFails (k a)) -> ~ assertionFails (m ≫= k).
Proof.
  unfold assertionFails, mbind, outcome_bind. intros Hm Hk.
  destruct m as [a| |p|]; cbn [obind]; [apply Hk|done| |done].
  intros [= ->]. by apply Hm.
Qed.

Lemma sliceFrom_asserts {A} (s : list A) i : ~ assertionFails (sliceFrom s i).
Proof. unfold assertionFails, sliceFrom. by destruct (_ && _). Qed.

Lemma sliceRange_asserts {A} (s : list A) i j : ~ assertionFails (sliceRange s i j).
Proof. unfold assertionFails, sliceRange. by destruct (_ && _ && _). Qed.

Lemma Uint32_asserts b : ~ assertionFails (Uint32 b).
Proof. unfold assertionFails. by destruct b as [|? [|? [|? [|? ?]]]]. Qed.

Lemma scanPair_asserts {V} (present : gostring -> V) absent src kvs st :
  ~ assertionFails (scanPair present absent src kvs st).
Proof.
  destruct st as [rp acc]. unfold scanPair.
  repeat first
    [ apply obind_asserts;
        [first [apply sliceFrom_asserts | apply sliceRange_asserts | apply Uint32_asserts]
        |intros ?]
    | match goal with |- ~ assertionFails (if ?c then _ else _) => destruct c end
    | (unfold assertionFails; discriminate) ].
Qed.

Lemma scanPairs_asserts {V} (present : gostring -> V) absent n src kvs : forall st,
  ~ assertionFails (scanPairs present absent n src kvs st).
Proof.
  induction n as [|n IH]; intros st; [done|]. cbn [scanPairs].
  apply obind_asserts; [apply scanPair_asserts|apply IH].
Qed.

Lemma scanBinary_asserts {V} (present : gostring -> V) absent mk src :
  ~ assertionFails (scanBinary present absent mk src).
Proof.
  destruct src as [b|]; [|done]. unfold scanBinary.
  repeat first
    [ apply obind_asserts;
        [first [apply sliceFrom_asserts | apply sliceRange_asserts | apply Uint32_asserts]
        |intros ?]
    | match goal with |- ~ assertionFails (if ?c then _ else _) => destruct c end
    | (unfold assertionFails; discriminate) ].
  apply obind_asserts; [apply scanPairs_asserts|]. by intros [rp acc].
Qed.

(** ** Conversions and the normal form of values *)

Lemma fold_left_same {A B} (f g : A -> B -> A) l :
  (forall a b, f a b = g a b) -> forall a, fold_left f l a = fold_left g l a.
Proof.
  intros Hfg. induction l as [|b l IH]; intros a; [done|]. cbn [fold_left].
  by rewrite Hfg, IH.
Qed.

(** Storing every entry of a map, in any order, under a function of the value *)
Lemma fold_insert_fmap {A B} (f : A -> B) (m : gmap (list ascii) A) l :
  l ≡ₚ map_to_list m ->
  fold_left (fun acc kv => <[fst kv := f (snd kv)]> acc) l ∅ = f <$> m.
Proof.
  intros Hl. apply map_eq. intros k. rewrite lookup_fmap.
  assert (Hnd : NoDup l.*1) by (rewrite Hl; apply NoDup_fst_map_to_list).
  assert (Hnotin : forall (l : list (list ascii * A)) (acc : gmap (list ascii) B) k, k ∉ l.*1 ->
            fold_left (fun acc kv => <[fst kv := f (snd kv)]> acc) l acc !! k = acc !! k).
  { clear. induction l as [|[k' v'] l IH]; intros acc k Hk; [done|].
    cbn [fmap list_fmap fst] in Hk. apply not_elem_of_cons in Hk as [Hne Hk].
    cbn [fold_left fst snd]. rewrite (IH _ _ Hk). by rewrite lookup_insert_ne. }
  destruct (m !! k) as [v|] eqn:Hm; cbn [fmap option_fmap option_map].
  - assert (Hin : (k, v) ∈ l) by (rewrite Hl; by apply elem_of_map_to_list).
    apply list_elem_of_split in Hin as (l1 & l2 & ->).
    rewrite fold_left_app. cbn [fold_left fst snd].
    rewrite Hnotin; [apply lookup_insert_eq|].
    rewrite fmap_app in Hnd. apply NoDup_app in Hnd as (_ & _ & Hnd).
    cbn [fmap list_fmap fst] in Hnd. by apply NoDup_cons in Hnd as [? _].
  - rewrite Hnotin; [done|].
    intros ([k' v'] & Heq & Hin)%list_elem_of_fmap. cbn [fst] in Heq. subst k'.
    rewrite Hl in Hin. apply elem_of_map_to_list in Hin. congruence.
Qed.

Lemma PGXToFasterHstoreLoop_Some range m :
  rangeOK range -> PGXToFasterHstoreLoop range (Some m) = Some (PGXToFasterHstore m).
Proof.
  intros Hrange. unfold PGXToFasterHstoreLoop, PGXToFasterHstore. f_equal.
  rewrite <- (fold_insert_fmap _ m (range _ m) (Hrange _ m)).
  apply fold_left_same. intros acc [k [s|]]; reflexivity.
Qed.

Lemma fasterToOrig_Some range h :
  rangeOK range -> fasterToOrig range (Some h) = Some (textValue <$> h).
Proof.
  intros Hrange. unfold fasterToOrig. f_equal.
  rewrite <- (fold_insert_fmap _ h (range _ h) (Hrange _ h)).
  apply fold_left_same. intros acc [k v]. unfold textValue. cbn [fst snd].
  by destruct (pgtype.Valid v).
Qed.

Lemma normalText_fixed v : normalText v = v <-> (pgtype.Valid v = false -> pgtype.String v = []).
Proof.
  destruct v as [s [|]]; unfold normalText, textValue, ofValue, NewText; cbn; split.
  - done.
  - done.
  - by intros [= <-].
  - intros ->; done.
Qed.

Lemma fmap_fixed {A} (f : A -> A) (m : gmap (list ascii) A) :
  f <$> m = m <-> map_Forall (fun _ v => f v = v) m.
Proof.
  split.
  - intros Hm k v Hk. assert (H : (f <$> m) !! k = Some v) by (by rewrite Hm).
    rewrite lookup_fmap, Hk in H. by injection H.
  - intros Hm. apply map_eq. intros k. rewrite lookup_fmap.
    destruct (m !! k) as [v|] eqn:Hk; [|done]. cbn. f_equal. by apply (Hm k).
Qed.

Lemma logical_list (h : gmap (list ascii) Text) order :
  order ≡ₚ map_to_list h -> logical <$> order ≡ₚ map_to_list (textValue <$> h).
Proof.
  intros ->. rewrite map_to_list_fmap.
  apply Permutation_refl'. apply list_fmap_ext. by intros i [k v] _.
Qed.

Lemma storeAll_logical (h : gmap (list ascii) Text) order :
  order ≡ₚ map_to_list h ->
  storeAll (fun value => value) (logical <$> order) ∅ = normalText <$> h.
Proof.
  intros Ho. rewrite (storeAll_map _ (textValue <$> h) _ (logical_list h order Ho)).
  by rewrite <- map_fmap_compose.
Qed.

(** ** The cache of the parser *)

Lemma cacheOK_mkAt pre rest : cacheOK (mkAt pre rest).
Proof.
  unfold cacheOK, mkAt, mk, nbOf. cbn [str pos nextBackslash].
  pose proof (len_nonneg pre). pose proof (len_nonneg rest).
  split; [rewrite len_app; lia|].
  replace (Z.to_nat (len pre)) with (length pre) by (unfold len; lia).
  rewrite drop_app_length. reflexivity.
Qed.

Lemma cacheOK_inv p :
  cacheOK p ->
  p = mkAt (take (Z.to_nat (pos p)) (str p)) (drop (Z.to_nat (pos p)) (str p)).
Proof.
  destruct p as [s i nb]. unfold cacheOK, mkAt, mk, nbOf. cbn [str pos nextBackslash].
  intros [Hi ->]. rewrite take_drop. f_equal.
  - unfold len in *. rewrite length_take. lia.
  - unfold len in *. rewrite length_take.
    replace (Z.of_nat (Z.to_nat i `min` length s)) with i by lia. reflexivity.
Qed.

Lemma staysAt_advances {A} pre rest (r : outcome A * hstoreParser) x p' :
  staysAt pre rest true r -> r = (Ok x, p') -> advances (mkAt pre rest) p'.
Proof.
  intros H ->. destruct H as (a & r' & -> & -> & Ha). specialize (Ha eq_refl).
  split; [|split].
  - unfold mkAt, mk. cbn [str]. by rewrite <- app_assoc.
  - unfold mkAt, mk. cbn [pos]. rewrite len_app. destruct a as [|c a]; [done|].
    rewrite len_cons. pose proof (len_nonneg a). lia.
  - apply cacheOK_mkAt.
Qed.

(** ** The scans of both representations *)

Lemma scanBinaryHstore_junk l junk :
  len l < 2 ^ 31 -> Forall fits32 l ->
  scanBinaryHstore (Some (hstoreBinary l ++ junk))
  = Ok (Some (storeAll (fun value => value) l ∅)).
Proof.
  intros Hn Hl. unfold scanBinaryHstore. rewrite scanBinary_junk by done.
  by rewrite (conv_storeAll _ _ (fun value => value)) by (by intros [s|]).
Qed.

Lemma scanBinaryHstoreCompat_junk l junk :
  len l < 2 ^ 31 -> Forall fits32 l ->
  scanBinaryHstoreCompat (Some (hstoreBinary l ++ junk))
  = Ok (Some (storeAll compatStore l ∅)).
Proof.
  intros Hn Hl. unfold scanBinaryHstoreCompat. rewrite scanBinary_junk by done.
  by rewrite (conv_storeAll _ _ compatStore) by (by intros [s|]).
Qed.

Lemma fits32_pairs_k_v : Forall fits32 pairs_k_v.
Proof. repeat constructor; vm_compute; congruence. Defined.

Lemma fits32_pairs_k1_k2 : Forall fits32 pairs_k1_k2.
Proof. repeat constructor; vm_compute; congruence. Defined.

Section Count.
Context {V : Type} (present : gostring -> V) (absent : V).

Lemma scanBinary_no_pairs mkStrings n rest :
  - 2 ^ 31 <= n <= 0 ->
  scanBinary present absent mkStrings (Some (be32 n ++ rest))
  = if mkStrings && (n <? 0) then Panic MakesliceLenOutOfRange else Ok (Some ∅).
Proof.
  intros Hn. unfold scanBinary.
  rewrite (sliceFrom_at (be32 n ++ rest) [] (be32 n ++ rest) 0) by done.
  cbn [mbind outcome_bind obind]. rewrite len_app, len_be32.
  pose proof (len_nonneg rest).
  replace (4 + len rest <? uint32Len) with false
    by (symmetry; apply Z.ltb_ge; unfold uint32Len; lia).
  rewrite Uint32_be32. cbn [mbind outcome_bind obind].
  rewrite int32_of_uint32_int32 by lia.
  destruct (mkStrings && (n <? 0)); [done|].
  rewrite (sliceFrom_at (be32 n ++ rest) (be32 n) rest (0 + uint32Len)) by done.
  cbn [mbind outcome_bind obind].
  replace (Z.to_nat n) with 0%nat by lia. reflexivity.
Qed.

Lemma scanBinary_negative b u :
  4 <= len b -> Uint32 b = Ok u -> int32_of_uint32 u < 0 ->
  scanBinary present absent false (Some b) = Ok (Some ∅).
Proof.
  intros Hb Hu Hneg. unfold scanBinary.
  rewrite (sliceFrom_at b [] b 0) by done.
  cbn [mbind outcome_bind obind].
  replace (len b <? uint32Len) with false
    by (symmetry; apply Z.ltb_ge; unfold uint32Len; lia).
  rewrite Hu. cbn [mbind outcome_bind obind andb].
  unfold sliceFrom.
  replace ((0 <=? 0 + uint32Len) && (0 + uint32Len <=? len b)) with true.
  2:{ symmetry. apply andb_true_iff. split; apply Z.leb_le; unfold uint32Len; lia. }
  cbn [mbind outcome_bind obind].
  replace (Z.to_nat (int32_of_uint32 u)) with 0%nat by lia. reflexivity.
Qed.
End Count.

(** ** What the scans and the decoders return *)

Lemma parseWith_Some {V} (store : Text -> V) s h : parseWith store s = Ok h -> h <> None.
Proof. unfold parseWith. by destruct (fst _); intros [= <-]. Qed.

Lemma scanBinary_Some {V} (present : gostring -> V) absent mk b h :
  scanBinary present absent mk (Some b) = Ok h -> h <> None.
Proof.
  unfold scanBinary, mbind, outcome_bind.
  destruct (sliceFrom b 0) as [rest| | |]; cbn [obind]; try done.
  destruct (len rest <? uint32Len); try done.
  destruct (Uint32 rest) as [u| | |]; cbn [obind]; try done.
  destruct (mk && _); try done.
  destruct (sliceFrom b _) as [kvs| | |]; cbn [obind]; try done.
  destruct (scanPairs _ _ _ _ _ _) as [[rp acc]| | |]; cbn [obind]; try done.
  by intros [= <-].
Qed.

Lemma DecodeValue_text b :
  DecodeValue HstoreCodec TextFormatCode (Some b) = outcome_map anyHstore (parseHstore b).
Proof.
  unfold DecodeValue, codecScan. cbn [PlanScan Z.eqb TextFormatCode BinaryFormatCode
    isHstoreScanner ScanPlan_Scan]. unfold scanStringHstore.
  by destruct (parseHstore b).
Qed.

Lemma DecodeValue_binary b :
  DecodeValue HstoreCodec BinaryFormatCode (Some b)
  = outcome_map anyHstore (scanBinaryHstore (Some b)).
Proof.
  unfold DecodeValue, codecScan. cbn [PlanScan Z.eqb BinaryFormatCode Pos.eqb
    isHstoreScanner ScanPlan_Scan].
  by destruct (scanBinaryHstore (Some b)).
Qed.

(** ** Round trips *)

Section RoundTrip.
Variable range : forall V : Type, gmap (list ascii) V -> list (list ascii * V).
Hypothesis Hrange : rangeOK range.

Lemma text_round_trip_Hstore (h : gmap (list ascii) Text) buf :
  lenSlice buf = 0 ->
  exists out : byteslice,
    encodePlanHstoreCodecText_Encode range (anyHstore (Some h)) buf = Ok out /\
    stringOfSlice out = hstoreText (logical <$> range _ h) /\
    parseHstore (stringOfSlice out) = Ok (Some (normalText <$> h)).
Proof.
  intros Hbuf. eexists. split; [apply (Encode_text_Hstore range)|].
  rewrite stringOfSlice_append by done. split; [done|].
  rewrite parseHstore_text. by rewrite (storeAll_logical h _ (Hrange _ h)).
Qed.
End RoundTrip.

(** ** The entries of a parsed mapping *)

Section Entries.
Context {V : Type} (store : Text -> V).

Lemma entries_fst l : (entries store l).*1 = l.*1.
Proof. unfold entries. rewrite <- list_fmap_compose. by apply list_fmap_ext. Qed.

Lemma storeAll_insert l : forall acc k x,
  k ∉ l.*1 -> storeAll store l (<[k := x]> acc) = <[k := x]> (storeAll store l acc).
Proof.
  induction l as [|[k' v'] l IH]; intros acc k x Hk; [done|].
  cbn [fmap list_fmap fst] in Hk. apply not_elem_of_cons in Hk as [Hne Hk].
  change (storeAll store ((k', v') :: l) ?a)
    with (storeAll store l (<[k' := store (ofValue v')]> a)).
  rewrite <- (IH _ _ _ Hk). f_equal. by apply insert_insert_ne.
Qed.

(** With no key given twice, the pairs of [l] are the entries of the map
    they build. *)
Lemma storeAll_entries l :
  NoDup l.*1 -> entries store l ≡ₚ map_to_list (storeAll store l ∅).
Proof.
  induction l as [|[k v] l IH]; intros Hnd.
  - cbn. by rewrite map_to_list_empty.
  - cbn [fmap list_fmap fst] in Hnd. apply NoDup_cons in Hnd as [Hk Hnd].
    change (storeAll store ((k, v) :: l) ∅)
      with (storeAll store l (<[k := store (ofValue v)]> ∅)).
    rewrite storeAll_insert by done.
    rewrite map_to_list_insert.
    + cbn [entries fmap list_fmap fst snd]. constructor. by apply IH.
    + by rewrite storeAll_notin.
Qed.
End Entries.

Lemma logical_entries l : logical <$> entries (fun value : Text => value) l = l.
Proof.
  unfold entries. rewrite <- list_fmap_compose. rewrite <- (list_fmap_id l) at 2.
  apply list_fmap_ext. intros i [k v] _. unfold compose, logical. cbn [fst snd].
  by rewrite textValue_ofValue.
Qed.

Lemma compat_entries l : entries compatStore l = l.
Proof.
  unfold entries. rewrite <- (list_fmap_id l) at 2.
  apply list_fmap_ext. intros i [k v] _. cbn [fst snd]. by rewrite compatStore_ofValue.
Qed.

(** ** Absent values in binary sources *)

Section Absent.
Context {V : Type} (present : gostring -> V) (absent : V).

Lemma scanPair_absent hdr done k vlen rest acc :
  len hdr = 4 -> len k < 2 ^ 31 -> - 2 ^ 31 <= vlen < 0 ->
  scanPair present absent (hdr ++ done ++ pairBinaryAbsent k vlen ++ rest)
           (done ++ pairBinaryAbsent k vlen ++ rest) (len hdr + len done, acc)
  = Ok (len hdr + len (done ++ pairBinaryAbsent k vlen), <[k := absent]> acc).
Proof.
  intros Hh Hk Hv.
  pose proof (len_nonneg k) as Hk0. pose proof (len_nonneg done) as Hd0.
  pose proof (len_nonneg rest) as Hr0.
  unfold scanPair, pairBinaryAbsent.
  rewrite <- !app_assoc.
  set (KB := be32 (int32 (len k))).
  assert (HKB : len KB = 4) by apply len_be32.
  set (VB := be32 vlen). assert (HVB : len VB = 4) by apply len_be32.
  set (src := hdr ++ done ++ KB ++ k ++ VB ++ rest).
  set (kvs := done ++ KB ++ k ++ VB ++ rest).
  rewrite (sliceFrom_at src (hdr ++ done) (KB ++ k ++ VB ++ rest) (len hdr + len done));
    [| by unfold src; rewrite <- !app_assoc | by rewrite len_app].
  cbn [mbind outcome_bind obind]. rewrite !len_app, HKB, HVB.
  replace (4 + (len k + (4 + len rest)) <? uint32Len) with false
    by (symmetry; apply Z.ltb_ge; unfold uint32Len; lia).
  unfold KB at 1. rewrite Uint32_be32. cbn [mbind outcome_bind obind].
  rewrite int32_of_uint32_int32 by apply int32_range. rewrite int32_small by lia.
  rewrite (sliceFrom_at src (hdr ++ done ++ KB) (k ++ VB ++ rest)
             (len hdr + len done + uint32Len));
    [| by unfold src; rewrite <- !app_assoc
     | rewrite !len_app, HKB; unfold uint32Len; lia].
  cbn [mbind outcome_bind obind]. rewrite !len_app, HVB.
  replace (len k + (4 + len rest) <? len k) with false
    by (symmetry; apply Z.ltb_ge; lia).
  rewrite (sliceRange_at kvs (done ++ KB) k (VB ++ rest)
             (len hdr + len done + uint32Len - uint32Len)
             (len hdr + len done + uint32Len - uint32Len + len k));
    [| by unfold kvs; rewrite <- !app_assoc
     | rewrite !len_app, HKB; unfold uint32Len; lia
     | rewrite !len_app, HKB; unfold uint32Len; lia].
  cbn [mbind outcome_bind obind].
  rewrite (sliceFrom_at src (hdr ++ done ++ KB ++ k) (VB ++ rest)
             (len hdr + len done + uint32Len + len k));
    [| by unfold src; rewrite <- !app_assoc
     | rewrite !len_app, HKB; unfold uint32Len; lia].
  cbn [mbind outcome_bind obind]. rewrite len_app, HVB.
  replace (4 + len rest <? uint32Len) with false
    by (symmetry; apply Z.ltb_ge; unfold uint32Len; lia).
  unfold VB at 1. rewrite Uint32_be32. cbn [mbind outcome_bind obind].
  rewrite int32_of_uint32_int32 by lia.
  replace (0 <=? vlen) with false by (symmetry; apply Z.leb_gt; lia).
  f_equal. f_equal. unfold uint32Len. lia.
Qed.

(** The scan of pairs among which one writes its absent value with any
    negative length *)
Lemma scanBinary_absent mkStrings l1 k vlen l2 junk :
  len (l1 ++ (k, None) :: l2) < 2 ^ 31 -> Forall fits32 (l1 ++ (k, None) :: l2) ->
  - 2 ^ 31 <= vlen < 0 ->
  scanBinary present absent mkStrings
    (Some (be32 (len (l1 ++ (k, None) :: l2)) ++ flat_map pairBinary l1 ++
           pairBinaryAbsent k vlen ++ flat_map pairBinary l2 ++ junk))
  = Ok (Some (fold_left (fun m kv => <[fst kv := conv present absent (snd kv)]> m)
                (l1 ++ (k, None) :: l2) ∅)).
Proof.
  intros Hn Hl Hv. pose proof (len_nonneg (l1 ++ (k, None) :: l2)) as Hn0.
  apply Forall_app in Hl as [Hl1 Hl2]. apply Forall_cons in Hl2 as [[Hk _] Hl2].
  cbn [fst] in Hk.
  set (n := len (l1 ++ (k, None) :: l2)) in *.
  rewrite scanBinary_count by lia.
  replace (Z.to_nat n) with (length l1 + (1 + length l2))%nat
    by (unfold n, len; rewrite length_app; simpl; lia).
  rewrite (scanPairs_prefix present absent l1 _ _ Hl1 (be32 n) (len_be32 _)).
  rewrite scanPairs_app. cbn [scanPairs mbind outcome_bind obind].
  pose proof (scanPair_absent (be32 n) (flat_map pairBinary l1) k vlen
                (flat_map pairBinary l2 ++ junk)
                (fold_left (fun m kv => <[fst kv := conv present absent (snd kv)]> m) l1 ∅)
                (len_be32 n) Hk Hv) as Hp.
  rewrite len_be32 in Hp. rewrite Hp. cbn [scanPairs mbind outcome_bind obind].
  pose proof (scanPairs_ok present absent l2 (be32 n)
                (flat_map pairBinary l1 ++ pairBinaryAbsent k vlen) junk
                (<[k := absent]>
                   (fold_left (fun m kv => <[fst kv := conv present absent (snd kv)]> m) l1 ∅))
                (len_be32 n) Hl2) as Hs.
  rewrite len_be32 in Hs. rewrite <- ?app_assoc in Hs.
  rewrite Hs. cbn [mbind outcome_bind obind]. rewrite fold_left_app. reflexivity.
Qed.
End Absent.

(** ** What the writers return *)

Lemma append_Some b xs : append (Some b) xs = Some (b ++ xs).
Proof. reflexivity. Qed.

Lemma hstoreText_starts kv l : exists t, hstoreText (kv :: l) = dquote :: t.
Proof.
  unfold hstoreText. destruct l; cbn [map join]; unfold pairText, quoted; cbn [app];
    eexists; reflexivity.
Qed.

Lemma append_None_hstoreText l :
  l <> [] -> append None (hstoreText l) = Some (hstoreText l).
Proof.
  destruct l as [|kv l]; [done|]. intros _.
  destruct (hstoreText_starts kv l) as [t ->]. reflexivity.
Qed.

Lemma ranges_nonempty {V} (m : gmap (list ascii) V) order :
  ranges m order -> m <> ∅ -> order <> [].
Proof.
  intros Hr Hm ->. unfold ranges in Hr.
  apply Permutation_nil in Hr. by apply map_to_list_empty_iff in Hr.
Qed.

Lemma len_bigValue : len bigValue = 2 ^ 32 - 1.
Proof. unfold len, bigValue. rewrite repeat_length. apply Z2Nat.id. lia. Qed.

Lemma pairBinary_fields kv : fits32 kv -> pairBinary kv = pairFields kv.
Proof.
  destruct kv as [k v]. unfold fits32, pairBinary, pairFields. cbn [fst snd].
  intros [Hk Hv]. pose proof (len_nonneg k). rewrite (int32_small (len k)) by lia.
  destruct v as [s|]; [|done].
  pose proof (len_nonneg s). by rewrite (int32_small (len s)) by lia.
Qed.

Lemma flat_map_pairBinary_fields l :
  Forall fits32 l -> flat_map pairBinary l = flat_map pairFields l.
Proof.
  induction 1 as [|kv l Hkv _ IH]; [done|].
  cbn [flat_map]. by rewrite IH, pairBinary_fields.
Qed.

Lemma append_None_be32 n xs : append None (be32 n ++ xs) = Some (be32 n ++ xs).
Proof. reflexivity. Qed.

(** ** A codec reads back what it writes, format by format *)

Lemma FormatSupported_cases (c : Codec) (format : Z) :
  FormatSupported c format = true -> format = TextFormatCode \/ format = BinaryFormatCode.
Proof.
  unfold FormatSupported. intros [H|H]%orb_true_iff; apply Z.eqb_eq in H; [by left|by right].
Qed.

Section PlanRoundTrip.
Variable range : forall V : Type, gmap (list ascii) V -> list (list ascii * V).
Hypothesis Hrange : rangeOK range.

Lemma codec_round_trip_Hstore (format : Z) (m : gmap (list ascii) (option (list ascii))) :
  FormatSupported HstoreCodec format = true ->
  Z.of_nat (size m) < 2 ^ 31 -> map_Forall (fun k v => fits32 (k, v)) m ->
  exists (plan : EncodePlan) (out : byteslice),
    PlanEncode HstoreCodec format (anyHstore (Some (PGXToFasterHstore m))) = Some plan /\
    EncodePlan_Encode range (Some plan) (anyHstore (Some (PGXToFasterHstore m))) (Some [])
      = Ok out /\
    forall h0 : Hstore,
      codecScan HstoreCodec format out (anyPtrHstore h0)
      = Ok (anyPtrHstore (Some (PGXToFasterHstore m))).
Proof.
  intros Hf Hsize Hfits.
  pose proof (logical_range m _ (Hrange _ (PGXToFasterHstore m))) as Hl.
  set (l := logical <$> range Text (PGXToFasterHstore m)) in *.
  destruct (FormatSupported_cases _ _ Hf) as [-> | ->].
  - exists encodePlanHstoreCodecText, (Some (hstoreText l)).
    split; [reflexivity|]. split.
    + cbn [EncodePlan_Encode]. by rewrite Encode_text_Hstore, append_Some.
    + intros h0. unfold codecScan.
      change (PlanScan HstoreCodec TextFormatCode (anyPtrHstore h0))
        with (Some scanPlanTextAnyToHstoreScanner).
      cbn [ScanPlan_Scan isHstoreScanner]. unfold scanStringHstore.
      rewrite parseHstore_text. cbn [mbind outcome_bind obind ScanHstore].
      by rewrite (PGXToFasterHstore_storeAll m).
  - exists encodePlanHstoreCodecBinary, (Some (hstoreBinary l)).
    split; [reflexivity|]. split.
    + cbn [EncodePlan_Encode]. rewrite Encode_binary_Hstore, append_Some.
      unfold hstoreBinary. fold l. rewrite (len_range m l Hl).
      unfold PGXToFasterHstore. by rewrite map_size_fmap.
    + intros h0. unfold codecScan.
      change (PlanScan HstoreCodec BinaryFormatCode (anyPtrHstore h0))
        with (Some scanPlanBinaryHstoreToHstoreScanner).
      cbn [ScanPlan_Scan isHstoreScanner].
      rewrite <- (app_nil_r (hstoreBinary l)).
      rewrite scanBinaryHstore_junk;
        [| rewrite (len_range m l Hl); lia | by apply (fits32_range m)].
      cbn [mbind outcome_bind obind ScanHstore].
      by rewrite (PGXToFasterHstore_storeAll m).
Qed.

Lemma codec_round_trip_Compat (format : Z) (m : gmap (list ascii) (option (list ascii))) :
  FormatSupported HstoreCompatCodec format = true ->
  Z.of_nat (size m) < 2 ^ 31 -> map_Forall (fun k v => fits32 (k, v)) m ->
  exists (plan : EncodePlan) (out : byteslice),
    PlanEncode HstoreCompatCodec format (anyHstoreCompat (Some m)) = Some plan /\
    EncodePlan_Encode range (Some plan) (anyHstoreCompat (Some m)) (Some []) = Ok out /\
    forall h0 : HstoreCompat,
      codecScan HstoreCompatCodec format out (anyPtrHstoreCompat h0)
      = Ok (anyPtrHstoreCompat (Some m)).
Proof.
  intros Hf Hsize Hfits.
  pose proof (Hrange _ m) as Hl. unfold ranges in Hl.
  set (l := range (option (list ascii)) m) in *.
  destruct (FormatSupported_cases _ _ Hf) as [-> | ->].
  - exists encodePlanHstoreCompatCodecText, (Some (hstoreText l)).
    split; [reflexivity|]. split.
    + cbn [EncodePlan_Encode]. by rewrite Encode_text_Compat, append_Some.
    + intros h0. unfold codecScan.
      change (PlanScan HstoreCompatCodec TextFormatCode (anyPtrHstoreCompat h0))
        with (Some scanPlanTextAnyToHstoreCompatScanner).
      cbn [ScanPlan_Scan isHstoreCompatScanner]. unfold scanStringHstoreCompat.
      rewrite parseHstoreCompat_text. cbn [mbind outcome_bind obind ScanHstoreCompat].
      by rewrite (compat_storeAll m).
  - exists encodePlanHstoreCompatCodecBinary, (Some (hstoreBinary l)).
    split; [reflexivity|]. split.
    + cbn [EncodePlan_Encode]. rewrite Encode_binary_Compat, append_Some.
      unfold hstoreBinary. fold l. by rewrite (len_range m l Hl).
    + intros h0. unfold codecScan.
      change (PlanScan HstoreCompatCodec BinaryFormatCode (anyPtrHstoreCompat h0))
        with (Some scanPlanBinaryHstoreToHstoreCompatScanner).
      cbn [ScanPlan_Scan isHstoreCompatScanner].
      rewrite <- (app_nil_r (hstoreBinary l)).
      rewrite scanBinaryHstoreCompat_junk;
        [| rewrite (len_range m l Hl); lia | by apply (fits32_range m)].
      cbn [mbind outcome_bind obind ScanHstoreCompat].
      by rewrite (compat_storeAll m).
Qed.
End PlanRoundTrip.

Lemma unsupported_format_no_plan (c : Codec) (format : Z) :
  FormatSupported c format = false ->
  (forall value : any, PlanEncode c format value = None) /\
  (forall (src : byteslice) (dst : any), codecScan c format src dst = Err ErrPlanScanNotFound).
Proof.
  unfold FormatSupported. intros [Ht Hb]%orb_false_iff. split.
  - intros value. unfold PlanEncode. rewrite Ht, Hb.
    destruct c; [by destruct (isHstoreValuer value)|by destruct (isHstoreCompatValuer value)].
  - intros src dst. unfold codecScan, PlanScan. rewrite Ht, Hb. by destruct c.
Qed.

(** ** The claims *)

(** C1. The binary reader checks the remaining length before the pair
    count, before each key length, before the key bytes and before each
    value length, but not before the value bytes, and it does not reject a
    negative key length: on an input cut off inside the value bytes (and on
    a negative key length) both binary scans panic with a slice bounds
    error instead of returning the truncation error; on a negative pair
    count the scan of [HstoreCompat] panics and the scan of [Hstore] returns
    the empty mapping. *)
Theorem C1_truncated_value_panics :
  scanBinaryHstore (Some truncatedValue) = Panic SliceBoundsOutOfRange /\
  scanBinaryHstoreCompat (Some truncatedValue) = Panic SliceBoundsOutOfRange /\
  ScanPlan_Scan scanPlanBinaryHstoreToHstoreScanner (Some truncatedValue) (anyPtrHstore None)
    = Panic SliceBoundsOutOfRange /\
  ScanPlan_Scan scanPlanBinaryHstoreToHstoreCompatScanner (Some truncatedValue)
    (anyPtrHstoreCompat None) = Panic SliceBoundsOutOfRange /\
  scanBinaryHstore (Some negativeKeyLen) = Panic SliceBoundsOutOfRange /\
  scanBinaryHstoreCompat (Some negativePairCount) = Panic MakesliceLenOutOfRange /\
  scanBinaryHstore (Some negativePairCount) = Ok (Some ∅).
Proof. repeat split; vm_compute; reflexivity. Qed.

(** C2 fails for a key of 2^31 bytes: the binary encoder writes its length
    as the 32-bit integer -2^31, and scanning the encoding panics. *)
Lemma C2_big_key_counterexample :
  exists out : byteslice,
    encodePlanHstoreCompatCodecBinary_Encode (fun V => map_to_list)
      (anyHstoreCompat (Some bigKeyMap)) None = Ok out /\
    ScanPlan_Scan scanPlanBinaryHstoreToHstoreCompatScanner out (anyPtrHstoreCompat None)
    = Panic SliceBoundsOutOfRange.
Proof.
  exists (Some (be32 (int32 1) ++ be32 (int32 (len bigKey)) ++ bigKey ++ be32 (-1))).
  split.
  - unfold encodePlanHstoreCompatCodecBinary_Encode.
    cbn [HstoreCompatValue mbind outcome_bind obind].
    rewrite binaryPairCompat_fold. unfold bigKeyMap.
    rewrite map_size_singleton, map_to_list_singleton.
    cbn [flat_map]. unfold pairBinary. cbn [fst snd]. rewrite app_nil_r.
    reflexivity.
  - cbn [ScanPlan_Scan isHstoreCompatScanner]. unfold scanBinaryHstoreCompat.
    rewrite scanBinary_key_overflow by apply len_bigKey. reflexivity.
Qed.

(** C2, as amended.  For every mapping [m], in both representations,
    parsing the text encoding gives back [m]; and when [m] has fewer than
    2^31 pairs and every key and value is shorter than 2^31 bytes, scanning
    the binary encoding gives back [m]. *)
Theorem C2_round_trip
    (range : forall V : Type, gmap (list ascii) V -> list (list ascii * V)) :
  rangeOK range ->
  forall (m : gmap (list ascii) (option (list ascii))) (buf : byteslice),
    lenSlice buf = 0 ->
    (exists out : byteslice,
       encodePlanHstoreCodecText_Encode range (anyHstore (Some (PGXToFasterHstore m))) buf
         = Ok out /\
       parseHstore (stringOfSlice out) = Ok (Some (PGXToFasterHstore m))) /\
    (exists out : byteslice,
       encodePlanHstoreCompatCodecText_Encode range (anyHstoreCompat (Some m)) buf = Ok out /\
       parseHstoreCompat (stringOfSlice out) = Ok (Some m)) /\
    (Z.of_nat (size m) < 2 ^ 31 -> map_Forall (fun k v => fits32 (k, v)) m ->
     (exists out : byteslice,
        encodePlanHstoreCodecBinary_Encode range (anyHstore (Some (PGXToFasterHstore m))) buf
          = Ok out /\
        forall h0 : Hstore,
          ScanPlan_Scan scanPlanBinaryHstoreToHstoreScanner out (anyPtrHstore h0)
          = Ok (anyPtrHstore (Some (PGXToFasterHstore m)))) /\
     (exists out : byteslice,
        encodePlanHstoreCompatCodecBinary_Encode range (anyHstoreCompat (Some m)) buf
          = Ok out /\
        forall h0 : HstoreCompat,
          ScanPlan_Scan scanPlanBinaryHstoreToHstoreCompatScanner out (anyPtrHstoreCompat h0)
          = Ok (anyPtrHstoreCompat (Some m)))).
Proof.
  intros Hrange m buf Hbuf.
  pose proof (logical_range m _ (Hrange _ (PGXToFasterHstore m))) as HlH.
  pose proof (Hrange _ m) as HlC. unfold ranges in HlC.
  split; [|split].
  - eexists. split; [apply (Encode_text_Hstore range)|].
    rewrite stringOfSlice_append by done.
    rewrite parseHstore_text. by rewrite (PGXToFasterHstore_storeAll m).
  - eexists. split; [apply (Encode_text_Compat range)|].
    rewrite stringOfSlice_append by done.
    rewrite parseHstoreCompat_text. by rewrite (compat_storeAll m).
  - intros Hsize Hfits. split.
    + eexists. split; [apply (Encode_binary_Hstore range)|]. intros h0.
      assert (Hsz : size (PGXToFasterHstore m) = size m)
        by (unfold PGXToFasterHstore; apply map_size_fmap).
      rewrite Hsz, <- (len_range m _ HlH).
      change (be32 (int32 (len (logical <$> range Text (PGXToFasterHstore m))))
              ++ flat_map pairBinary (logical <$> range Text (PGXToFasterHstore m)))
        with (hstoreBinary (logical <$> range Text (PGXToFasterHstore m))).
      rewrite append_hstoreBinary by done.
      cbn [ScanPlan_Scan isHstoreScanner]. unfold scanBinaryHstore.
      rewrite scanBinary_ok;
        [| rewrite (len_range m _ HlH); lia | by apply (fits32_range m)].
      cbn [mbind outcome_bind obind ScanHstore].
      rewrite (conv_storeAll _ _ (fun value => value)) by (by intros [s|]).
      by rewrite (PGXToFasterHstore_storeAll m).
    + eexists. split; [apply (Encode_binary_Compat range)|]. intros h0.
      rewrite <- (len_range m _ HlC).
      change (be32 (int32 (len (range _ m))) ++ flat_map pairBinary (range _ m))
        with (hstoreBinary (range _ m)).
      rewrite append_hstoreBinary by done.
      cbn [ScanPlan_Scan isHstoreCompatScanner]. unfold scanBinaryHstoreCompat.
      rewrite scanBinary_ok;
        [| rewrite (len_range m _ HlC); lia | by apply (fits32_range m)].
      cbn [mbind outcome_bind obind ScanHstoreCompat].
      rewrite (conv_storeAll _ _ compatStore) by (by intros [s|]).
      by rewrite (compat_storeAll m).
Qed.

(** The round trip on the mapping of [a] to [100] and of [b] to the absent
    value, visited in the order of [map_to_list]. *)
Lemma C2_round_trip_witness :
  rangeOK (fun V => map_to_list) /\
  lenSlice None = 0 /\
  Z.of_nat (size map_a_b) < 2 ^ 31 /\
  map_Forall (fun k v => fits32 (k, v)) map_a_b /\
  (exists out : byteslice,
     encodePlanHstoreCodecText_Encode (fun V => map_to_list)
       (anyHstore (Some (PGXToFasterHstore map_a_b))) None = Ok out /\
     parseHstore (stringOfSlice out) = Ok (Some (PGXToFasterHstore map_a_b))) /\
  (exists out : byteslice,
     encodePlanHstoreCompatCodecBinary_Encode (fun V => map_to_list)
       (anyHstoreCompat (Some map_a_b)) None = Ok out /\
     forall h0 : HstoreCompat,
       ScanPlan_Scan scanPlanBinaryHstoreToHstoreCompatScanner out (anyPtrHstoreCompat h0)
       = Ok (anyPtrHstoreCompat (Some map_a_b))).
Proof.
  assert (HR : rangeOK (fun V => map_to_list)) by (intros V m; unfold ranges; reflexivity).
  assert (Hs : Z.of_nat (size map_a_b) < 2 ^ 31) by (vm_compute; reflexivity).
  pose proof (C2_round_trip (fun V => map_to_list) HR map_a_b None eq_refl) as (H1 & _ & H3).
  destruct (H3 Hs fits32_map_a_b) as [_ H4].
  split; [exact HR|]. split; [reflexivity|]. split; [exact Hs|].
  split; [exact fits32_map_a_b|]. split; [exact H1|exact H4].
Defined.

(** C3. For every non-nil mapping the text encoder returns the bytes of the
    buffer followed by the pairs, in the order the range visits them, joined
    by comma-space with nothing after the last pair; a pair is the key
    between double quotes, [=>], and the value between double quotes or the
    bare [NULL] for an absent value; inside the quotes a backslash is put
    before every backslash and double quote and every other byte is written
    as it is. *)
Theorem C3_text_encoder_format
    (range : forall V : Type, gmap (list ascii) V -> list (list ascii * V)) :
  rangeOK range ->
  (forall m : gmap (list ascii) Text,
     ranges m (range _ m) /\
     (forall b : list ascii,
        encodePlanHstoreCodecText_Encode range (anyHstore (Some m)) (Some b)
        = Ok (Some (b ++ join pairSeparator (map pairText (logical <$> range _ m))))) /\
     (m <> ∅ ->
      encodePlanHstoreCodecText_Encode range (anyHstore (Some m)) None
      = Ok (Some (join pairSeparator (map pairText (logical <$> range _ m)))))) /\
  (forall m : gmap (list ascii) (option (list ascii)),
     ranges m (range _ m) /\
     (forall b : list ascii,
        encodePlanHstoreCompatCodecText_Encode range (anyHstoreCompat (Some m)) (Some b)
        = Ok (Some (b ++ join pairSeparator (map pairText (range _ m))))) /\
     (m <> ∅ ->
      encodePlanHstoreCompatCodecText_Encode range (anyHstoreCompat (Some m)) None
      = Ok (Some (join pairSeparator (map pairText (range _ m)))))) /\
  (forall (k : gostring) (v : option gostring),
     pairText (k, v)
     = [dquote] ++ flat_map escapeByte k ++ [dquote] ++ bytes "=>" ++
       match v with
       | Some s => [dquote] ++ flat_map escapeByte s ++ [dquote]
       | None => bytes "NULL"
       end) /\
  (forall (xs : list (list ascii)) (x : list ascii),
     join pairSeparator (xs ++ [x]) = flat_map (fun y => y ++ bytes ", ") xs ++ x).
Proof.
  intros Hrange. split; [|split; [|split]].
  - intros m. split; [apply Hrange|]. split.
    + intros b. by rewrite Encode_text_Hstore, append_Some.
    + intros Hm. rewrite Encode_text_Hstore, append_None_hstoreText; [done|].
      intros Hnil. apply fmap_nil_inv in Hnil.
      by apply (ranges_nonempty m (range _ m) (Hrange _ m)).
  - intros m. split; [apply Hrange|]. split.
    + intros b. by rewrite Encode_text_Compat, append_Some.
    + intros Hm. rewrite Encode_text_Compat, append_None_hstoreText; [done|].
      by apply (ranges_nonempty m (range _ m) (Hrange _ m)).
  - intros k [s|]; unfold pairText, quoted; cbn [fst snd valueText];
      by rewrite <- !app_assoc.
  - intros xs x. apply join_snoc.
Qed.

(** The mapping of the key [a] with a double quote after it to the value
    [b] with a backslash after it, and of [n] to the absent value, written
    after the byte [=] of the buffer: two pairs with the separator between
    them, the two escapes and the bare [NULL]. *)
Lemma C3_text_encoder_format_witness :
  rangeOK (fun V => map_to_list) /\
  encodePlanHstoreCodecText_Encode (fun V => map_to_list) (anyHstore (Some map_quote_null))
    (Some (bytes "="))
  = Ok (Some (bytes "=" ++ [dquote] ++ bytes "n" ++ [dquote] ++ bytes "=>NULL, " ++
              [dquote; "a"%char; backslash; dquote; dquote] ++ bytes "=>" ++
              [dquote; "b"%char; backslash; backslash; dquote])).
Proof.
  assert (HR : rangeOK (fun V => map_to_list)) by (intros V m; unfold ranges; reflexivity).
  split; [exact HR|].
  refine (eq_trans
            (proj1 (proj2 (proj1 (C3_text_encoder_format (fun V => map_to_list) HR)
                             map_quote_null)) (bytes "=")) _).
  vm_compute. reflexivity.
Defined.

(** C4. Parsing ["k"=>NULL] gives [k] the absent value and parsing
    ["k"=>"NULL"] gives [k] the string [NULL], in both representations; the
    lower-case [null] is rejected; a value is absent exactly when the four
    bytes at the value position are [NULL]. *)
Theorem C4_NULL_literal :
  parseHstore text_k_NULL = Ok (Some {[ bytes "k" := nullText ]}) /\
  parseHstore text_k_quoted_NULL = Ok (Some {[ bytes "k" := NewText (bytes "NULL") ]}) /\
  parseHstoreCompat text_k_NULL = Ok (Some {[ bytes "k" := None ]}) /\
  parseHstoreCompat text_k_quoted_NULL = Ok (Some {[ bytes "k" := Some (bytes "NULL") ]}) /\
  parseHstore text_k_lower_null = Err (ErrUnexpectedByte "n"%char dquote) /\
  (forall pre rest nb,
     consumeDoubleQuotedOrNull (mk pre (bytes "NULL" ++ rest) nb)
     = (Ok nullText, mk (pre ++ bytes "NULL") rest nb)) /\
  (forall p t p',
     consumeDoubleQuotedOrNull p = (Ok t, p') -> pgtype.Valid t = false ->
     0 <= pos p /\ take 4 (drop (Z.to_nat (pos p)) (str p)) = bytes "NULL").
Proof.
  split; [vm_compute; reflexivity|].
  split; [vm_compute; reflexivity|].
  split; [vm_compute; reflexivity|].
  split; [vm_compute; reflexivity|].
  split; [vm_compute; reflexivity|].
  split; [apply consumeDoubleQuotedOrNull_NULL|apply consumeDoubleQuotedOrNull_null_inv].
Qed.

(** C5. Parsing ["k"=>"1", "k"=>"2"] gives the mapping of [k] to [2], and
    for every text of pairs, the mapping parsed holds for a key the value of
    the last pair with that key, in both representations. *)
Theorem C5_last_pair_wins :
  (parseHstore text_k1_k2 = Ok (Some {[ bytes "k" := NewText (bytes "2") ]}) /\
   parseHstoreCompat text_k1_k2 = Ok (Some {[ bytes "k" := Some (bytes "2") ]})) /\
  forall (l1 : list (gostring * option gostring)) (k : gostring) (v : option gostring)
         (l2 : list (gostring * option gostring)),
    k ∉ l2.*1 ->
    (exists m : gmap (list ascii) Text,
       parseHstore (hstoreText (l1 ++ (k, v) :: l2)) = Ok (Some m) /\
       m !! k = Some (ofValue v)) /\
    (exists m : gmap (list ascii) (option (list ascii)),
       parseHstoreCompat (hstoreText (l1 ++ (k, v) :: l2)) = Ok (Some m) /\
       m !! k = Some v).
Proof.
  split; [split; vm_compute; reflexivity|].
  intros l1 k v l2 Hk. split.
  - eexists. split; [apply parseHstore_text|]. by apply storeAll_last.
  - eexists. split; [apply parseHstoreCompat_text|].
    rewrite (storeAll_last compatStore) by done. by rewrite compatStore_ofValue.
Qed.

(** The example of the claim, as an instance of the general statement. *)
Lemma C5_last_pair_wins_witness :
  (bytes "k" ∉ (@nil (gostring * option gostring)).*1) /\
  (exists m : gmap (list ascii) Text,
     parseHstore (hstoreText ([(bytes "k", Some (bytes "1"))] ++ (bytes "k", Some (bytes "2")) :: []))
       = Ok (Some m) /\
     m !! bytes "k" = Some (ofValue (Some (bytes "2")))).
Proof.
  split; [apply not_elem_of_nil|].
  apply (proj2 C5_last_pair_wins [(bytes "k", Some (bytes "1"))] (bytes "k") (Some (bytes "2")) []).
  apply not_elem_of_nil.
Defined.

(** C6 fails when the caller passes the nil buffer: the text encoding of
    the empty mapping is then the nil slice, the very result returned for
    the absent mapping. *)
Lemma C6_nil_buffer_counterexample :
  encodePlanHstoreCodecText_Encode (fun V => map_to_list) (anyHstore (Some ∅)) None
  = encodePlanHstoreCodecText_Encode (fun V => map_to_list) (anyHstore None) None /\
  encodePlanHstoreCompatCodecText_Encode (fun V => map_to_list) (anyHstoreCompat (Some ∅)) None
  = encodePlanHstoreCompatCodecText_Encode (fun V => map_to_list) (anyHstoreCompat None) None /\
  encodePlanHstoreCodecText_Encode (fun V => map_to_list) (anyHstore (Some ∅)) None = Ok None.
Proof. repeat split; vm_compute; reflexivity. Qed.

(** C6, as amended.  Scanning the nil buffer gives the nil mapping and
    scanning the empty text gives the empty, non-nil mapping; encoding the
    nil mapping returns nil; encoding the empty mapping as text returns the
    caller's buffer unchanged, which differs from the nil result whenever
    the caller's buffer is not nil; and [Hstore.Value] gives the empty string
    for the empty mapping and nil for the nil mapping. *)
Theorem C6_absent_and_empty
    (range : forall V : Type, gmap (list ascii) V -> list (list ascii * V)) :
  rangeOK range ->
  (forall h0 : Hstore,
     ScanPlan_Scan scanPlanTextAnyToHstoreScanner None (anyPtrHstore h0)
       = Ok (anyPtrHstore None) /\
     ScanPlan_Scan scanPlanBinaryHstoreToHstoreScanner None (anyPtrHstore h0)
       = Ok (anyPtrHstore None) /\
     ScanPlan_Scan scanPlanTextAnyToHstoreScanner (Some []) (anyPtrHstore h0)
       = Ok (anyPtrHstore (Some ∅)) /\
     Hstore_Scan h0 anyNil = Ok None /\
     Hstore_Scan h0 (anyString []) = Ok (Some ∅)) /\
  (forall h0 : HstoreCompat,
     ScanPlan_Scan scanPlanTextAnyToHstoreCompatScanner None (anyPtrHstoreCompat h0)
       = Ok (anyPtrHstoreCompat None) /\
     ScanPlan_Scan scanPlanBinaryHstoreToHstoreCompatScanner None (anyPtrHstoreCompat h0)
       = Ok (anyPtrHstoreCompat None) /\
     ScanPlan_Scan scanPlanTextAnyToHstoreCompatScanner (Some []) (anyPtrHstoreCompat h0)
       = Ok (anyPtrHstoreCompat (Some ∅)) /\
     HstoreCompat_Scan h0 anyNil = Ok None /\
     HstoreCompat_Scan h0 (anyString []) = Ok (Some ∅)) /\
  (forall buf : byteslice,
     encodePlanHstoreCodecText_Encode range (anyHstore None) buf = Ok None /\
     encodePlanHstoreCodecBinary_Encode range (anyHstore None) buf = Ok None /\
     encodePlanHstoreCompatCodecText_Encode range (anyHstoreCompat None) buf = Ok None /\
     encodePlanHstoreCompatCodecBinary_Encode range (anyHstoreCompat None) buf = Ok None) /\
  (forall buf : byteslice,
     encodePlanHstoreCodecText_Encode range (anyHstore (Some ∅)) buf = Ok buf /\
     encodePlanHstoreCompatCodecText_Encode range (anyHstoreCompat (Some ∅)) buf = Ok buf) /\
  (forall b : list ascii,
     encodePlanHstoreCodecText_Encode range (anyHstore (Some ∅)) (Some b)
     <> encodePlanHstoreCodecText_Encode range (anyHstore None) (Some b) /\
     encodePlanHstoreCompatCodecText_Encode range (anyHstoreCompat (Some ∅)) (Some b)
     <> encodePlanHstoreCompatCodecText_Encode range (anyHstoreCompat None) (Some b)) /\
  (Hstore_Value range (Some ∅) = Ok (anyString []) /\ Hstore_Value range None = Ok anyNil).
Proof.
  intros Hrange.
  assert (HT : forall buf,
    encodePlanHstoreCodecText_Encode range (anyHstore (Some ∅)) buf = Ok buf).
  { intros buf. rewrite Encode_text_Hstore, (range_empty range) by done.
    cbn. by rewrite append_nil. }
  assert (HC : forall buf,
    encodePlanHstoreCompatCodecText_Encode range (anyHstoreCompat (Some ∅)) buf = Ok buf).
  { intros buf. rewrite Encode_text_Compat, (range_empty range) by done.
    cbn. by rewrite append_nil. }
  split; [|split; [|split; [|split; [|split]]]].
  - intros h0. repeat split; vm_compute; reflexivity.
  - intros h0. repeat split; vm_compute; reflexivity.
  - intros buf. repeat split.
  - intros buf. by split.
  - intros b. rewrite HT, HC. by split.
  - split; [|reflexivity]. unfold Hstore_Value.
    change (PlanEncode HstoreCodec TextFormatCode (anyHstore (Some ∅)))
      with (Some encodePlanHstoreCodecText).
    cbn [EncodePlan_Encode]. rewrite HT. reflexivity.
Qed.

(** The empty mapping encoded into the empty, non-nil buffer, and its
    [Value]. *)
Lemma C6_absent_and_empty_witness :
  rangeOK (fun V => map_to_list) /\
  encodePlanHstoreCodecText_Encode (fun V => map_to_list) (anyHstore (Some ∅)) (Some [])
  = Ok (Some []) /\
  Hstore_Value (fun V => map_to_list) (Some ∅) = Ok (anyString []).
Proof.
  assert (HR : rangeOK (fun V => map_to_list)) by (intros V m; unfold ranges; reflexivity).
  pose proof (C6_absent_and_empty (fun V => map_to_list) HR) as (_ & _ & _ & H4 & _ & H6).
  split; [exact HR|]. split; [exact (proj1 (H4 (Some [])))|exact (proj1 H6)].
Defined.

(** C7 fails where the input ends at a separator: with fewer than two bytes
    left, [consumeExpected2] returns "unexpected end of string", which names
    neither what was expected nor the byte found, also when the one byte
    left is not the separator's. *)
Lemma C7_end_at_separator_counterexample :
  parseHstore text_k_only = Err ErrUnexpectedEndOfString /\
  parseHstore text_k_x = Err ErrUnexpectedEndOfString /\
  namesExpected ErrUnexpectedEndOfString = false.
Proof. repeat split; vm_compute; reflexivity. Qed.

(** C7, as amended.  With at least two bytes left, a byte that is not the
    pair separator's or the key/value separator's makes the parse fail with
    the error carrying the found and the expected byte.  The end of input
    inside a quoted key or value gives the end-before-closing-quote error:
    when no double quote follows the opening one, whatever the bytes are,
    and when the input ends after bytes that are escaped as the writer
    escapes them, a backslash before every backslash and double quote, also
    with one more backslash as the last byte.  The end where a value is
    expected gives "found end instead of value" and where the opening quote
    of a key is expected gives the error naming that quote; with fewer than
    two bytes left where a separator is expected the parse fails with
    "unexpected end of string", which names nothing. *)
Theorem C7_parse_errors {V : Type} (store : Text -> V) :
  (forall l b0 b1 rest, l <> [] -> b0 <> ","%char ->
     parseWith store (hstoreText l ++ b0 :: b1 :: rest)
     = Err (ErrUnexpectedByte b0 ","%char)) /\
  (forall l b1 rest, l <> [] -> b1 <> " "%char ->
     parseWith store (hstoreText l ++ ","%char :: b1 :: rest)
     = Err (ErrUnexpectedByte b1 " "%char)) /\
  (forall l k b0 b1 rest, b0 <> "="%char ->
     parseWith store (pairsThen l (quoted k ++ b0 :: b1 :: rest))
     = Err (ErrUnexpectedByte b0 "="%char)) /\
  (forall l k b1 rest, b1 <> ">"%char ->
     parseWith store (pairsThen l (quoted k ++ "="%char :: b1 :: rest))
     = Err (ErrUnexpectedByte b1 ">"%char)) /\
  (forall l s, dquote ∉ s ->
     parseWith store (pairsThen l (dquote :: s)) = Err ErrEOSInQuoted /\
     forall k,
       parseWith store (pairsThen l (quoted k ++ bytes "=>" ++ dquote :: s))
       = Err ErrEOSInQuoted) /\
  (forall l s X, X = [] \/ X = [backslash] ->
     parseWith store (pairsThen l (dquote :: flat_map escapeByte s ++ X))
     = Err ErrEOSInQuoted /\
     forall k,
       parseWith store
         (pairsThen l (quoted k ++ bytes "=>" ++ dquote :: flat_map escapeByte s ++ X))
       = Err ErrEOSInQuoted) /\
  (forall l k,
     parseWith store (pairsThen l (quoted k ++ bytes "=>")) = Err ErrFoundEndInsteadOfValue) /\
  (forall l, l <> [] ->
     parseWith store (hstoreText l ++ bytes ", ") = Err (ErrExpectedFoundEnd dquote)) /\
  (forall l b, l <> [] ->
     parseWith store (hstoreText l ++ [b]) = Err ErrUnexpectedEndOfString) /\
  (forall l k rest, (length rest < 2)%nat ->
     parseWith store (pairsThen l (quoted k ++ rest)) = Err ErrUnexpectedEndOfString) /\
  (forall a b c : ascii,
     namesExpected (ErrUnexpectedByte a b) = true /\
     namesExpected (ErrExpectedFoundEnd c) = true /\
     namesExpected ErrFoundEndInsteadOfValue = true /\
     namesExpected ErrUnexpectedEndOfString = false).
Proof.
  repeat apply conj.
  - intros l b0 b1 rest Hl Hb. apply parse_after_pairs; [done..|].
    intros pre nb. by apply consumeExpected2_first.
  - intros l b1 rest Hl Hb. apply parse_after_pairs; [done..|].
    intros pre nb. by apply consumeExpected2_second.
  - intros l k b0 b1 rest Hb. apply parse_next_pair; [by destruct k|].
    intros fuel acc pre. apply pairBody_kv_separator.
    intros pre' nb. by apply consumeExpected2_first.
  - intros l k b1 rest Hb. apply parse_next_pair; [by destruct k|].
    intros fuel acc pre. apply pairBody_kv_separator.
    intros pre' nb. by apply consumeExpected2_second.
  - intros l s Hs. apply parse_quoted_err. intros pre.
    by apply consumeDoubleQuoted_unterminated.
  - intros l s X HX. apply parse_quoted_err. intros pre.
    by apply consumeDoubleQuoted_unclosed.
  - intros l k. apply parse_next_pair; [by destruct k|].
    intros fuel acc pre. rewrite <- (app_nil_r (bytes "=>")). apply pairBody_value.
    intros pre' nb. apply consumeDoubleQuotedOrNull_end.
  - intros l Hl. apply parseWith_err.
    destruct (parseWith_fuel l (bytes ", ")) as [fuel ->].
    rewrite newHSP_mkAt, parseLoop_after by done.
    unfold consumePairSeparator.
    erewrite bind_ok; [|by apply consumeExpected2_at].
    unfold pairBody. apply bind_err. apply consumeExpectedByte_end.
  - intros l b Hl. apply parse_after_pairs; [done..|].
    intros pre nb. apply consumeExpected2_short. simpl. lia.
  - intros l k rest Hrest. apply parse_next_pair; [by destruct k|].
    intros fuel acc pre. apply pairBody_kv_separator.
    intros pre' nb. by apply consumeExpected2_short.
  - intros a b c. by repeat split.
Qed.

(** The key [k] followed by [xy] where [=>] is expected; and a key that is
    not closed: [a], an escaped double quote, [b], then the end. *)
Lemma C7_parse_errors_witness :
  "x"%char <> "="%char /\
  parseHstore (pairsThen [] text_k_xy) = Err (ErrUnexpectedByte "x"%char "="%char) /\
  parseHstore [dquote; "a"%char; backslash; dquote; "b"%char] = Err ErrEOSInQuoted.
Proof.
  split; [discriminate|]. split.
  - apply (proj1 (proj2 (proj2 (C7_parse_errors (fun value : Text => value))))
             [] (bytes "k") "x"%char "y"%char []).
    discriminate.
  - exact (proj1 (proj1 (proj2 (proj2 (proj2 (proj2 (proj2
             (C7_parse_errors (fun value : Text => value)))))))
             [] ["a"%char; dquote; "b"%char] [] (or_introl eq_refl))).
Defined.

(** C8 fails for a value of 2^32 - 1 bytes: the binary encoder converts
    the length to 32 bits and writes it as -1, the length of the absent
    value, and the bytes of the value after it; and it writes the length of
    a key of 2^31 bytes as -2^31. *)
Lemma C8_big_value_counterexample :
  len bigValue = 2 ^ 32 - 1 /\
  encodePlanHstoreCompatCodecBinary_Encode (fun V => map_to_list)
    (anyHstoreCompat (Some bigValueMap)) (Some [])
  = Ok (Some (be32 1 ++ be32 1 ++ bytes "k" ++ be32 (-1) ++ bigValue)) /\
  len bigKey = 2 ^ 31 /\
  encodePlanHstoreCompatCodecBinary_Encode (fun V => map_to_list)
    (anyHstoreCompat (Some bigKeyMap)) (Some [])
  = Ok (Some (be32 1 ++ be32 (- 2 ^ 31) ++ bigKey ++ be32 (-1))).
Proof.
  split; [apply len_bigValue|]. split; [|split; [apply len_bigKey|]].
  - unfold encodePlanHstoreCompatCodecBinary_Encode.
    cbn [HstoreCompatValue mbind outcome_bind obind].
    rewrite binaryPairCompat_fold. unfold AppendInt32, bigValueMap.
    rewrite map_size_singleton, map_to_list_singleton, append_append, append_Some.
    cbn [flat_map]. unfold pairBinary. cbn [fst snd]. rewrite len_bigValue.
    change (int32 (2 ^ 32 - 1)) with (-1). rewrite app_nil_r, <- ?app_assoc, app_nil_l.
    change (int32 (Z.of_nat 1)) with 1. change (int32 (len (bytes "k"))) with 1.
    reflexivity.
  - unfold encodePlanHstoreCompatCodecBinary_Encode.
    cbn [HstoreCompatValue mbind outcome_bind obind].
    rewrite binaryPairCompat_fold. unfold AppendInt32, bigKeyMap.
    rewrite map_size_singleton, map_to_list_singleton, append_append, append_Some.
    cbn [flat_map]. unfold pairBinary. cbn [fst snd]. rewrite len_bigKey.
    change (int32 (2 ^ 31)) with (- 2 ^ 31). rewrite app_nil_r, <- ?app_assoc, app_nil_l.
    change (int32 (Z.of_nat 1)) with 1.
    reflexivity.
Qed.

(** C8, as amended.  For every non-nil mapping with fewer than 2^31 pairs
    whose keys and values are shorter than 2^31 bytes, the binary encoder
    returns the bytes of the buffer followed by the pair count and then, for
    each pair the range visits, the length of the key, the raw key bytes,
    and the length of the value and the raw value bytes for a present value,
    or -1 and no bytes for an absent one; every count and length is written
    in four bytes, which the reader of the package reads back, big-endian,
    as that number; no byte is escaped. *)
Theorem C8_binary_encoder_format
    (range : forall V : Type, gmap (list ascii) V -> list (list ascii * V)) :
  rangeOK range ->
  (forall m : gmap (list ascii) Text,
     Z.of_nat (size m) < 2 ^ 31 -> map_Forall (fun k v => fits32 (k, textValue v)) m ->
     ranges m (range _ m) /\
     (forall b : list ascii,
        encodePlanHstoreCodecBinary_Encode range (anyHstore (Some m)) (Some b)
        = Ok (Some (b ++ be32 (Z.of_nat (size m))
                      ++ flat_map pairFields (logical <$> range _ m)))) /\
     encodePlanHstoreCodecBinary_Encode range (anyHstore (Some m)) None
     = Ok (Some (be32 (Z.of_nat (size m)) ++ flat_map pairFields (logical <$> range _ m)))) /\
  (forall m : gmap (list ascii) (option (list ascii)),
     Z.of_nat (size m) < 2 ^ 31 -> map_Forall (fun k v => fits32 (k, v)) m ->
     ranges m (range _ m) /\
     (forall b : list ascii,
        encodePlanHstoreCompatCodecBinary_Encode range (anyHstoreCompat (Some m)) (Some b)
        = Ok (Some (b ++ be32 (Z.of_nat (size m)) ++ flat_map pairFields (range _ m)))) /\
     encodePlanHstoreCompatCodecBinary_Encode range (anyHstoreCompat (Some m)) None
     = Ok (Some (be32 (Z.of_nat (size m)) ++ flat_map pairFields (range _ m)))) /\
  (forall (n : Z) (rest : list ascii), - 2 ^ 31 <= n < 2 ^ 31 ->
     len (be32 n) = 4 /\
     exists u : Z, Uint32 (be32 n ++ rest) = Ok u /\ int32_of_uint32 u = n).
Proof.
  intros Hrange. split; [|split].
  - intros m Hsize Hfits.
    assert (Hl : Forall fits32 (logical <$> range _ m)).
    { apply (fits32_range (textValue <$> m)); [|apply logical_list, (Hrange _ m)].
      intros k v. rewrite lookup_fmap. destruct (m !! k) as [t|] eqn:Hk; [|done].
      intros [= <-]. by apply (Hfits k). }
    split; [apply Hrange|].
    split; [intros b|];
      rewrite Encode_binary_Hstore, (flat_map_pairBinary_fields _ Hl), int32_small by lia;
      [by rewrite append_Some|by rewrite append_None_be32].
  - intros m Hsize Hfits.
    assert (Hl : Forall fits32 (range _ m)) by (apply (fits32_range m); [done|apply Hrange]).
    split; [apply Hrange|].
    split; [intros b|];
      rewrite Encode_binary_Compat, (flat_map_pairBinary_fields _ Hl), int32_small by lia;
      [by rewrite append_Some|by rewrite append_None_be32].
  - intros n rest Hn. split; [reflexivity|].
    exists (n mod 2 ^ 32). split; [apply Uint32_be32|].
    unfold int32_of_uint32.
    destruct (Z.ltb_spec (n mod 2 ^ 32) (2 ^ 31)) as [Hlt|Hge].
    + destruct (Z.le_gt_cases 0 n) as [Hp|Hneg].
      * apply Z.mod_small. lia.
      * exfalso. rewrite <- (Z.mod_add n 1 (2 ^ 32)) in Hlt by lia.
        rewrite (Z.mod_small (n + 1 * 2 ^ 32)) in Hlt by lia. lia.
    + destruct (Z.le_gt_cases 0 n) as [Hp|Hneg].
      * exfalso. rewrite Z.mod_small in Hge by lia. lia.
      * rewrite <- (Z.mod_add n 1 (2 ^ 32)) by lia.
        rewrite (Z.mod_small (n + 1 * 2 ^ 32)) by lia. lia.
Qed.

(** The binary encoding of the mapping of [a] to [100] and of [b] to the
    absent value, after the byte [=] of the buffer. *)
Lemma C8_binary_encoder_format_witness :
  rangeOK (fun V => map_to_list) /\
  Z.of_nat (size map_a_b) < 2 ^ 31 /\
  map_Forall (fun k v => fits32 (k, v)) map_a_b /\
  encodePlanHstoreCompatCodecBinary_Encode (fun V => map_to_list)
    (anyHstoreCompat (Some map_a_b)) (Some (bytes "="))
  = Ok (Some (bytes "=" ++ be32 2 ++ be32 1 ++ bytes "b" ++ be32 (-1) ++
              be32 1 ++ bytes "a" ++ be32 3 ++ bytes "100")).
Proof.
  assert (HR : rangeOK (fun V => map_to_list)) by (intros V m; unfold ranges; reflexivity).
  assert (Hs : Z.of_nat (size map_a_b) < 2 ^ 31) by (vm_compute; reflexivity).
  split; [exact HR|]. split; [exact Hs|]. split; [exact fits32_map_a_b|].
  refine (eq_trans
            (proj1 (proj2 (proj1 (proj2 (C8_binary_encoder_format (fun V => map_to_list) HR))
                             map_a_b Hs fits32_map_a_b)) (bytes "=")) _).
  vm_compute. reflexivity.
Defined.

(** C9. [HstoreCompat.Value] asks [HstoreCodec] for the encode plan; a
    [HstoreCompat] is not a [HstoreValuer], the plan is nil, and calling
    [Encode] on it panics: for every non-nil [HstoreCompat] the valuer
    panics instead of returning the text encoding.  The rest of the claim
    holds: [Hstore.Value] returns the text encoding as a string, both
    valuers return nil for the nil mapping, and both scanners take nil and
    strings and answer any other source with the cannot-scan error naming
    its type. *)
Theorem C9_compat_Value_panics :
  forall (range : forall V : Type, gmap (list ascii) V -> list (list ascii * V))
         (m : gmap (list ascii) (option (list ascii))),
    isHstoreValuer (anyHstoreCompat (Some m)) = false /\
    PlanEncode HstoreCodec TextFormatCode (anyHstoreCompat (Some m)) = None /\
    HstoreCompat_Value range (Some m) = Panic NilPointerDereference /\
    HstoreCompat_Value range (Some map_a_b) = Panic NilPointerDereference /\
    PlanEncode HstoreCompatCodec TextFormatCode (anyHstoreCompat (Some m))
      = Some encodePlanHstoreCompatCodecText /\
    (forall h : gmap (list ascii) Text,
       PlanEncode HstoreCodec TextFormatCode (anyHstore (Some h))
         = Some encodePlanHstoreCodecText /\
       exists buf : byteslice,
         encodePlanHstoreCodecText_Encode range (anyHstore (Some h)) None = Ok buf /\
         Hstore_Value range (Some h) = Ok (anyString (stringOfSlice buf))) /\
    (Hstore_Value range None = Ok anyNil /\ HstoreCompat_Value range None = Ok anyNil) /\
    (forall (h : Hstore) (hc : HstoreCompat) (src : any),
       match src with
       | anyNil => Hstore_Scan h src = Ok None /\ HstoreCompat_Scan hc src = Ok None
       | anyString text =>
           Hstore_Scan h src = parseHstore text /\
           HstoreCompat_Scan hc src = parseHstoreCompat text
       | _ =>
           Hstore_Scan h src = Err (ErrCannotScan (typeName src)) /\
           HstoreCompat_Scan hc src = Err (ErrCannotScan (typeName src))
       end).
Proof.
  intros range m. repeat apply conj; try reflexivity.
  - intros h. split; [reflexivity|].
    unfold Hstore_Value.
    change (PlanEncode HstoreCodec TextFormatCode (anyHstore (Some h)))
      with (Some encodePlanHstoreCodecText).
    cbn [EncodePlan_Encode].
    destruct (encodePlanHstoreCodecText_Encode range (anyHstore (Some h)) None)
      as [buf| | |] eqn:E; try (by cbn in E).
    by exists buf.
  - intros h hc src. destruct src; try (split; reflexivity).
    unfold Hstore_Scan, HstoreCompat_Scan, scanStringHstore, scanStringHstoreCompat.
    split.
    + by destruct (parseHstore s) as [x| | |].
    + by destruct (parseHstoreCompat s) as [x| | |].
Qed.

(** C10. [HstoreCompatCodec.DecodeValue] returns the no-plan error, and no
    mapping, for every non-nil source buffer in every format, because it
    scans into a pointer to [Hstore], which is not a [HstoreCompatScanner],
    so that [PlanScan] returns the nil plan; for the nil buffer it returns
    nil and no error. *)
Theorem C10_compat_DecodeValue_finds_no_plan :
  (forall (format : Z) (b : list ascii),
     DecodeValue HstoreCompatCodec format (Some b) = Err ErrPlanScanNotFound) /\
  (forall format : Z, DecodeValue HstoreCompatCodec format None = Ok anyNil) /\
  (forall (format : Z) (h : Hstore),
     isHstoreCompatScanner (anyPtrHstore h) = false /\
     PlanScan HstoreCompatCodec format (anyPtrHstore h) = None).
Proof.
  split; [|split].
  - intros format b. unfold DecodeValue, codecScan, PlanScan. cbn.
    by destruct (format =? BinaryFormatCode), (format =? TextFormatCode).
  - done.
  - intros format h. split; [done|]. unfold PlanScan. cbn.
    by destruct (format =? BinaryFormatCode), (format =? TextFormatCode).
Qed.

(** ** More on the text parser *)

(** X1. The parser is strict: a text it returns a mapping for is the text
    form of a sequence of pairs, byte for byte (every key and value quoted,
    only backslash and double quote escaped, [=>] and comma-space with no
    other space, the bare [NULL]), and the mapping is the one those pairs
    build; conversely every such text is accepted. *)
Theorem parser_accepts_exactly_the_text_form :
  (forall (s : gostring) (h : Hstore),
     parseHstore s = Ok h <->
     exists l, s = hstoreText l /\ h = Some (storeAll (fun value => value) l ∅)) /\
  (forall (s : gostring) (h : HstoreCompat),
     parseHstoreCompat s = Ok h <->
     exists l, s = hstoreText l /\ h = Some (storeAll compatStore l ∅)).
Proof.
  split; intros s h; split.
  - apply parseWith_inv.
  - intros (l & -> & ->). apply parseHstore_text.
  - apply (parseWith_inv compatStore).
  - intros (l & -> & ->). apply parseHstoreCompat_text.
Qed.

(** The text of [k] mapped to [NULL] is the text form of one pair. *)
Lemma parser_accepts_exactly_the_text_form_witness :
  exists l, text_k_NULL = hstoreText l /\
            Some {[ bytes "k" := nullText ]} = Some (storeAll (fun value : Text => value) l ∅).
Proof.
  apply (proj1 (proj1 parser_accepts_exactly_the_text_form text_k_NULL
                  (Some {[ bytes "k" := nullText ]}))).
  vm_compute. reflexivity.
Defined.

(** X2. Parsing returns on every input: [parseHstore], [parseHstoreCompat],
    the [Scan] methods on a string and the text scan plans on any bytes
    return a mapping or an error; no input makes them panic or loop. *)
Theorem text_scans_return (s : gostring) :
  returns (parseHstore s) /\
  returns (parseHstoreCompat s) /\
  (forall h : Hstore, returns (Hstore_Scan h (anyString s))) /\
  (forall h : HstoreCompat, returns (HstoreCompat_Scan h (anyString s))) /\
  (forall h : Hstore,
     returns (ScanPlan_Scan scanPlanTextAnyToHstoreScanner (Some s) (anyPtrHstore h))) /\
  (forall h : HstoreCompat,
     returns (ScanPlan_Scan scanPlanTextAnyToHstoreCompatScanner (Some s)
                (anyPtrHstoreCompat h))).
Proof.
  pose proof (parseWith_returns (fun value : Text => value) s) as H1.
  pose proof (parseWith_returns
                (fun value => if pgtype.Valid value then Some (pgtype.String value) else None)
                s) as H2.
  fold (parseHstore s) in H1. fold (parseHstoreCompat s) in H2.
  repeat apply conj; try done; intros h;
    cbn [Hstore_Scan HstoreCompat_Scan ScanPlan_Scan isHstoreScanner isHstoreCompatScanner];
    unfold scanStringHstore, scanStringHstoreCompat.
  - by destruct (parseHstore s).
  - by destruct (parseHstoreCompat s).
  - by destruct (parseHstore s).
  - by destruct (parseHstoreCompat s).
Qed.

(** X3. The two parsers agree on every input: they fail with the same
    error, and when they succeed the [HstoreCompat] holds for each key what
    the [Text] of the [Hstore] stands for, and the [Hstore] is what
    [PGXToFasterHstore] makes of the [HstoreCompat]. *)
Theorem parsers_agree (s : gostring) :
  parseHstoreCompat s
  = outcome_map (fmap (M:=option) (fmap (M:=gmap (list ascii)) textValue)) (parseHstore s) /\
  parseHstore s = outcome_map (fmap (M:=option) PGXToFasterHstore) (parseHstoreCompat s).
Proof. split; [apply parseHstoreCompat_parseHstore|apply parseHstore_parseHstoreCompat]. Qed.

(** X4. Inside a quoted key or value a backslash must be followed by a
    backslash or a double quote: any other byte after it makes the parse
    fail with the unexpected-escape error carrying that byte, provided a
    double quote occurs somewhere after the opening quote; if none does,
    the error is the end-before-closing-quote one, whatever the escape.  A
    quoted string that the input ends in, also after escaped quotes or on a
    lone backslash, gives the end-before-closing-quote error.  All of it
    holds for a key and for a value. *)
Theorem quoted_string_errors {V : Type} (store : Text -> V) :
  (forall l s c rest, special c = false -> dquote ∈ quoteArrayReplacer_Replace s ++ rest ->
     parseWith store (pairsThen l (dquote :: quoteArrayReplacer_Replace s ++ backslash :: c :: rest))
     = Err (ErrUnexpectedEscape c) /\
     forall k,
       parseWith store
         (pairsThen l (quoted k ++ bytes "=>" ++
                       dquote :: quoteArrayReplacer_Replace s ++ backslash :: c :: rest))
       = Err (ErrUnexpectedEscape c)) /\
  (forall l s c rest, dquote ∉ s ++ backslash :: c :: rest ->
     parseWith store (pairsThen l (dquote :: s ++ backslash :: c :: rest)) = Err ErrEOSInQuoted /\
     forall k,
       parseWith store
         (pairsThen l (quoted k ++ bytes "=>" ++ dquote :: s ++ backslash :: c :: rest))
       = Err ErrEOSInQuoted) /\
  (forall l s X, X = [] \/ X = [backslash] ->
     parseWith store (pairsThen l (dquote :: quoteArrayReplacer_Replace s ++ X))
     = Err ErrEOSInQuoted /\
     forall k,
       parseWith store
         (pairsThen l (quoted k ++ bytes "=>" ++ dquote :: quoteArrayReplacer_Replace s ++ X))
       = Err ErrEOSInQuoted).
Proof.
  split; [|split].
  - intros l s c rest Hc Hin. apply parse_quoted_err. intros pre.
    apply consumeDoubleQuoted_bad.
    + right. right. by exists c, rest.
    + apply elem_of_app in Hin as [Hin|Hin]; apply elem_of_app; [by left|right].
      by do 2 apply list_elem_of_further.
  - intros l s c rest Hout. apply parse_quoted_err. intros pre.
    by apply consumeDoubleQuoted_unterminated.
  - intros l s X HX. apply parse_quoted_err. intros pre.
    by apply consumeDoubleQuoted_unclosed.
Qed.

(** The key [a\x] before [=>]: the escape of [x] is refused.  The value
    [a\x] with nothing after it: the end is reported, not the escape. *)
Lemma quoted_string_errors_witness :
  special "x"%char = false /\
  dquote ∈ quoteArrayReplacer_Replace (bytes "a") ++ (dquote :: bytes "=>NULL") /\
  parseHstore (pairsThen [] (dquote :: quoteArrayReplacer_Replace (bytes "a")
                               ++ backslash :: "x"%char :: (dquote :: bytes "=>NULL")))
  = Err (ErrUnexpectedEscape "x"%char) /\
  (dquote ∉ bytes "a" ++ backslash :: "x"%char :: []) /\
  parseHstore (pairsThen [] (quoted (bytes "k") ++ bytes "=>" ++
                             dquote :: bytes "a" ++ backslash :: "x"%char :: []))
  = Err ErrEOSInQuoted.
Proof.
  assert (H1 : special "x"%char = false) by reflexivity.
  assert (H2 : dquote ∈ quoteArrayReplacer_Replace (bytes "a") ++ (dquote :: bytes "=>NULL")).
  { vm_compute. apply list_elem_of_further, list_elem_of_here. }
  assert (H3 : dquote ∉ bytes "a" ++ backslash :: "x"%char :: []).
  { intros H. repeat (apply elem_of_cons in H as [H|H]; [discriminate|]).
    by apply elem_of_nil in H. }
  split; [exact H1|]. split; [exact H2|]. split.
  - exact (proj1 (proj1 (quoted_string_errors (fun value : Text => value))
                    [] (bytes "a") "x"%char ((dquote :: bytes "=>NULL")) H1 H2)).
  - split; [exact H3|].
    exact (proj2 (proj1 (proj2 (quoted_string_errors (fun value : Text => value)))
                    [] (bytes "a") "x"%char [] H3) (bytes "k")).
Defined.

(** ** More on the binary reader *)

(** X5. The binary scans read the pairs the count declares and nothing
    after them: bytes that follow the last pair are ignored, without an
    error, and the mapping is the one the pairs build. *)
Theorem binary_scan_ignores_trailing_bytes
    (l : list (gostring * option gostring)) (junk : list ascii) :
  len l < 2 ^ 31 -> Forall fits32 l ->
  scanBinaryHstore (Some (hstoreBinary l ++ junk))
    = Ok (Some (storeAll (fun value => value) l ∅)) /\
  scanBinaryHstoreCompat (Some (hstoreBinary l ++ junk))
    = Ok (Some (storeAll compatStore l ∅)) /\
  scanBinaryHstore (Some (hstoreBinary l ++ junk)) = scanBinaryHstore (Some (hstoreBinary l)) /\
  scanBinaryHstoreCompat (Some (hstoreBinary l ++ junk))
    = scanBinaryHstoreCompat (Some (hstoreBinary l)).
Proof.
  intros Hn Hl.
  pose proof (scanBinaryHstore_junk l [] Hn Hl) as H1.
  pose proof (scanBinaryHstoreCompat_junk l [] Hn Hl) as H2.
  rewrite app_nil_r in H1, H2. rewrite H1, H2.
  by rewrite scanBinaryHstore_junk, scanBinaryHstoreCompat_junk.
Qed.

(** The pair of [k] and [v] followed by three more bytes. *)
Lemma binary_scan_ignores_trailing_bytes_witness :
  len pairs_k_v < 2 ^ 31 /\ Forall fits32 pairs_k_v /\
  scanBinaryHstore (Some (hstoreBinary pairs_k_v ++ bytes "xyz"))
  = Ok (Some (storeAll (fun value => value) pairs_k_v ∅)).
Proof.
  assert (H1 : len pairs_k_v < 2 ^ 31) by (vm_compute; reflexivity).
  split; [exact H1|]. split; [exact fits32_pairs_k_v|].
  exact (proj1 (binary_scan_ignores_trailing_bytes pairs_k_v (bytes "xyz") H1 fits32_pairs_k_v)).
Defined.

(** X6. A binary source may hold a key more than once (the encoders never
    write one): the scans accept it, and the mapping holds for the key the
    value of the last pair with that key. *)
Theorem binary_last_pair_wins
    (l1 : list (gostring * option gostring)) (k : gostring) (v : option gostring)
    (l2 : list (gostring * option gostring)) :
  len (l1 ++ (k, v) :: l2) < 2 ^ 31 -> Forall fits32 (l1 ++ (k, v) :: l2) -> k ∉ l2.*1 ->
  (exists m : gmap (list ascii) Text,
     scanBinaryHstore (Some (hstoreBinary (l1 ++ (k, v) :: l2))) = Ok (Some m) /\
     m !! k = Some (ofValue v)) /\
  (exists m : gmap (list ascii) (option (list ascii)),
     scanBinaryHstoreCompat (Some (hstoreBinary (l1 ++ (k, v) :: l2))) = Ok (Some m) /\
     m !! k = Some v).
Proof.
  intros Hn Hl Hk. split.
  - eexists. split.
    + rewrite <- (app_nil_r (hstoreBinary _)). by apply scanBinaryHstore_junk.
    + by apply storeAll_last.
  - eexists. split.
    + rewrite <- (app_nil_r (hstoreBinary _)). by apply scanBinaryHstoreCompat_junk.
    + rewrite (storeAll_last compatStore) by done. by rewrite compatStore_ofValue.
Qed.

(** The key [k] with the value [1], then with the value [2]. *)
Lemma binary_last_pair_wins_witness :
  len pairs_k1_k2 < 2 ^ 31 /\ Forall fits32 pairs_k1_k2 /\
  (bytes "k" ∉ (@nil (gostring * option gostring)).*1) /\
  exists m : gmap (list ascii) (option (list ascii)),
    scanBinaryHstoreCompat (Some (hstoreBinary pairs_k1_k2)) = Ok (Some m) /\
    m !! bytes "k" = Some (Some (bytes "2")).
Proof.
  assert (H1 : len pairs_k1_k2 < 2 ^ 31) by (vm_compute; reflexivity).
  assert (H3 : bytes "k" ∉ (@nil (gostring * option gostring)).*1) by apply not_elem_of_nil.
  split; [exact H1|]. split; [exact fits32_pairs_k1_k2|]. split; [exact H3|].
  exact (proj2 (binary_last_pair_wins [(bytes "k", Some (bytes "1"))] (bytes "k")
                  (Some (bytes "2")) [] H1 fits32_pairs_k1_k2 H3)).
Defined.

(** X7. Where a binary source is cut off decides between an error and a
    panic.  A source of fewer than four bytes makes both scans return the
    incomplete error carrying the whole source.  So does a source cut off
    inside a key length, inside the key bytes or inside a value length,
    when the count it declares is at most one more than the number of pairs
    its bytes can hold, so that the scans allocate no more than for a
    complete source.  Such a source that is cut off inside the value bytes,
    or has a negative key length, makes both scans panic with a slice
    bounds error. *)
Theorem binary_scan_of_cut_source :
  (forall b : list ascii, len b < 4 -> scansFail b (ErrHstoreIncomplete b)) /\
  (forall (l : list (gostring * option gostring)) (n : Z),
     Forall fits32 l -> len l < n < 2 ^ 31 ->
     (forall t, len t < 4 -> countWithin (binarySource n l t) ->
        scansFail (binarySource n l t) (ErrHstoreIncomplete (binarySource n l t))) /\
     (forall klen t, 0 <= klen < 2 ^ 31 -> len t < klen ->
        countWithin (binarySource n l (be32 klen ++ t)) ->
        scansFail (binarySource n l (be32 klen ++ t))
                  (ErrHstoreIncomplete (binarySource n l (be32 klen ++ t)))) /\
     (forall k t, len k < 2 ^ 31 -> len t < 4 ->
        countWithin (binarySource n l (be32 (len k) ++ k ++ t)) ->
        scansFail (binarySource n l (be32 (len k) ++ k ++ t))
                  (ErrHstoreIncomplete (binarySource n l (be32 (len k) ++ k ++ t)))) /\
     (forall k vlen t, len k < 2 ^ 31 -> 0 <= vlen < 2 ^ 31 -> len t < vlen ->
        countWithin (binarySource n l (be32 (len k) ++ k ++ be32 vlen ++ t)) ->
        scansPanic (binarySource n l (be32 (len k) ++ k ++ be32 vlen ++ t))
                   SliceBoundsOutOfRange) /\
     (forall klen t, - 2 ^ 31 <= klen < 0 ->
        countWithin (binarySource n l (be32 klen ++ t)) ->
        scansPanic (binarySource n l (be32 klen ++ t)) SliceBoundsOutOfRange)).
Proof.
  split.
  { intros b Hb. split; by apply scanBinary_short. }
  intros l n Hl Hn.
  pose proof (len_be32 n) as Hh.
  repeat apply conj.
  - intros t Ht _. split; (apply scanBinary_next_err; [done..|]);
      by apply (scanPair_cut_keylen _ _ (be32 n)).
  - intros klen t Hk Ht _. split; (apply scanBinary_next_err; [done..|]);
      by apply (scanPair_cut_key _ _ (be32 n)).
  - intros k t Hk Ht _. split; (apply scanBinary_next_err; [done..|]);
      by apply (scanPair_cut_vallen _ _ (be32 n)).
  - intros k vlen t Hk Hv Ht _. split; (apply scanBinary_next_panic; [done..|]);
      by apply (scanPair_cut_value _ _ (be32 n)).
  - intros klen t Hk _. split; (apply scanBinary_next_panic; [done..|]);
      by apply (scanPair_negative_key _ _ (be32 n)).
Qed.

(** One complete pair, then a second one cut off after two bytes of its
    key length; and the second one cut off after two of the five bytes its
    value length announces. *)
Lemma binary_scan_of_cut_source_witness :
  Forall fits32 pairs_k_v /\ len pairs_k_v < 2 < 2 ^ 31 /\
  (len (bytes "ab") < 4 /\ countWithin (binarySource 2 pairs_k_v (bytes "ab")) /\
   scansFail (binarySource 2 pairs_k_v (bytes "ab"))
             (ErrHstoreIncomplete (binarySource 2 pairs_k_v (bytes "ab")))) /\
  (len (bytes "k") < 2 ^ 31 /\ 0 <= 5 < 2 ^ 31 /\ len (bytes "ab") < 5 /\
   countWithin (binarySource 2 pairs_k_v (be32 (len (bytes "k")) ++ bytes "k" ++
                                          be32 5 ++ bytes "ab")) /\
   scansPanic (binarySource 2 pairs_k_v (be32 (len (bytes "k")) ++ bytes "k" ++
                                         be32 5 ++ bytes "ab"))
              SliceBoundsOutOfRange).
Proof.
  assert (H1 : len pairs_k_v < 2 < 2 ^ 31) by (vm_compute; split; reflexivity).
  assert (H2 : len (bytes "ab") < 4) by (vm_compute; reflexivity).
  assert (H3 : countWithin (binarySource 2 pairs_k_v (bytes "ab")))
    by (vm_compute; discriminate).
  assert (H4 : len (bytes "k") < 2 ^ 31) by (vm_compute; reflexivity).
  assert (H5 : 0 <= 5 < 2 ^ 31) by lia.
  assert (H6 : len (bytes "ab") < 5) by (vm_compute; reflexivity).
  assert (H7 : countWithin (binarySource 2 pairs_k_v (be32 (len (bytes "k")) ++ bytes "k" ++
                                                      be32 5 ++ bytes "ab")))
    by (vm_compute; discriminate).
  pose proof (proj2 binary_scan_of_cut_source pairs_k_v 2 fits32_pairs_k_v H1)
    as (Ha & _ & _ & Hb & _).
  split; [exact fits32_pairs_k_v|]. split; [exact H1|]. split.
  - split; [exact H2|]. split; [exact H3|]. exact (Ha (bytes "ab") H2 H3).
  - split; [exact H4|]. split; [exact H5|]. split; [exact H6|]. split; [exact H7|].
    exact (Hb (bytes "k") 5 (bytes "ab") H4 H5 H6 H7).
Defined.

(** X8. A pair count that is zero or negative makes the scan of [Hstore]
    return the empty mapping without looking at the bytes that follow; the
    scan of [HstoreCompat] does the same for zero and panics on a negative
    count, in [make] of the slice of values. *)
Theorem binary_scan_without_pairs (n : Z) (rest : list ascii) :
  - 2 ^ 31 <= n <= 0 ->
  scanBinaryHstore (Some (be32 n ++ rest)) = Ok (Some ∅) /\
  scanBinaryHstoreCompat (Some (be32 n ++ rest))
  = if n <? 0 then Panic MakesliceLenOutOfRange else Ok (Some ∅).
Proof.
  intros Hn. unfold scanBinaryHstore, scanBinaryHstoreCompat.
  by rewrite !scanBinary_no_pairs.
Qed.

(** The count -3 before bytes that are no pair. *)
Lemma binary_scan_without_pairs_witness :
  - 2 ^ 31 <= -3 <= 0 /\
  scanBinaryHstore (Some (be32 (-3) ++ bytes "junk")) = Ok (Some ∅) /\
  scanBinaryHstoreCompat (Some (be32 (-3) ++ bytes "junk")) = Panic MakesliceLenOutOfRange.
Proof.
  assert (H : - 2 ^ 31 <= -3 <= 0) by lia.
  split; [exact H|]. exact (binary_scan_without_pairs (-3) (bytes "junk") H).
Defined.

(** X9. The binary scans take every negative value length, not only -1,
    for the absent value, and read no value bytes for it: a source that
    writes the absent value of a key with any negative length is scanned
    into the mapping of the source that writes it with -1, which is the
    binary form of the pairs. *)
Theorem binary_negative_value_length
    (l1 : list (gostring * option gostring)) (k : gostring) (vlen : Z)
    (l2 : list (gostring * option gostring)) (junk : list ascii) :
  len (l1 ++ (k, None) :: l2) < 2 ^ 31 -> Forall fits32 (l1 ++ (k, None) :: l2) ->
  - 2 ^ 31 <= vlen < 0 ->
  scanBinaryHstore (Some (sourceWithAbsent l1 k vlen l2 junk))
  = Ok (Some (storeAll (fun value => value) (l1 ++ (k, None) :: l2) ∅)) /\
  scanBinaryHstoreCompat (Some (sourceWithAbsent l1 k vlen l2 junk))
  = Ok (Some (storeAll compatStore (l1 ++ (k, None) :: l2) ∅)) /\
  sourceWithAbsent l1 k (-1) l2 [] = hstoreBinary (l1 ++ (k, None) :: l2).
Proof.
  intros Hn Hl Hv. unfold scanBinaryHstore, scanBinaryHstoreCompat, sourceWithAbsent.
  rewrite !scanBinary_absent by done.
  rewrite (conv_storeAll _ _ (fun value => value)) by (by intros [s|]).
  rewrite (conv_storeAll _ _ compatStore) by (by intros [s|]).
  split; [done|]. split; [done|].
  unfold hstoreBinary. pose proof (len_nonneg (l1 ++ (k, None) :: l2)).
  rewrite int32_small by lia. rewrite flat_map_app. cbn [flat_map].
  rewrite app_nil_r. reflexivity.
Qed.

(** The key [k] with the value length -7. *)
Lemma binary_negative_value_length_witness :
  len ([] ++ (bytes "k", @None gostring) :: []) < 2 ^ 31 /\
  Forall fits32 ([] ++ (bytes "k", @None gostring) :: []) /\
  - 2 ^ 31 <= -7 < 0 /\
  scanBinaryHstoreCompat (Some (sourceWithAbsent [] (bytes "k") (-7) [] []))
  = Ok (Some (storeAll compatStore ([] ++ (bytes "k", None) :: []) ∅)).
Proof.
  assert (H1 : len ([] ++ (bytes "k", @None gostring) :: []) < 2 ^ 31)
    by (vm_compute; reflexivity).
  assert (H2 : Forall fits32 ([] ++ (bytes "k", @None gostring) :: []))
    by (repeat constructor; vm_compute; congruence).
  assert (H3 : - 2 ^ 31 <= -7 < 0) by lia.
  split; [exact H1|]. split; [exact H2|]. split; [exact H3|].
  exact (proj1 (proj2 (binary_negative_value_length [] (bytes "k") (-7) [] [] H1 H2 H3))).
Defined.

(** X10. The two binary scans agree on every source but one kind: they fail
    with the same error or panic, and when they succeed the [HstoreCompat]
    holds for each key what the [Text] of the [Hstore] stands for.  The
    exception is a negative pair count, where the scan of [HstoreCompat]
    panics and the scan of [Hstore] returns the empty mapping. *)
Theorem binary_scans_agree (src : byteslice) :
  scanBinaryHstoreCompat src
    = outcome_map (fmap (M:=option) (fmap (M:=gmap (list ascii)) textValue))
        (scanBinaryHstore src) \/
  (exists (b : list ascii) (u : Z),
     src = Some b /\ 4 <= len b /\ Uint32 b = Ok u /\ int32_of_uint32 u < 0 /\
     scanBinaryHstoreCompat src = Panic MakesliceLenOutOfRange /\
     scanBinaryHstore src = Ok (Some ∅)).
Proof.
  destruct src as [b|]; [|by left].
  pose proof (scanBinary_map (fun value => {| pgtype.String := value; pgtype.Valid := true |})
                {| pgtype.String := []; pgtype.Valid := false |} textValue) as Hmap.
  destruct (scanBinary_mkStrings (fun value : gostring => Some value) None b)
    as [(u & Hu & Hneg & Hp)|Heq].
  - right. exists b, u.
    assert (Hb : 4 <= len b).
    { destruct b as [|? [|? [|? [|? ?]]]]; try done. rewrite !len_cons.
      pose proof (len_nonneg l). lia. }
    repeat split; try done. by apply (scanBinary_negative _ _ b u).
  - left. unfold scanBinaryHstoreCompat, scanBinaryHstore. rewrite Heq.
    apply (Hmap false (Some b)).
Qed.

(** X11. The two wire formats decode to the same mapping: for every
    sequence of pairs whose count and lengths fit 32 bits, also with keys
    given more than once, scanning the binary form gives what parsing the
    text form gives, in both representations. *)
Theorem text_and_binary_agree (l : list (gostring * option gostring)) :
  len l < 2 ^ 31 -> Forall fits32 l ->
  scanBinaryHstore (Some (hstoreBinary l)) = parseHstore (hstoreText l) /\
  scanBinaryHstoreCompat (Some (hstoreBinary l)) = parseHstoreCompat (hstoreText l).
Proof.
  intros Hn Hl. rewrite parseHstore_text, parseHstoreCompat_text.
  rewrite <- (app_nil_r (hstoreBinary l)).
  by rewrite scanBinaryHstore_junk, scanBinaryHstoreCompat_junk.
Qed.

(** The key [k] given twice, in both forms. *)
Lemma text_and_binary_agree_witness :
  len pairs_k1_k2 < 2 ^ 31 /\ Forall fits32 pairs_k1_k2 /\
  scanBinaryHstore (Some (hstoreBinary pairs_k1_k2)) = parseHstore (hstoreText pairs_k1_k2).
Proof.
  assert (H1 : len pairs_k1_k2 < 2 ^ 31) by (vm_compute; reflexivity).
  split; [exact H1|]. split; [exact fits32_pairs_k1_k2|].
  exact (proj1 (text_and_binary_agree pairs_k1_k2 H1 fits32_pairs_k1_k2)).
Defined.

(** ** More on the codecs *)

(** X12. A codec reads back what it writes in every format
    [FormatSupported] accepts, and so in the format [PreferredFormat]
    returns, which is the binary one: for a mapping of the codec's type
    (within the limits of the binary form), [PlanEncode] returns a plan
    whose [Encode] into an empty buffer that is not nil returns bytes from
    which [codecScan], with the plan [PlanScan] returns for the same format
    and a pointer of the codec's type, restores the mapping.  In a format
    that [FormatSupported] does not accept there is no plan: [PlanEncode]
    returns nil for every value and [codecScan] fails with the no-plan
    error for every source and target. *)
Theorem plans_and_supported_formats
    (range : forall V : Type, gmap (list ascii) V -> list (list ascii * V)) :
  rangeOK range ->
  (forall c : Codec,
     PreferredFormat c = BinaryFormatCode /\ FormatSupported c (PreferredFormat c) = true) /\
  (forall (format : Z) (m : gmap (list ascii) (option (list ascii))),
     Z.of_nat (size m) < 2 ^ 31 -> map_Forall (fun k v => fits32 (k, v)) m ->
     (FormatSupported HstoreCodec format = true ->
      exists (plan : EncodePlan) (out : byteslice),
        PlanEncode HstoreCodec format (anyHstore (Some (PGXToFasterHstore m))) = Some plan /\
        EncodePlan_Encode range (Some plan) (anyHstore (Some (PGXToFasterHstore m))) (Some [])
          = Ok out /\
        forall h0 : Hstore,
          codecScan HstoreCodec format out (anyPtrHstore h0)
          = Ok (anyPtrHstore (Some (PGXToFasterHstore m)))) /\
     (FormatSupported HstoreCompatCodec format = true ->
      exists (plan : EncodePlan) (out : byteslice),
        PlanEncode HstoreCompatCodec format (anyHstoreCompat (Some m)) = Some plan /\
        EncodePlan_Encode range (Some plan) (anyHstoreCompat (Some m)) (Some []) = Ok out /\
        forall h0 : HstoreCompat,
          codecScan HstoreCompatCodec format out (anyPtrHstoreCompat h0)
          = Ok (anyPtrHstoreCompat (Some m)))) /\
  (forall (c : Codec) (format : Z), FormatSupported c format = false ->
     (forall value : any, PlanEncode c format value = None) /\
     (forall (src : byteslice) (dst : any),
        codecScan c format src dst = Err ErrPlanScanNotFound)).
Proof.
  intros Hrange. split; [by intros c|]. split.
  - intros format m Hsize Hfits. split; intros Hf.
    + by apply codec_round_trip_Hstore.
    + by apply codec_round_trip_Compat.
  - apply unsupported_format_no_plan.
Qed.

(** The mapping of [a] and [b] through [HstoreCompatCodec] in its preferred
    format. *)
Lemma plans_and_supported_formats_witness :
  rangeOK (fun V => map_to_list) /\
  Z.of_nat (size map_a_b) < 2 ^ 31 /\
  map_Forall (fun k v => fits32 (k, v)) map_a_b /\
  FormatSupported HstoreCompatCodec (PreferredFormat HstoreCompatCodec) = true /\
  exists (plan : EncodePlan) (out : byteslice),
    PlanEncode HstoreCompatCodec (PreferredFormat HstoreCompatCodec)
      (anyHstoreCompat (Some map_a_b)) = Some plan /\
    EncodePlan_Encode (fun V => map_to_list) (Some plan) (anyHstoreCompat (Some map_a_b))
      (Some []) = Ok out /\
    forall h0 : HstoreCompat,
      codecScan HstoreCompatCodec (PreferredFormat HstoreCompatCodec) out
        (anyPtrHstoreCompat h0)
      = Ok (anyPtrHstoreCompat (Some map_a_b)).
Proof.
  assert (HR : rangeOK (fun V => map_to_list)) by (intros V m; unfold ranges; reflexivity).
  assert (Hs : Z.of_nat (size map_a_b) < 2 ^ 31) by (vm_compute; reflexivity).
  assert (Hf : FormatSupported HstoreCompatCodec (PreferredFormat HstoreCompatCodec) = true)
    by reflexivity.
  split; [exact HR|]. split; [exact Hs|]. split; [exact fits32_map_a_b|].
  split; [exact Hf|].
  exact (proj2 (proj1 (proj2 (plans_and_supported_formats (fun V => map_to_list) HR))
                  (PreferredFormat HstoreCompatCodec) map_a_b Hs fits32_map_a_b) Hf).
Defined.

(** X13. Plans fit the values of the package they are made for.  For an
    [Hstore], held by value or through a pointer that is not nil, [Encode]
    of the plan that [PlanEncode] of [HstoreCodec] returns for it returns a
    buffer, with no error and no panic, and so for an [HstoreCompat] and
    [HstoreCompatCodec].  And [codecScan], which scans with the plan
    [PlanScan] returns for the target, does not panic in the type assertion
    of the plan, for every source and for a target that is nil, a string,
    bytes, an integer, a boolean, an [Hstore] or an [HstoreCompat], or a
    pointer to one of the two. *)
Theorem plans_fit_their_values
    (range : forall V : Type, gmap (list ascii) V -> list (list ascii * V)) :
  (forall (h : Hstore) (value : any) (format : Z) (buf : byteslice) (plan : EncodePlan),
     value = anyHstore h \/ value = anyPtrHstore h ->
     PlanEncode HstoreCodec format value = Some plan ->
     succeeds (EncodePlan_Encode range (Some plan) value buf)) /\
  (forall (h : HstoreCompat) (value : any) (format : Z) (buf : byteslice) (plan : EncodePlan),
     value = anyHstoreCompat h \/ value = anyPtrHstoreCompat h ->
     PlanEncode HstoreCompatCodec format value = Some plan ->
     succeeds (EncodePlan_Encode range (Some plan) value buf)) /\
  (forall (c : Codec) (format : Z) (src : byteslice) (dst : any),
     ~ assertionFails (codecScan c format src dst)).
Proof.
  split; [|split].
  { intros h value format buf plan _. apply PlanEncode_Encode. }
  { intros h value format buf plan _. apply PlanEncode_Encode. }
  intros c format src dst. unfold codecScan.
  destruct (PlanScan c format dst) as [plan|] eqn:Hplan; [|done].
  assert (Hs : match plan with
               | scanPlanBinaryHstoreToHstoreScanner | scanPlanTextAnyToHstoreScanner =>
                   exists h, dst = anyPtrHstore h
               | _ => exists h, dst = anyPtrHstoreCompat h
               end).
  { unfold PlanScan in Hplan.
    destruct c, (format =? BinaryFormatCode), (format =? TextFormatCode), dst;
      cbn in Hplan; try discriminate; injection Hplan as <-; by eexists. }
  destruct plan; destruct Hs as [h ->];
    cbn [ScanPlan_Scan isHstoreScanner isHstoreCompatScanner].
  - apply obind_asserts; [apply scanBinary_asserts|done].
  - destruct src as [b|]; [|done]. unfold scanStringHstore.
    pose proof (parseWith_returns (fun value : Text => value) b) as Hr.
    fold (parseHstore b) in Hr. by destruct (parseHstore b).
  - apply obind_asserts; [apply scanBinary_asserts|done].
  - destruct src as [b|]; [|done]. unfold scanStringHstoreCompat.
    pose proof (parseWith_returns
                  (fun value => if pgtype.Valid value then Some (pgtype.String value) else None)
                  b) as Hr.
    fold (parseHstoreCompat b) in Hr. by destruct (parseHstoreCompat b).
Qed.

(** The binary plan of [HstoreCodec] on a pointer to the mapping of the
    examples. *)
Lemma plans_fit_their_values_witness :
  (anyPtrHstore (Some map_k_v) = anyHstore (Some map_k_v) \/
   anyPtrHstore (Some map_k_v) = anyPtrHstore (Some map_k_v)) /\
  PlanEncode HstoreCodec BinaryFormatCode (anyPtrHstore (Some map_k_v))
    = Some encodePlanHstoreCodecBinary /\
  succeeds (EncodePlan_Encode (fun V => map_to_list) (Some encodePlanHstoreCodecBinary)
              (anyPtrHstore (Some map_k_v)) None).
Proof.
  split; [right; reflexivity|]. split; [reflexivity|].
  exact (proj1 (plans_fit_their_values (fun V => map_to_list)) (Some map_k_v)
           (anyPtrHstore (Some map_k_v)) BinaryFormatCode None encodePlanHstoreCodecBinary
           (or_intror eq_refl) eq_refl).
Defined.

(** X14. [DecodeValue] of [HstoreCodec] gives, for a source that is not
    nil, what the scan of the format gives, as an [Hstore] value: the parse
    of the text, the binary scan, and the no-plan error in any other format.
    A value it returns for such a source is never the nil mapping. *)
Theorem DecodeValue_of_HstoreCodec (b : list ascii) :
  DecodeValue HstoreCodec TextFormatCode (Some b) = outcome_map anyHstore (parseHstore b) /\
  DecodeValue HstoreCodec BinaryFormatCode (Some b)
    = outcome_map anyHstore (scanBinaryHstore (Some b)) /\
  (forall format : Z, FormatSupported HstoreCodec format = false ->
     DecodeValue HstoreCodec format (Some b) = Err ErrPlanScanNotFound) /\
  (forall (format : Z) (v : any),
     DecodeValue HstoreCodec format (Some b) = Ok v ->
     exists m : gmap (list ascii) Text, v = anyHstore (Some m)).
Proof.
  pose proof (DecodeValue_text b) as HT. pose proof (DecodeValue_binary b) as HB.
  assert (HN : forall format : Z, FormatSupported HstoreCodec format = false ->
                 DecodeValue HstoreCodec format (Some b) = Err ErrPlanScanNotFound).
  { intros format Hf. unfold FormatSupported in Hf. apply orb_false_iff in Hf as [Ht Hb].
    unfold DecodeValue, codecScan, PlanScan. by rewrite Ht, Hb. }
  split; [exact HT|]. split; [exact HB|]. split; [exact HN|].
  intros format v Hv.
  destruct (Z.eqb_spec format BinaryFormatCode) as [->|Hb].
  - rewrite HB in Hv.
    destruct (scanBinaryHstore (Some b)) as [h| | |] eqn:E; try done.
    injection Hv as <-. unfold scanBinaryHstore in E. apply scanBinary_Some in E.
    destruct h as [m|]; [by exists m|done].
  - destruct (Z.eqb_spec format TextFormatCode) as [->|Ht].
    + rewrite HT in Hv.
      destruct (parseHstore b) as [h| | |] eqn:E; try done.
      injection Hv as <-. apply parseWith_Some in E.
      destruct h as [m|]; [by exists m|done].
    + rewrite HN in Hv; [done|]. unfold FormatSupported.
      apply orb_false_iff. split; by apply Z.eqb_neq.
Qed.

(** X15. [DecodeDatabaseSQLValue] returns nil for the nil source and, in
    the text format, the source itself as a string, unparsed.  In any other
    format [HstoreCompatCodec] fails with the no-plan error before it calls
    [Encode] of the map, whatever the source; [HstoreCodec] scans a binary
    source and hands the mapping to [Encode] of the map, whose text it
    returns as a string. *)
Theorem DecodeDatabaseSQLValue_of_both_codecs
    (MapEncode : Z -> Z -> any -> byteslice -> outcome byteslice) (oid : Z) :
  (forall (c : Codec) (format : Z),
     DecodeDatabaseSQLValue MapEncode c oid format None = Ok anyNil) /\
  (forall (c : Codec) (b : list ascii),
     DecodeDatabaseSQLValue MapEncode c oid TextFormatCode (Some b) = Ok (anyString b)) /\
  (forall (format : Z) (b : list ascii), format <> TextFormatCode ->
     DecodeDatabaseSQLValue MapEncode HstoreCompatCodec oid format (Some b)
     = Err ErrPlanScanNotFound) /\
  (forall (l : list (gostring * option gostring)) (junk : list ascii),
     len l < 2 ^ 31 -> Forall fits32 l ->
     DecodeDatabaseSQLValue MapEncode HstoreCodec oid BinaryFormatCode
       (Some (hstoreBinary l ++ junk))
     = (buf ← MapEncode oid TextFormatCode
                (anyHstore (Some (storeAll (fun value => value) l ∅))) None;
        Ok (anyString (stringOfSlice buf)))).
Proof.
  repeat apply conj.
  - done.
  - done.
  - intros format b Hf. unfold DecodeDatabaseSQLValue, codecDecodeToTextFormat.
    apply Z.eqb_neq in Hf. rewrite Hf.
    unfold DecodeValue, codecScan, PlanScan. cbn [isHstoreCompatScanner].
    by destruct (format =? BinaryFormatCode), (format =? TextFormatCode).
  - intros l junk Hn Hl. unfold DecodeDatabaseSQLValue, codecDecodeToTextFormat.
    change (BinaryFormatCode =? TextFormatCode) with false. cbv iota.
    rewrite DecodeValue_binary.
    by rewrite scanBinaryHstore_junk.
Qed.

(** A binary source of one pair, with a map whose [Encode] returns the
    buffer it is given. *)
Lemma DecodeDatabaseSQLValue_of_both_codecs_witness :
  len pairs_k_v < 2 ^ 31 /\ Forall fits32 pairs_k_v /\
  DecodeDatabaseSQLValue (fun _ _ _ buf => Ok buf) HstoreCodec 0 BinaryFormatCode
    (Some (hstoreBinary pairs_k_v ++ []))
  = (buf ← Ok None; Ok (anyString (stringOfSlice buf))).
Proof.
  assert (H1 : len pairs_k_v < 2 ^ 31) by (vm_compute; reflexivity).
  split; [exact H1|]. split; [exact fits32_pairs_k_v|].
  exact (proj2 (proj2 (proj2 (DecodeDatabaseSQLValue_of_both_codecs (fun _ _ _ buf => Ok buf) 0)))
           pairs_k_v [] H1 fits32_pairs_k_v).
Defined.

(** ** Round trips and conversions *)

(** X16. An [Hstore] comes back from a round trip with every value that is
    not valid turned into the zero [pgtype.Text]: parsing the text encoding
    of any mapping, and scanning its binary encoding when the lengths fit
    32 bits, give the mapping with the [String] of its invalid values
    dropped.  That is the mapping itself exactly when no invalid value has
    bytes in [String]. *)
Theorem Hstore_round_trip_drops_stale_strings
    (range : forall V : Type, gmap (list ascii) V -> list (list ascii * V)) :
  rangeOK range ->
  forall (h : gmap (list ascii) Text) (buf : byteslice),
    lenSlice buf = 0 ->
    (exists out : byteslice,
       encodePlanHstoreCodecText_Encode range (anyHstore (Some h)) buf = Ok out /\
       parseHstore (stringOfSlice out) = Ok (Some (normalText <$> h))) /\
    (Z.of_nat (size h) < 2 ^ 31 -> map_Forall (fun k v => fits32 (k, textValue v)) h ->
     exists out : byteslice,
       encodePlanHstoreCodecBinary_Encode range (anyHstore (Some h)) buf = Ok out /\
       scanBinaryHstore out = Ok (Some (normalText <$> h))) /\
    (normalText <$> h = h <->
     map_Forall (fun _ v => pgtype.Valid v = false -> pgtype.String v = []) h).
Proof.
  intros Hrange h buf Hbuf. split; [|split].
  - destruct (text_round_trip_Hstore range Hrange h buf Hbuf) as (out & H1 & _ & H2).
    by exists out.
  - intros Hsize Hfits. eexists. split; [apply (Encode_binary_Hstore range)|].
    pose proof (logical_list h _ (Hrange _ h)) as Hl.
    pose proof (len_range _ _ Hl) as Hlen. rewrite map_size_fmap in Hlen. rewrite <- Hlen.
    change (be32 (int32 (len (logical <$> range Text h)))
            ++ flat_map pairBinary (logical <$> range Text h))
      with (hstoreBinary (logical <$> range Text h)).
    rewrite append_hstoreBinary by done.
    rewrite <- (app_nil_r (hstoreBinary _)).
    rewrite scanBinaryHstore_junk.
    + by rewrite (storeAll_logical h _ (Hrange _ h)).
    + lia.
    + apply (fits32_range (textValue <$> h)); [|done].
      intros k v. rewrite lookup_fmap. destruct (h !! k) as [t|] eqn:Hk; [|done].
      intros [= <-]. by apply (Hfits k).
  - rewrite fmap_fixed. split; intros H k v Hk; apply normalText_fixed; by apply (H k).
Qed.

(** The mapping of [k] to an invalid value with [x] in [String] comes back
    with the zero value. *)
Lemma Hstore_round_trip_drops_stale_strings_witness :
  rangeOK (fun V => map_to_list) /\ lenSlice None = 0 /\
  exists out : byteslice,
    encodePlanHstoreCodecText_Encode (fun V => map_to_list) (anyHstore (Some map_k_stale)) None
      = Ok out /\
    parseHstore (stringOfSlice out) = Ok (Some (normalText <$> map_k_stale)).
Proof.
  assert (HR : rangeOK (fun V => map_to_list)) by (intros V m; unfold ranges; reflexivity).
  split; [exact HR|]. split; [reflexivity|].
  exact (proj1 (Hstore_round_trip_drops_stale_strings (fun V => map_to_list) HR
                  map_k_stale None eq_refl)).
Defined.

(** X17. The [database/sql] methods of [Hstore] are inverse to each other
    up to the same normal form: [Scan] of what [Value] returns gives the nil
    mapping for the nil mapping, and otherwise the mapping with the [String]
    of its invalid values dropped, whatever the receiver held before. *)
Theorem Hstore_Scan_of_Value
    (range : forall V : Type, gmap (list ascii) V -> list (list ascii * V)) :
  rangeOK range ->
  forall h h0 : Hstore,
    exists v : any,
      Hstore_Value range h = Ok v /\
      Hstore_Scan h0 v = Ok (fmap (M:=gmap (list ascii)) normalText <$> h).
Proof.
  intros Hrange [m|] h0; [|by exists anyNil].
  destruct (text_round_trip_Hstore range Hrange m None eq_refl) as (out & H1 & _ & H2).
  exists (anyString (stringOfSlice out)). split.
  - unfold Hstore_Value.
    change (PlanEncode HstoreCodec TextFormatCode (anyHstore (Some m)))
      with (Some encodePlanHstoreCodecText).
    cbn [EncodePlan_Encode]. by rewrite H1.
  - cbn [Hstore_Scan]. unfold scanStringHstore. by rewrite H2.
Qed.

(** [Scan] of [Value] of the mapping of [k] to [v]. *)
Lemma Hstore_Scan_of_Value_witness :
  rangeOK (fun V => map_to_list) /\
  exists v : any,
    Hstore_Value (fun V => map_to_list) (Some map_k_v) = Ok v /\
    Hstore_Scan None v = Ok (fmap (M:=gmap (list ascii)) normalText <$> Some map_k_v).
Proof.
  assert (HR : rangeOK (fun V => map_to_list)) by (intros V m; unfold ranges; reflexivity).
  split; [exact HR|].
  exact (Hstore_Scan_of_Value (fun V => map_to_list) HR (Some map_k_v) None).
Defined.

(** X18. Decoding loses nothing but the order of the pairs: a text in which
    no key occurs twice is parsed into a mapping whose entries are the
    pairs of the text, and the text encoder returns the buffer followed by
    that very text when its range visits the entries in the order of the
    text; the same holds for the binary form, read by the binary scan and
    written by the binary encoder, when the lengths fit 32 bits; for both
    representations. *)
Theorem text_of_the_parsed_mapping (l : list (gostring * option gostring)) :
  NoDup l.*1 ->
  (exists (h : gmap (list ascii) Text) (order : list (gostring * Text)),
     parseHstore (hstoreText l) = Ok (Some h) /\ ranges h order /\ logical <$> order = l /\
     (len l < 2 ^ 31 -> Forall fits32 l -> scanBinaryHstore (Some (hstoreBinary l)) = Ok (Some h)) /\
     forall (range : forall V : Type, gmap (list ascii) V -> list (list ascii * V))
            (b : list ascii),
       range _ h = order ->
       encodePlanHstoreCodecText_Encode range (anyHstore (Some h)) (Some b)
         = Ok (Some (b ++ hstoreText l)) /\
       (l <> [] ->
        encodePlanHstoreCodecText_Encode range (anyHstore (Some h)) None
          = Ok (Some (hstoreText l))) /\
       (len l < 2 ^ 31 ->
        encodePlanHstoreCodecBinary_Encode range (anyHstore (Some h)) (Some b)
          = Ok (Some (b ++ hstoreBinary l)) /\
        encodePlanHstoreCodecBinary_Encode range (anyHstore (Some h)) None
          = Ok (Some (hstoreBinary l)))) /\
  (exists (m : gmap (list ascii) (option (list ascii))),
     parseHstoreCompat (hstoreText l) = Ok (Some m) /\ ranges m l /\
     (len l < 2 ^ 31 -> Forall fits32 l ->
      scanBinaryHstoreCompat (Some (hstoreBinary l)) = Ok (Some m)) /\
     forall (range : forall V : Type, gmap (list ascii) V -> list (list ascii * V))
            (b : list ascii),
       range _ m = l ->
       encodePlanHstoreCompatCodecText_Encode range (anyHstoreCompat (Some m)) (Some b)
         = Ok (Some (b ++ hstoreText l)) /\
       (l <> [] ->
        encodePlanHstoreCompatCodecText_Encode range (anyHstoreCompat (Some m)) None
          = Ok (Some (hstoreText l))) /\
       (len l < 2 ^ 31 ->
        encodePlanHstoreCompatCodecBinary_Encode range (anyHstoreCompat (Some m)) (Some b)
          = Ok (Some (b ++ hstoreBinary l)) /\
        encodePlanHstoreCompatCodecBinary_Encode range (anyHstoreCompat (Some m)) None
          = Ok (Some (hstoreBinary l)))).
Proof.
  intros Hnd. split.
  - exists (storeAll (fun value => value) l ∅), (entries (fun value => value) l).
    pose proof (storeAll_entries (fun value : Text => value) l Hnd) as Hperm.
    split; [apply parseHstore_text|]. split; [exact Hperm|].
    split; [apply logical_entries|]. split.
    { intros Hn Hl. rewrite <- (app_nil_r (hstoreBinary l)). by apply scanBinaryHstore_junk. }
    intros range b Hr.
    assert (Hb : be32 (int32 (Z.of_nat (size (storeAll (fun value : Text => value) l ∅))))
                 ++ flat_map pairBinary l = hstoreBinary l).
    { unfold hstoreBinary. do 3 f_equal.
      rewrite <- (len_range _ _ Hperm). unfold entries, len. by rewrite length_fmap. }
    split; [|split].
    + by rewrite Encode_text_Hstore, Hr, logical_entries, append_Some.
    + intros Hl. by rewrite Encode_text_Hstore, Hr, logical_entries, append_None_hstoreText.
    + intros Hn. rewrite !Encode_binary_Hstore, Hr, logical_entries, Hb, append_Some.
      split; [done|]. unfold hstoreBinary. by rewrite append_None_be32.
  - exists (storeAll compatStore l ∅).
    pose proof (storeAll_entries compatStore l Hnd) as Hperm. rewrite compat_entries in Hperm.
    split; [apply parseHstoreCompat_text|]. split; [exact Hperm|]. split.
    { intros Hn Hl. rewrite <- (app_nil_r (hstoreBinary l)).
      by apply scanBinaryHstoreCompat_junk. }
    intros range b Hr.
    assert (Hb : be32 (int32 (Z.of_nat (size (storeAll compatStore l ∅))))
                 ++ flat_map pairBinary l = hstoreBinary l).
    { unfold hstoreBinary. do 3 f_equal. by rewrite <- (len_range _ _ Hperm). }
    split; [|split].
    + by rewrite Encode_text_Compat, Hr, append_Some.
    + intros Hl. by rewrite Encode_text_Compat, Hr, append_None_hstoreText.
    + intros Hn. rewrite !Encode_binary_Compat, Hr, Hb, append_Some.
      split; [done|]. unfold hstoreBinary. by rewrite append_None_be32.
Qed.

(** The pairs of [a] and [b], in this order, in the text form and in the
    binary form: both are decoded into the mapping of the two keys, which
    [map_to_list] lists with [b] first; an encoder whose range visits [a]
    first returns the forms decoded. *)
Lemma text_of_the_parsed_mapping_witness :
  NoDup pairs_a_b.*1 /\ len pairs_a_b < 2 ^ 31 /\ Forall fits32 pairs_a_b /\
  parseHstoreCompat (hstoreText pairs_a_b) = Ok (Some map_a_b) /\
  scanBinaryHstoreCompat (Some (hstoreBinary pairs_a_b)) = Ok (Some map_a_b) /\
  ranges map_a_b pairs_a_b /\
  map_to_list map_a_b = reverse pairs_a_b /\
  rangeReverse _ map_a_b = pairs_a_b /\
  encodePlanHstoreCompatCodecText_Encode rangeReverse (anyHstoreCompat (Some map_a_b))
    (Some (bytes "=")) = Ok (Some (bytes "=" ++ hstoreText pairs_a_b)) /\
  encodePlanHstoreCompatCodecBinary_Encode rangeReverse (anyHstoreCompat (Some map_a_b))
    (Some (bytes "=")) = Ok (Some (bytes "=" ++ hstoreBinary pairs_a_b)).
Proof.
  assert (H0 : NoDup pairs_a_b.*1).
  { apply NoDup_cons. split; [|apply NoDup_singleton].
    intros H. apply list_elem_of_singleton in H. discriminate. }
  assert (H1 : len pairs_a_b < 2 ^ 31) by (vm_compute; reflexivity).
  assert (H2 : Forall fits32 pairs_a_b) by (repeat constructor; vm_compute; congruence).
  assert (H3 : parseHstoreCompat (hstoreText pairs_a_b) = Ok (Some map_a_b))
    by (vm_compute; reflexivity).
  assert (H4 : rangeReverse _ map_a_b = pairs_a_b) by (vm_compute; reflexivity).
  destruct (proj2 (text_of_the_parsed_mapping pairs_a_b H0)) as (m & Hp & Hr & Hs & He).
  assert (Hm : m = map_a_b) by congruence. subst m.
  destruct (He rangeReverse (bytes "=") H4) as (Ht & _ & Hb).
  split; [exact H0|]. split; [exact H1|]. split; [exact H2|]. split; [exact H3|].
  split; [exact (Hs H1 H2)|]. split; [exact Hr|].
  split; [vm_compute; reflexivity|]. split; [exact H4|].
  split; [exact Ht|exact (proj1 (Hb H1))].
Defined.

(** X19. The loop of [PGXToFasterHstore] gives, whatever the order of the
    range, the mapping that holds for each key of the argument [NewText] of
    its string, or the zero [pgtype.Text] for a nil pointer, and no other
    key; the result is not nil, also for the nil argument.  [fasterToOrig]
    and [fasterToCompat] invert it, and [PGXToFasterHstore] inverts
    [fasterToOrig] up to the [String] of invalid values. *)
Theorem PGXToFasterHstore_and_back
    (range : forall V : Type, gmap (list ascii) V -> list (list ascii * V)) :
  rangeOK range ->
  (PGXToFasterHstoreLoop range None = Some ∅ /\ fasterToOrig range None = Some ∅) /\
  (forall m : gmap (list ascii) (option (list ascii)),
     PGXToFasterHstoreLoop range (Some m) = Some (PGXToFasterHstore m) /\
     (forall k, PGXToFasterHstore m !! k = ofValue <$> m !! k) /\
     fasterToOrig range (PGXToFasterHstoreLoop range (Some m)) = Some m /\
     fasterToCompat range (PGXToFasterHstoreLoop range (Some m)) = Some m) /\
  (forall h : gmap (list ascii) Text,
     fasterToOrig range (Some h) = Some (textValue <$> h) /\
     PGXToFasterHstoreLoop range (fasterToOrig range (Some h)) = Some (normalText <$> h)).
Proof.
  intros Hrange. split; [done|]. split.
  - intros m. rewrite PGXToFasterHstoreLoop_Some by done.
    assert (Hback : fasterToOrig range (Some (PGXToFasterHstore m)) = Some m).
    { rewrite fasterToOrig_Some by done. f_equal. unfold PGXToFasterHstore.
      rewrite <- map_fmap_compose. rewrite <- (map_fmap_id m) at 2.
      apply map_fmap_ext. by intros k [s|] _. }
    split; [done|]. split; [|by split].
    intros k. unfold PGXToFasterHstore. rewrite lookup_fmap.
    by destruct (m !! k) as [[s|]|].
  - intros h. rewrite fasterToOrig_Some by done. split; [done|].
    rewrite PGXToFasterHstoreLoop_Some by done. f_equal. unfold PGXToFasterHstore.
    rewrite <- map_fmap_compose. apply map_fmap_ext. intros k v _.
    unfold normalText, compose. by destruct (textValue v).
Qed.

(** The conversions on the mapping of [a] and [b]. *)
Lemma PGXToFasterHstore_and_back_witness :
  rangeOK (fun V => map_to_list) /\
  PGXToFasterHstoreLoop (fun V => map_to_list) (Some map_a_b)
    = Some (PGXToFasterHstore map_a_b) /\
  fasterToOrig (fun V => map_to_list)
    (PGXToFasterHstoreLoop (fun V => map_to_list) (Some map_a_b)) = Some map_a_b.
Proof.
  assert (HR : rangeOK (fun V => map_to_list)) by (intros V m; unfold ranges; reflexivity).
  destruct (proj1 (proj2 (PGXToFasterHstore_and_back (fun V => map_to_list) HR)) map_a_b)
    as (H1 & _ & H2 & _).
  split; [exact HR|]. split; [exact H1|exact H2].
Defined.

(** ** The parser keeps its cache *)

(** X20. The parser keeps [nextBackslash] right: it is the index of the
    first backslash at or after [pos], or -1, when the parser is made, and
    again after every call of a method that returns no error, from a state
    where it was; such a call leaves the string as it is and moves [pos]
    forward. *)
Theorem nextBackslash_is_kept :
  (forall s : gostring, cacheOK (newHSP s)) /\
  (forall p : hstoreParser, cacheOK p ->
     (forall x p', consumeDoubleQuoted p = (Ok x, p') -> advances p p') /\
     (forall x p', consumeDoubleQuotedOrNull p = (Ok x, p') -> advances p p') /\
     (forall x p', consumeExpectedByte dquote p = (Ok x, p') -> advances p p') /\
     (forall x p', consumePairSeparator p = (Ok x, p') -> advances p p') /\
     (forall x p', consumeKVSeparator p = (Ok x, p') -> advances p p')).
Proof.
  split.
  { intros s. rewrite newHSP_mkAt. apply cacheOK_mkAt. }
  intros p Hp. rewrite (cacheOK_inv p Hp).
  set (pre := take _ _). set (rest := drop _ _). clearbody pre rest.
  repeat apply conj; intros x p'.
  - apply staysAt_advances, consumeDoubleQuoted_staysAt.
  - apply staysAt_advances, consumeDoubleQuotedOrNull_staysAt.
  - apply staysAt_advances. by apply consumeExpectedByte_staysAt.
  - apply staysAt_advances. by apply consumeExpected2_staysAt.
  - apply staysAt_advances. by apply consumeExpected2_staysAt.
Qed.

(** After the opening quote of the text of [k] mapped to [NULL], the key is
    read and the cache is right. *)
Lemma nextBackslash_is_kept_witness :
  cacheOK (mkAt [dquote] (bytes "k" ++ dquote :: bytes "=>NULL")) /\
  advances (mkAt [dquote] (bytes "k" ++ dquote :: bytes "=>NULL"))
           (mkAt ([dquote] ++ bytes "k" ++ [dquote]) (bytes "=>NULL")).
Proof.
  assert (H : cacheOK (mkAt [dquote] (bytes "k" ++ dquote :: bytes "=>NULL")))
    by apply cacheOK_mkAt.
  split; [exact H|].
  apply (proj1 (proj2 nextBackslash_is_kept _ H) (bytes "k")).
  vm_compute. reflexivity.
Defined.
